(** * Live audio session of the LiveAnalyst component

    A shallow embedding of the live-conversation logic of the application
    (the [decode] / [encode] / [decodeAudioData] helpers and the
    [LiveAnalyst] component with its [stopConversation],
    [startConversation] and transport callbacks), and the properties of the
    specification that concern it; then the other handlers of the
    application ([fileToBase64], the results of the service wrappers, the
    chat of [ResearchHub] and [handleGenerate] of [VideoCreator]) and
    further properties of the code. *)

From Stdlib Require Import ZArith NArith QArith Qabs List.
From Stdlib Require Import Strings.String Strings.Ascii Strings.Byte.
From Stdlib Require Import Bool Lia Lqa Permutation.
Import ListNotations.

Set Implicit Arguments.

(** ** Base64 text: the platform's [btoa] and [atob]

    Both are browser built-ins.  They are written here after the WHATWG
    definitions: [btoa] is RFC 4648 base64 with padding; [atob] is the
    "forgiving-base64 decode" algorithm.  A binary string (code units
    0..255) is a [string]; a base64 text is a [string] too, so code units
    above 255, which [atob] rejects anyway, are not represented. *)

Module Base64.

Local Open Scope N_scope.

Definition alphabet : string :=
  "ABCDEFGHIJKLMNOPQRSTUVWXYZabcdefghijklmnopqrstuvwxyz0123456789+/".

Definition pad : ascii := "="%char.

Definition b64char (n : N) : ascii :=
  match String.get (N.to_nat n) alphabet with
  | Some c => c
  | None => pad
  end.

Definition b64val (c : ascii) : option N :=
  let n := N_of_ascii c in
  if (65 <=? n) && (n <=? 90) then Some (n - 65)
  else if (97 <=? n) && (n <=? 122) then Some (n - 71)
  else if (48 <=? n) && (n <=? 57) then Some (n + 4)
  else if n =? 43 then Some 62
  else if n =? 47 then Some 63
  else None.

(** ASCII whitespace: TAB, LF, FF, CR, SPACE. *)
Definition is_ascii_whitespace (c : ascii) : bool :=
  let n := N_of_ascii c in
  (n =? 9) || (n =? 10) || (n =? 12) || (n =? 13) || (n =? 32).

(** Three octets give four sextets; a rest of one or two octets gives two
    or three. *)
Fixpoint sextets_of_octets (l : list N) : list N :=
  match l with
  | a :: b :: c :: r =>
      a / 4 :: (a mod 4) * 16 + b / 16 :: (b mod 16) * 4 + c / 64 :: c mod 64
        :: sextets_of_octets r
  | [a; b] => [a / 4; (a mod 4) * 16 + b / 16; (b mod 16) * 4]
  | [a] => [a / 4; (a mod 4) * 16]
  | [] => []
  end.

Definition padding (len : nat) : list ascii :=
  match Nat.modulo len 3 with
  | 1%nat => [pad; pad]
  | 2%nat => [pad]
  | _ => []
  end.

Definition btoa (binary : string) : string :=
  let octets := List.map N_of_ascii (list_ascii_of_string binary) in
  string_of_list_ascii
    (List.map b64char (sextets_of_octets octets) ++ padding (List.length octets)).

(** Step 2 of the forgiving decode: one or two trailing [=] are removed
    when the length is a multiple of four. *)
Definition drop_pad (r : list ascii) : option (list ascii) :=
  match r with
  | c :: r' => if Ascii.eqb c pad then Some r' else None
  | [] => None
  end.

Definition strip_padding (d : list ascii) : list ascii :=
  match drop_pad (rev d) with
  | None => d
  | Some r1 =>
      match drop_pad r1 with
      | Some r2 => rev r2
      | None => rev r1
      end
  end.

Fixpoint sextets (d : list ascii) : option (list N) :=
  match d with
  | [] => Some []
  | c :: r =>
      match b64val c, sextets r with
      | Some v, Some vs => Some (v :: vs)
      | _, _ => None
      end
  end.

(** Four sextets give three octets; a rest of two gives one octet (the
    last four bits are discarded) and a rest of three gives two (the last
    two bits are discarded). *)
Fixpoint octets_of_sextets (l : list N) : list N :=
  match l with
  | a :: b :: c :: d :: r =>
      a * 4 + b / 16 :: (b mod 16) * 16 + c / 4 :: (c mod 4) * 64 + d
        :: octets_of_sextets r
  | [a; b; c] => [a * 4 + b / 16; (b mod 16) * 16 + c / 4]
  | [a; b] => [a * 4 + b / 16]
  | _ => []
  end.

(** [None] stands for the [InvalidCharacterError] exception. *)
Definition atob (data : string) : option string :=
  let d := List.filter (fun c => negb (is_ascii_whitespace c))
                       (list_ascii_of_string data) in
  let d := if Nat.eqb (Nat.modulo (List.length d) 4) 0 then strip_padding d else d in
  if Nat.eqb (Nat.modulo (List.length d) 4) 1 then None
  else
    match sextets d with
    | None => None
    | Some vs => Some (string_of_list_ascii (List.map ascii_of_N (octets_of_sextets vs)))
    end.

End Base64.

(** ** Audio decoding and encoding for the Live API *)

(** [decode]: [atob], then one byte per code unit of the binary string.
    [None] is the exception of [atob]. *)
Definition decode (base64 : string) : option (list byte) :=
  match Base64.atob base64 with
  | Some binaryString => Some (list_byte_of_string binaryString)
  | None => None
  end.

(** [encode]: one code unit per byte, then [btoa]. *)
Definition encode (bytes : list byte) : string :=
  Base64.btoa (string_of_list_byte bytes).

(** ** 16-bit PCM

    A float sample is a rational: every finite value of a [Float32Array] is
    one, its product with 32768 is exact in double precision, and the
    quotient of a 16-bit integer by 32768 is exactly representable in
    single precision, so no rounding occurs on either path.  NaN and the
    infinities are not represented. *)

Local Open Scope Z_scope.

(** The integral part of a number, towards zero. *)
Definition truncate (v : Q) : Z := Z.quot (Qnum v) (Zpos (Qden v)).

(** ECMAScript [ToInt16] on a finite number: truncate towards zero, reduce
    modulo 2^16, and read the result as a signed 16-bit integer.  This is
    what the store [int16[i] = v] into an [Int16Array] performs. *)
Definition ToInt16 (v : Q) : Z :=
  let int := truncate v in
  let int16bit := int mod 65536 in
  if 32768 <=? int16bit then int16bit - 65536 else int16bit.

(** The loop of [onaudioprocess]: [int16[i] = inputData[i] * 32768]. *)
Definition floatToPcm16 (x : Q) : Z := ToInt16 (x * 32768)%Q.

(** The loop body of [decodeAudioData]: [dataInt16[k] / 32768.0]. *)
Definition pcm16ToFloat (s : Z) : Q := (inject_Z s / 32768)%Q.

Definition byte_of_Z (z : Z) : byte :=
  match Byte.of_N (Z.to_N (z mod 256)) with
  | Some b => b
  | None => "000"%byte
  end.

Definition Z_of_byte (b : byte) : Z := Z.of_N (Byte.to_N b).

(** [new Uint8Array(int16.buffer)]: the bytes of the samples, low byte
    first (little-endian platform). *)
Definition Uint8Array_of_Int16Array (int16 : list Z) : list byte :=
  List.flat_map
    (fun s => let u := s mod 65536 in [byte_of_Z (u mod 256); byte_of_Z (u / 256)])
    int16.

Definition int16_of_bytes (lo hi : byte) : Z :=
  let u := Z_of_byte lo + 256 * Z_of_byte hi in
  if 32768 <=? u then u - 65536 else u.

Inductive Exn : Type :=
| InvalidCharacterError
| RangeError
| NotSupportedError
| TypeError
| Rejected (message : string).

(** [new Int16Array(data.buffer)]: a [RangeError] when the byte length is
    odd. *)
Fixpoint Int16Array_of_buffer (data : list byte) : Exn + list Z :=
  match data with
  | [] => inr []
  | lo :: hi :: r =>
      match Int16Array_of_buffer r with
      | inr l => inr (int16_of_bytes lo hi :: l)
      | inl e => inl e
      end
  | [_] => inl RangeError
  end.

Record AudioBuffer : Type := {
  numberOfChannels : nat;
  length : nat;
  sampleRate : Z;
  channelData : list (list Q)
}.

(** Times are counted in sample frames of the output context (1/24000 s):
    [AudioContext.currentTime] advances by whole render quanta and
    [AudioBuffer.duration] is [length / sampleRate], so both are whole
    numbers of frames.  The rounding of their representation in seconds as
    doubles is left out. *)
Definition duration (b : AudioBuffer) : Z := Z.of_nat (length b).

(** [ctx.createBuffer] raises [NotSupportedError] on a zero channel count
    or a zero length.  The rate and the channel count are meant within
    what every implementation supports, 8000 to 96000 Hz and up to 32
    channels, as at the one call of the program (24000 Hz, one channel):
    beyond that range an implementation may raise [NotSupportedError] as
    well, and this is not represented. *)
Definition decodeAudioData (data : list byte) (rate : Z) (numChannels : nat)
  : Exn + AudioBuffer :=
  match Int16Array_of_buffer data with
  | inl e => inl e
  | inr dataInt16 =>
      let frameCount := Nat.div (List.length dataInt16) numChannels in
      if (Nat.eqb numChannels 0 || Nat.eqb frameCount 0)%bool then inl NotSupportedError
      else
        inr {| numberOfChannels := numChannels;
               length := frameCount;
               sampleRate := rate;
               channelData :=
                 List.map
                   (fun channel =>
                      List.map
                        (fun i => pcm16ToFloat
                                    (List.nth (i * numChannels + channel) dataInt16 0))
                        (List.seq 0 frameCount))
                   (List.seq 0 numChannels) |}
  end.

(** The payload built by [onaudioprocess] from one capture frame. *)
Definition pcmBlob_data (inputData : list Q) : string :=
  encode (Uint8Array_of_Int16Array (List.map floatToPcm16 inputData)).

(** ** The LiveAnalyst component *)

Inductive AudioContextState : Type := suspended | running | closed.

Record AudioContext : Type := {
  ctx_id : nat;
  ctx_sampleRate : Z;
  state : AudioContextState
}.

(** A playback handle: a started [AudioBufferSourceNode]. *)
Record AudioBufferSourceNode : Type := {
  node_id : nat;
  buffer : AudioBuffer;
  when : Z
}.

Record Turn : Type := { user : string; model : string }.

(** The acquisitions [startConversation] makes: the capture context
    ([new AudioContext] at 16000 Hz), the playback context (at 24000 Hz),
    the microphone stream ([getUserMedia]) and the transport session
    ([ai.live.connect]). *)
Inductive Step : Type := InputContext | OutputContext | MicStream | TransportSession.

Definition Step_eqb (a b : Step) : bool :=
  match a, b with
  | InputContext, InputContext | OutputContext, OutputContext
  | MicStream, MicStream | TransportSession, TransportSession => true
  | _, _ => false
  end.

(** What the component does to the outside world, in order. *)
Inductive Effect : Type :=
| Acquire (s : Step) (id : nat)
| SessionClose (id : nat)
| NodeDisconnect (id : nat)
| TracksStop (id : nat)
| ContextClose (id : nat)
| SourceStart (id : nat) (startAt : Z) (dur : Z)
| SourceStop (id : nat)
| SendRealtimeInput (payload : string)
| Alert (msg : string)
| ConsoleError.

(** The React state, the refs, and the two transcription variables that
    [startConversation] declares for its callbacks; [fresh] numbers the
    objects created and [trace] records the effects.

    Every call of [startConversation] that gets as far declares a pair of
    transcription variables of its own, which the callbacks built by that
    call share.  The component holds the pair of the call made last, and
    the callbacks below are the callbacks of that call.  The pair of an
    earlier call stays, as it was left, with the callbacks of that call:
    neither is represented, so nothing here speaks of a callback of a
    session that a later start has replaced. *)
Record Component : Type := {
  isConnecting : bool;
  isLive : bool;
  transcriptions : list Turn;
  sessionRef : option nat;
  audioContextRef : option AudioContext;
  outputAudioContextRef : option AudioContext;
  processorRef : option nat;
  streamRef : option nat;
  mediaStreamSourceRef : option nat;
  nextStartTimeRef : Z;
  sourcesRef : list AudioBufferSourceNode;
  currentInputTranscription : string;
  currentOutputTranscription : string;
  fresh : nat;
  trace : list Effect
}.

Definition initial : Component :=
  {| isConnecting := false; isLive := false; transcriptions := [];
     sessionRef := None; audioContextRef := None; outputAudioContextRef := None;
     processorRef := None; streamRef := None; mediaStreamSourceRef := None;
     nextStartTimeRef := 0; sourcesRef := [];
     currentInputTranscription := ""; currentOutputTranscription := "";
     fresh := 0; trace := [] |}.

Inductive SessionState : Type := Idle | Connecting | Live.

(** The lifecycle state as the view shows it.  [Closing] is the inside of
    [stopConversation] and is never observed. *)
Definition session_state (c : Component) : SessionState :=
  if isLive c then Live else if isConnecting c then Connecting else Idle.

(** Assignment to one field. *)
Definition set_isConnecting (v : bool) (c : Component) : Component :=
  {| isConnecting := v; isLive := isLive c; transcriptions := transcriptions c;
     sessionRef := sessionRef c; audioContextRef := audioContextRef c;
     outputAudioContextRef := outputAudioContextRef c;
     processorRef := processorRef c; streamRef := streamRef c;
     mediaStreamSourceRef := mediaStreamSourceRef c;
     nextStartTimeRef := nextStartTimeRef c; sourcesRef := sourcesRef c;
     currentInputTranscription := currentInputTranscription c;
     currentOutputTranscription := currentOutputTranscription c; fresh := fresh c;
     trace := trace c |}.

Definition set_isLive (v : bool) (c : Component) : Component :=
  {| isConnecting := isConnecting c; isLive := v; transcriptions := transcriptions c;
     sessionRef := sessionRef c; audioContextRef := audioContextRef c;
     outputAudioContextRef := outputAudioContextRef c;
     processorRef := processorRef c; streamRef := streamRef c;
     mediaStreamSourceRef := mediaStreamSourceRef c;
     nextStartTimeRef := nextStartTimeRef c; sourcesRef := sourcesRef c;
     currentInputTranscription := currentInputTranscription c;
     currentOutputTranscription := currentOutputTranscription c; fresh := fresh c;
     trace := trace c |}.

Definition set_transcriptions (v : list Turn) (c : Component) : Component :=
  {| isConnecting := isConnecting c; isLive := isLive c; transcriptions := v;
     sessionRef := sessionRef c; audioContextRef := audioContextRef c;
     outputAudioContextRef := outputAudioContextRef c;
     processorRef := processorRef c; streamRef := streamRef c;
     mediaStreamSourceRef := mediaStreamSourceRef c;
     nextStartTimeRef := nextStartTimeRef c; sourcesRef := sourcesRef c;
     currentInputTranscription := currentInputTranscription c;
     currentOutputTranscription := currentOutputTranscription c; fresh := fresh c;
     trace := trace c |}.

Definition set_sessionRef (v : option nat) (c : Component) : Component :=
  {| isConnecting := isConnecting c; isLive := isLive c;
     transcriptions := transcriptions c; sessionRef := v;
     audioContextRef := audioContextRef c;
     outputAudioContextRef := outputAudioContextRef c;
     processorRef := processorRef c; streamRef := streamRef c;
     mediaStreamSourceRef := mediaStreamSourceRef c;
     nextStartTimeRef := nextStartTimeRef c; sourcesRef := sourcesRef c;
     currentInputTranscription := currentInputTranscription c;
     currentOutputTranscription := currentOutputTranscription c; fresh := fresh c;
     trace := trace c |}.

Definition set_audioContextRef (v : option AudioContext) (c : Component) : Component :=
  {| isConnecting := isConnecting c; isLive := isLive c;
     transcriptions := transcriptions c; sessionRef := sessionRef c;
     audioContextRef := v; outputAudioContextRef := outputAudioContextRef c;
     processorRef := processorRef c; streamRef := streamRef c;
     mediaStreamSourceRef := mediaStreamSourceRef c;
     nextStartTimeRef := nextStartTimeRef c; sourcesRef := sourcesRef c;
     currentInputTranscription := currentInputTranscription c;
     currentOutputTranscription := currentOutputTranscription c; fresh := fresh c;
     trace := trace c |}.

Definition set_outputAudioContextRef (v : option AudioContext) (c : Component) : Component :=
  {| isConnecting := isConnecting c; isLive := isLive c;
     transcriptions := transcriptions c; sessionRef := sessionRef c;
     audioContextRef := audioContextRef c; outputAudioContextRef := v;
     processorRef := processorRef c; streamRef := streamRef c;
     mediaStreamSourceRef := mediaStreamSourceRef c;
     nextStartTimeRef := nextStartTimeRef c; sourcesRef := sourcesRef c;
     currentInputTranscription := currentInputTranscription c;
     currentOutputTranscription := currentOutputTranscription c; fresh := fresh c;
     trace := trace c |}.

Definition set_processorRef (v : option nat) (c : Component) : Component :=
  {| isConnecting := isConnecting c; isLive := isLive c;
     transcriptions := transcriptions c; sessionRef := sessionRef c;
     audioContextRef := audioContextRef c;
     outputAudioContextRef := outputAudioContextRef c; processorRef := v;
     streamRef := streamRef c; mediaStreamSourceRef := mediaStreamSourceRef c;
     nextStartTimeRef := nextStartTimeRef c; sourcesRef := sourcesRef c;
     currentInputTranscription := currentInputTranscription c;
     currentOutputTranscription := currentOutputTranscription c; fresh := fresh c;
     trace := trace c |}.

Definition set_streamRef (v : option nat) (c : Component) : Component :=
  {| isConnecting := isConnecting c; isLive := isLive c;
     transcriptions := transcriptions c; sessionRef := sessionRef c;
     audioContextRef := audioContextRef c;
     outputAudioContextRef := outputAudioContextRef c;
     processorRef := processorRef c; streamRef := v;
     mediaStreamSourceRef := mediaStreamSourceRef c;
     nextStartTimeRef := nextStartTimeRef c; sourcesRef := sourcesRef c;
     currentInputTranscription := currentInputTranscription c;
     currentOutputTranscription := currentOutputTranscription c; fresh := fresh c;
     trace := trace c |}.

Definition set_mediaStreamSourceRef (v : option nat) (c : Component) : Component :=
  {| isConnecting := isConnecting c; isLive := isLive c;
     transcriptions := transcriptions c; sessionRef := sessionRef c;
     audioContextRef := audioContextRef c;
     outputAudioContextRef := outputAudioContextRef c;
     processorRef := processorRef c; streamRef := streamRef c;
     mediaStreamSourceRef := v; nextStartTimeRef := nextStartTimeRef c;
     sourcesRef := sourcesRef c;
     currentInputTranscription := currentInputTranscription c;
     currentOutputTranscription := currentOutputTranscription c; fresh := fresh c;
     trace := trace c |}.

Definition set_nextStartTimeRef (v : Z) (c : Component) : Component :=
  {| isConnecting := isConnecting c; isLive := isLive c;
     transcriptions := transcriptions c; sessionRef := sessionRef c;
     audioContextRef := audioContextRef c;
     outputAudioContextRef := outputAudioContextRef c;
     processorRef := processorRef c; streamRef := streamRef c;
     mediaStreamSourceRef := mediaStreamSourceRef c; nextStartTimeRef := v;
     sourcesRef := sourcesRef c;
     currentInputTranscription := currentInputTranscription c;
     currentOutputTranscription := currentOutputTranscription c; fresh := fresh c;
     trace := trace c |}.

Definition set_sourcesRef (v : list AudioBufferSourceNode) (c : Component) : Component :=
  {| isConnecting := isConnecting c; isLive := isLive c;
     transcriptions := transcriptions c; sessionRef := sessionRef c;
     audioContextRef := audioContextRef c;
     outputAudioContextRef := outputAudioContextRef c;
     processorRef := processorRef c; streamRef := streamRef c;
     mediaStreamSourceRef := mediaStreamSourceRef c;
     nextStartTimeRef := nextStartTimeRef c; sourcesRef := v;
     currentInputTranscription := currentInputTranscription c;
     currentOutputTranscription := currentOutputTranscription c; fresh := fresh c;
     trace := trace c |}.

Definition set_currentInputTranscription (v : string) (c : Component) : Component :=
  {| isConnecting := isConnecting c; isLive := isLive c;
     transcriptions := transcriptions c; sessionRef := sessionRef c;
     audioContextRef := audioContextRef c;
     outputAudioContextRef := outputAudioContextRef c;
     processorRef := processorRef c; streamRef := streamRef c;
     mediaStreamSourceRef := mediaStreamSourceRef c;
     nextStartTimeRef := nextStartTimeRef c; sourcesRef := sourcesRef c;
     currentInputTranscription := v;
     currentOutputTranscription := currentOutputTranscription c; fresh := fresh c;
     trace := trace c |}.

Definition set_currentOutputTranscription (v : string) (c : Component) : Component :=
  {| isConnecting := isConnecting c; isLive := isLive c;
     transcriptions := transcriptions c; sessionRef := sessionRef c;
     audioContextRef := audioContextRef c;
     outputAudioContextRef := outputAudioContextRef c;
     processorRef := processorRef c; streamRef := streamRef c;
     mediaStreamSourceRef := mediaStreamSourceRef c;
     nextStartTimeRef := nextStartTimeRef c; sourcesRef := sourcesRef c;
     currentInputTranscription := currentInputTranscription c;
     currentOutputTranscription := v; fresh := fresh c; trace := trace c |}.

Definition set_fresh (v : nat) (c : Component) : Component :=
  {| isConnecting := isConnecting c; isLive := isLive c;
     transcriptions := transcriptions c; sessionRef := sessionRef c;
     audioContextRef := audioContextRef c;
     outputAudioContextRef := outputAudioContextRef c;
     processorRef := processorRef c; streamRef := streamRef c;
     mediaStreamSourceRef := mediaStreamSourceRef c;
     nextStartTimeRef := nextStartTimeRef c; sourcesRef := sourcesRef c;
     currentInputTranscription := currentInputTranscription c;
     currentOutputTranscription := currentOutputTranscription c; fresh := v;
     trace := trace c |}.

Definition set_trace (v : list Effect) (c : Component) : Component :=
  {| isConnecting := isConnecting c; isLive := isLive c;
     transcriptions := transcriptions c; sessionRef := sessionRef c;
     audioContextRef := audioContextRef c;
     outputAudioContextRef := outputAudioContextRef c;
     processorRef := processorRef c; streamRef := streamRef c;
     mediaStreamSourceRef := mediaStreamSourceRef c;
     nextStartTimeRef := nextStartTimeRef c; sourcesRef := sourcesRef c;
     currentInputTranscription := currentInputTranscription c;
     currentOutputTranscription := currentOutputTranscription c; fresh := fresh c;
     trace := v |}.

(** ** Handlers as computations over the component

    A handler either returns or throws, and in both cases leaves a
    component behind. *)

Definition M (A : Type) : Type := Component -> (Exn + A) * Component.

Definition ret {A} (a : A) : M A := fun c => (inr a, c).

Definition throw {A} (e : Exn) : M A := fun c => (inl e, c).

Definition bind {A B} (m : M A) (k : A -> M B) : M B :=
  fun c =>
    match m c with
    | (inr a, c') => k a c'
    | (inl e, c') => (inl e, c')
    end.

Definition try_catch {A} (m : M A) (handler : Exn -> M A) : M A :=
  fun c =>
    match m c with
    | (inr a, c') => (inr a, c')
    | (inl e, c') => handler e c'
    end.

Definition read {A} (f : Component -> A) : M A := fun c => (inr (f c), c).

Definition update (f : Component -> Component) : M unit := fun c => (inr tt, f c).

Definition lift {A} (r : Exn + A) : M A :=
  match r with
  | inr a => ret a
  | inl e => throw e
  end.

Definition when_ (b : bool) (m : M unit) : M unit := if b then m else ret tt.

Declare Scope live_scope.
Delimit Scope live_scope with live.
Notation "x <- m ;; k" := (bind m (fun x => k))
  (at level 61, m at next level, right associativity) : live_scope.
Notation "m ;; k" := (bind m (fun _ => k))
  (at level 61, right associativity) : live_scope.
Local Open Scope live_scope.

Definition effect (e : Effect) : M unit :=
  update (fun c => set_trace (trace c ++ [e]) c).

(** A new object identity. *)
Definition new_id : M nat :=
  fun c => (inr (fresh c), set_fresh (S (fresh c)) c).

(** *** Playback handles: the [Set] in [sourcesRef]

    A JavaScript [Set] keeps insertion order and compares objects by
    identity. *)

Definition Set_has (id : nat) (s : list AudioBufferSourceNode) : bool :=
  List.existsb (fun n => Nat.eqb (node_id n) id) s.

Definition Set_add (n : AudioBufferSourceNode) (s : list AudioBufferSourceNode) :=
  if Set_has (node_id n) s then s else s ++ [n].

Definition Set_delete (id : nat) (s : list AudioBufferSourceNode) :=
  List.filter (fun n => negb (Nat.eqb (node_id n) id)) s.

Fixpoint forEach {A} (f : A -> M unit) (l : list A) : M unit :=
  match l with
  | [] => ret tt
  | a :: r => f a ;; forEach f r
  end.

(** [source.stop()] on a started node. *)
Definition source_stop (n : AudioBufferSourceNode) : M unit :=
  effect (SourceStop (node_id n)).

(** The ['ended'] listener of a source. *)
Definition onended (id : nat) : M unit :=
  update (fun c => set_sourcesRef (Set_delete id (sourcesRef c)) c).

(** [ctx.close()] asks the platform to close the context and returns a
    promise, which the component drops.  Nothing changes in the component
    within the call: the refs keep the context, and [ctx.state] goes on
    reading what it read until the platform has closed the context
    ([contexts_closed] below). *)
Definition context_close (ctx : AudioContext) : M unit :=
  effect (ContextClose (ctx_id ctx)).

(** [ctx.state === 'closed'] *)
Definition is_closed (s : AudioContextState) : bool :=
  match s with closed => true | _ => false end.

(** [close()] has been called on the context [id]. *)
Definition close_asked (id : nat) (tr : list Effect) : bool :=
  List.existsb (fun e => match e with
                         | ContextClose i => Nat.eqb i id
                         | _ => false
                         end) tr.

Definition closed_if_asked (tr : list Effect) (r : option AudioContext)
  : option AudioContext :=
  match r with
  | Some ctx =>
      Some (if close_asked (ctx_id ctx) tr
            then {| ctx_id := ctx_id ctx; ctx_sampleRate := ctx_sampleRate ctx;
                    state := closed |}
            else ctx)
  | None => None
  end.

(** The platform, not the component: it has closed the contexts on which
    [close()] was called, and their state reads ['closed'] from now on.
    This happens some time after the call, as a step of its own; a
    platform that sets the state within [close()] is the case where this
    step follows the call at once. *)
Definition contexts_closed : M unit :=
  update (fun c =>
            set_audioContextRef (closed_if_asked (trace c) (audioContextRef c))
              (set_outputAudioContextRef
                 (closed_if_asked (trace c) (outputAudioContextRef c)) c)).

(** *** [stopConversation] *)

(** The three statements of a flush, as [stopConversation] and the
    interruption branch of [onmessage] both have them. *)
Definition flush : M unit :=
  sources <- read sourcesRef ;;
  forEach source_stop sources ;;
  update (set_sourcesRef []) ;;
  update (set_nextStartTimeRef 0).

Definition stopConversation : M unit :=
  s <- read sessionRef ;;
  match s with
  | Some session => effect (SessionClose session) ;; update (set_sessionRef None)
  | None => ret tt
  end ;;
  p <- read processorRef ;;
  match p with
  | Some processor => effect (NodeDisconnect processor) ;; update (set_processorRef None)
  | None => ret tt
  end ;;
  m <- read mediaStreamSourceRef ;;
  match m with
  | Some node => effect (NodeDisconnect node) ;; update (set_mediaStreamSourceRef None)
  | None => ret tt
  end ;;
  st <- read streamRef ;;
  match st with
  | Some stream => effect (TracksStop stream) ;; update (set_streamRef None)
  | None => ret tt
  end ;;
  a <- read audioContextRef ;;
  match a with
  | Some ctx => when_ (negb (is_closed (state ctx))) (context_close ctx)
  | None => ret tt
  end ;;
  o <- read outputAudioContextRef ;;
  match o with
  | Some ctx => when_ (negb (is_closed (state ctx))) (context_close ctx)
  | None => ret tt
  end ;;
  flush ;;
  update (set_isLive false) ;;
  update (set_isConnecting false).

(** *** [startConversation] *)

(** The outside world of one start: which acquisitions succeed.  The
    construction of the API client acquires nothing and is left out. *)
Definition Env : Type := Step -> bool.

Definition failure_message (s : Step) : string :=
  match s with
  | InputContext | OutputContext => "AudioContext"
  | MicStream => "Permission denied"
  | TransportSession => "connect"
  end.

Definition acquire (env : Env) (s : Step) : M nat :=
  if env s then (id <- new_id ;; effect (Acquire s id) ;; ret id)
  else throw (Rejected (failure_message s)).

Definition new_AudioContext (env : Env) (s : Step) (rate : Z) : M AudioContext :=
  id <- acquire env s ;;
  ret {| ctx_id := id; ctx_sampleRate := rate; state := running |}.

Definition getUserMedia (env : Env) : M nat := acquire env MicStream.

Definition live_connect (env : Env) : M nat := acquire env TransportSession.

(** [error instanceof Error ? error.message : "Unknown error"] *)
Definition error_message (e : Exn) : string :=
  match e with
  | Rejected msg => msg
  | InvalidCharacterError => "InvalidCharacterError"
  | RangeError => "RangeError"
  | NotSupportedError => "NotSupportedError"
  | TypeError => "TypeError"
  end.

(** The two [let]s after [getUserMedia] give the callbacks of this call
    their own pair of variables, both empty: the pair the component holds
    from then on is this new one. *)
Definition startConversation (env : Env) : M unit :=
  update (set_isConnecting true) ;;
  update (set_transcriptions []) ;;
  try_catch
    (a <- new_AudioContext env InputContext 16000 ;;
     update (set_audioContextRef (Some a)) ;;
     o <- new_AudioContext env OutputContext 24000 ;;
     update (set_outputAudioContextRef (Some o)) ;;
     stream <- getUserMedia env ;;
     update (set_streamRef (Some stream)) ;;
     update (set_currentInputTranscription "") ;;
     update (set_currentOutputTranscription "") ;;
     session <- live_connect env ;;
     update (set_sessionRef (Some session)))
    (fun error =>
       effect ConsoleError ;;
       effect (Alert ("Could not start the conversation: " ++ error_message error)) ;;
       stopConversation).

(** *** Transport callbacks *)

Record Transcription : Type := { text : option string }.
Record Blob : Type := { data : option string }.
Record Part : Type := { inlineData : option Blob }.
Record Content : Type := { parts : option (list Part) }.

Record LiveServerContent : Type := {
  outputTranscription : option Transcription;
  inputTranscription : option Transcription;
  turnComplete : option bool;
  modelTurn : option Content;
  interrupted : option bool
}.

Record LiveServerMessage : Type := { serverContent : option LiveServerContent }.

(** [message.serverContent?.f] *)
Definition serverContent_get {A} (f : LiveServerContent -> option A)
  (message : LiveServerMessage) : option A :=
  match serverContent message with
  | Some sc => f sc
  | None => None
  end.

Definition truthy (b : option bool) : bool :=
  match b with Some true => true | _ => false end.

(** [s += t.text]; an absent [text] is concatenated as ["undefined"]. *)
Definition append_text (s : string) (t : Transcription) : string :=
  (s ++ match text t with Some x => x | None => "undefined" end)%string.

(** [message.serverContent?.modelTurn?.parts[0]?.inlineData?.data]; an
    absent [parts] under a present [modelTurn] is indexed and throws. *)
Definition base64Audio_of (message : LiveServerMessage) : Exn + option string :=
  match serverContent_get modelTurn message with
  | None => inr None
  | Some turn =>
      match parts turn with
      | None => inl TypeError
      | Some ps =>
          match List.nth_error ps 0 with
          | None => inr None
          | Some p =>
              match inlineData p with
              | None => inr None
              | Some b => inr (data b)
              end
          end
      end
  end.

Definition nonempty (s : string) : bool :=
  match s with EmptyString => false | _ => true end.

(** The body of [if (base64Audio && outputAudioContextRef.current)];
    [currentTime] is the device time read from the output context. *)
Definition schedule (currentTime : Z) (base64Audio : string) : M unit :=
  update (fun c => set_nextStartTimeRef (Z.max (nextStartTimeRef c) currentTime) c) ;;
  bytes <- lift (match decode base64Audio with
                 | Some b => inr b
                 | None => inl InvalidCharacterError
                 end) ;;
  audioBuffer <- lift (decodeAudioData bytes 24000 1) ;;
  id <- new_id ;;
  startAt <- read nextStartTimeRef ;;
  let source := {| node_id := id; buffer := audioBuffer; when := startAt |} in
  effect (SourceStart id startAt (duration audioBuffer)) ;;
  update (fun c => set_nextStartTimeRef (nextStartTimeRef c + duration audioBuffer) c) ;;
  update (fun c => set_sourcesRef (Set_add source (sourcesRef c)) c).

(** The four blocks of [onmessage], in the order of the source. *)

Definition accumulate_transcription (message : LiveServerMessage) : M unit :=
  match serverContent_get outputTranscription message with
  | Some t =>
      update (fun c => set_currentOutputTranscription
                         (append_text (currentOutputTranscription c) t) c)
  | None => ret tt
  end ;;
  match serverContent_get inputTranscription message with
  | Some t =>
      update (fun c => set_currentInputTranscription
                         (append_text (currentInputTranscription c) t) c)
  | None => ret tt
  end.

Definition complete_turn (message : LiveServerMessage) : M unit :=
  when_ (truthy (serverContent_get turnComplete message))
    (userInput <- read currentInputTranscription ;;
     modelOutput <- read currentOutputTranscription ;;
     update (fun c => set_transcriptions
                        (transcriptions c ++ [{| user := userInput; model := modelOutput |}]) c) ;;
     update (set_currentInputTranscription "") ;;
     update (set_currentOutputTranscription "")).

Definition play_audio (currentTime : Z) (message : LiveServerMessage) : M unit :=
  base64Audio <- lift (base64Audio_of message) ;;
  out <- read outputAudioContextRef ;;
  match base64Audio, out with
  | Some b, Some _ => when_ (nonempty b) (schedule currentTime b)
  | _, _ => ret tt
  end.

Definition interrupt (message : LiveServerMessage) : M unit :=
  when_ (truthy (serverContent_get interrupted message)) flush.

Definition onmessage (currentTime : Z) (message : LiveServerMessage) : M unit :=
  accumulate_transcription message ;;
  complete_turn message ;;
  play_audio currentTime message ;;
  interrupt message.

(** [onopen]: the capture pipeline is built and the view goes live.  The
    non-null assertions on the two refs fail with a [TypeError] on a null. *)
Definition onopen : M unit :=
  a <- read audioContextRef ;;
  s <- read streamRef ;;
  match a, s with
  | Some _, Some _ =>
      node <- new_id ;;
      update (set_mediaStreamSourceRef (Some node)) ;;
      processor <- new_id ;;
      update (set_processorRef (Some processor)) ;;
      update (set_isConnecting false) ;;
      update (set_isLive true)
  | _, _ => throw TypeError
  end.

(** [onaudioprocess]: one capture frame is converted, encoded and sent. *)
Definition onaudioprocess (inputData : list Q) : M unit :=
  effect (SendRealtimeInput (pcmBlob_data inputData)).

Definition onerror : M unit :=
  effect ConsoleError ;;
  effect (Alert "A connection error occurred.") ;;
  stopConversation.

Definition onclose : M unit := stopConversation.

(** A handler that throws leaves the component as it was when the
    exception was raised; nothing catches the rejection of [onmessage]. *)
Definition run (m : M unit) (c : Component) : Component := snd (m c).

Definition outcome (m : M unit) (c : Component) : Exn + unit := fst (m c).

(** A stream of inbound messages, each with the device time at which it is
    handled. *)
Fixpoint run_messages (l : list (Z * LiveServerMessage)) (c : Component) : Component :=
  match l with
  | [] => c
  | (t, m) :: r => run_messages r (run (onmessage t m) c)
  end.

(** ** The component and what happens to it *)

(** Everything that can happen to the component: the conversation button,
    the transport callbacks, the end of a source, a capture frame, the
    cleanup of the effect when the component unmounts, and the platform
    closing the contexts it was asked to close. *)
Inductive Event : Type :=
| Start (env : Env)
| Stop
| Open
| Message (currentTime : Z) (message : LiveServerMessage)
| Ended (id : nat)
| AudioProcess (inputData : list Q)
| Error
| Close
| ContextsClosed.

Definition handler (e : Event) : M unit :=
  match e with
  | Start env => startConversation env
  | Stop => stopConversation
  | Open => onopen
  | Message t m => onmessage t m
  | Ended id => onended id
  | AudioProcess inputData => onaudioprocess inputData
  | Error => onerror
  | Close => onclose
  | ContextsClosed => contexts_closed
  end.

Fixpoint run_events (l : list Event) (c : Component) : Component :=
  match l with
  | [] => c
  | e :: r => run_events r (run (handler e) c)
  end.

(** ** Data URLs: [fileToBase64] and [handleEditImage] *)

(** [s.split(sep)] for a one-character separator. *)
Fixpoint split_on (sep : ascii) (s : string) : list string :=
  match s with
  | EmptyString => [EmptyString]
  | String c r =>
      if Ascii.eqb c sep then EmptyString :: split_on sep r
      else match split_on sep r with
           | piece :: pieces => String c piece :: pieces
           | [] => [String c EmptyString]
           end
  end.

(** [fileToBase64], from the text the reader loaded:
    [(reader.result as string).split(',')[1]]; [None] is [undefined]. *)
Definition fileToBase64 (result : string) : option string :=
  List.nth_error (split_on "," result) 1.

(** The original image URL that [handleEditImage] rebuilds:
    [`data:${type};base64,${base64}`]. *)
Definition originalImageUrl (type base64 : string) : string :=
  ("data:" ++ type ++ ";base64," ++ base64)%string.

(** ** What the service wrappers take from a response *)

Record Candidate : Type := { content : option Content }.

Record GenerateContentResponse : Type := { candidates : option (list Candidate) }.

(** [response.candidates?.[0]?.content?.parts?.[0]] *)
Definition first_part (response : GenerateContentResponse) : option Part :=
  match candidates response with
  | Some cs =>
      match List.nth_error cs 0 with
      | Some candidate =>
          match content candidate with
          | Some ct =>
              match parts ct with
              | Some ps => List.nth_error ps 0
              | None => None
              end
          | None => None
          end
      | None => None
      end
  | None => None
  end.

(** A string in a template literal; [undefined] prints as its name. *)
Definition interpolate (s : option string) : string :=
  match s with Some x => x | None => "undefined" end.

(** The end of [editImage], from the response of the model. *)
Definition editImage_result (response : GenerateContentResponse) : Exn + string :=
  match first_part response with
  | Some part =>
      match inlineData part with
      | Some blob => inr ("data:image/png;base64," ++ interpolate (data blob))%string
      | None => inl (Rejected "Image editing failed.")
      end
  | None => inl (Rejected "Image editing failed.")
  end.

(** The end of [textToSpeech]. *)
Definition textToSpeech_result (response : GenerateContentResponse) : Exn + string :=
  match first_part response with
  | Some {| inlineData := Some {| data := Some base64Audio |} |} =>
      if nonempty base64Audio then inr base64Audio
      else inl (Rejected "Text-to-speech conversion failed.")
  | _ => inl (Rejected "Text-to-speech conversion failed.")
  end.

(** A video operation as [generateVideo] reads it: [operation.done] and
    [operation.response?.generatedVideos?.[0]?.video?.uri]. *)
Record VideosOperation : Type := { done : option bool; uri : option string }.

(** The polling loop of [generateVideo]: the operation returned by
    [generateVideos], then the results of the successive calls to
    [getVideosOperation], each after a wait of ten seconds.  The result is
    the operation the loop ends on and the number of waits; [None] when
    the results given run out before one is done. *)
Fixpoint await_done (operation : VideosOperation) (polls : list VideosOperation)
  : option (VideosOperation * nat) :=
  if truthy (done operation) then Some (operation, 0%nat)
  else
    match polls with
    | [] => None
    | next :: later =>
        match await_done next later with
        | Some (final, waits) => Some (final, S waits)
        | None => None
        end
    end.

(** What [generateVideo] fetches once the loop has ended. *)
Definition download_url (apiKey : option string) (operation : VideosOperation)
  : Exn + string :=
  match uri operation with
  | Some downloadLink =>
      if nonempty downloadLink
      then inr (downloadLink ++ "&key=" ++ interpolate apiKey)%string
      else inl (Rejected "Video generation failed to produce a download link.")
  | None => inl (Rejected "Video generation failed to produce a download link.")
  end.

Definition generateVideo_fetch (apiKey : option string) (operation : VideosOperation)
  (polls : list VideosOperation) : option ((Exn + string) * nat) :=
  match await_done operation polls with
  | Some (final, waits) => Some (download_url apiKey final, waits)
  | None => None
  end.

(** ** The chat of the ResearchHub component *)

Inductive Role : Type := RoleUser | RoleModel.

Record ChatMessage : Type := { role : Role; message_text : string }.

(** The chat state of [ResearchHub]; [chatRef] tells whether the ref holds
    a chat. *)
Record ResearchHub : Type := {
  chatRef : bool;
  chatMessages : list ChatMessage;
  chatInput : string;
  isLoading : bool
}.

(** White space and line terminators of ECMAScript among the characters
    below 256: TAB, LF, VT, FF, CR, SPACE, NBSP. *)
Definition js_whitespace (c : ascii) : bool :=
  let n := N_of_ascii c in
  ((n =? 9) || (n =? 10) || (n =? 11) || (n =? 12) || (n =? 13) || (n =? 32)
   || (n =? 160))%N.

(** [!s.trim()] *)
Definition blank (s : string) : bool :=
  List.forallb js_whitespace (list_ascii_of_string s).

(** [handleChatSend] up to the call of [sendMessage]; [None] when the
    handler returns at its guard. *)
Definition handleChatSend_begin (h : ResearchHub) : option ResearchHub :=
  if (blank (chatInput h) || negb (chatRef h))%bool then None
  else Some {| chatRef := chatRef h;
               chatMessages := chatMessages h
                                 ++ [{| role := RoleUser; message_text := chatInput h |}];
               chatInput := "";
               isLoading := true |}.

(** [handleChatSend] from the answer of [sendMessage] on: the text of the
    response, or an exception. *)
Definition handleChatSend_end (reply : Exn + string) (h : ResearchHub) : ResearchHub :=
  {| chatRef := chatRef h;
     chatMessages :=
       chatMessages h
         ++ [{| role := RoleModel;
                message_text := match reply with
                                | inr text => text
                                | inl _ => "Sorry, I encountered an error."
                                end |}];
     chatInput := chatInput h;
     isLoading := false |}.

Definition handleChatSend (reply : Exn + string) (h : ResearchHub) : ResearchHub :=
  match handleChatSend_begin h with
  | Some h' => handleChatSend_end reply h'
  | None => h
  end.

(** The user types a text and submits it; the model answers. *)
Definition type_and_send (h : ResearchHub) (turn : string * (Exn + string)) : ResearchHub :=
  handleChatSend (snd turn)
    {| chatRef := chatRef h; chatMessages := chatMessages h;
       chatInput := fst turn; isLoading := isLoading h |}.

Definition chat (turns : list (string * (Exn + string))) (h : ResearchHub) : ResearchHub :=
  List.fold_left type_and_send turns h.

(** ** The VideoCreator component: [handleGenerate] *)

Module VideoCreator.

Record File : Type := { name : string; type : string }.

Record ScriptData : Type := {
  script : string;
  title : string;
  description : string;
  tags : list string;
  thumbnailPrompt : string
}.

(** [GeneratedVideoAssets]: the script data with the two URLs. *)
Record GeneratedVideoAssets : Type := {
  scriptData : ScriptData;
  thumbnailUrl : string;
  videoUrl : option string
}.

Inductive AspectRatio : Type := Landscape | Portrait.

Record ImagePayload : Type := { imageBytes : option string; mimeType : string }.

(** The state of the component. *)
Record State : Type := {
  topic : string;
  aspectRatio : AspectRatio;
  imageFile : option File;
  isLoading : bool;
  loadingMessage : string;
  assets : option GeneratedVideoAssets;
  apiKeySelected : bool
}.

(** What [handleGenerate] does to the outside world, in order. *)
Inductive Action : Type :=
| Alerted (msg : string)
| Logged
| GenerateTextWithGrounding (prompt : string)
| GenerateScriptAndMetadata (topic aggregatedData : string)
| GenerateImage (prompt : string)
| ReadFile (file : File)
| GenerateVideo (prompt : string) (ratio : AspectRatio) (image : option ImagePayload).

(** The answers of the services to one run: what each call returns or
    throws, should it be made.  The services throw [Error]s; the reader of
    [fileToBase64] resolves with a text, or [undefined], or rejects with
    the event of its failure ([None]), which is not an [Error]. *)
Record Services : Type := {
  groundingText : Exn + string;
  scriptAndMetadata : Exn + ScriptData;
  thumbnail : Exn + string;
  fileBase64 : option (option string);
  video : Exn + string
}.

(** What the [catch] block receives. *)
Inductive Thrown : Type := ErrorObject (e : Exn) | ReaderEvent.

Definition imageOnlyScript : ScriptData :=
  {| script := "A short video based on the provided image.";
     title := "AI-Generated Video";
     description := "This video was generated from an image using CryptoVid AI Studio.";
     tags := ["ai"; "video"; "generativeart"]%string;
     thumbnailPrompt := "A visually interesting thumbnail related to the uploaded image." |}.

Fixpoint includes (needle s : string) : bool :=
  (String.prefix needle s
   || match s with
      | String _ r => includes needle r
      | EmptyString => false
      end)%bool.

(** [error instanceof Error ? error.message : String(error)] *)
Definition message_of (t : Thrown) : string :=
  match t with
  | ErrorObject e => error_message e
  | ReaderEvent => "[object ProgressEvent]"
  end.

(** [error instanceof Error
     && error.message.includes("Requested entity was not found.")] *)
Definition entity_not_found (t : Thrown) : bool :=
  match t with
  | ErrorObject e => includes "Requested entity was not found." (error_message e)
  | ReaderEvent => false
  end.

Definition set_loading (b : bool) (msg : string) (a : option GeneratedVideoAssets)
  (s : State) : State :=
  {| topic := topic s; aspectRatio := aspectRatio s; imageFile := imageFile s;
     isLoading := b; loadingMessage := msg; assets := a;
     apiKeySelected := apiKeySelected s |}.

Definition set_apiKeySelected (b : bool) (s : State) : State :=
  {| topic := topic s; aspectRatio := aspectRatio s; imageFile := imageFile s;
     isLoading := isLoading s; loadingMessage := loadingMessage s; assets := assets s;
     apiKeySelected := b |}.

(** The [try] block: the assets set so far and the actions, with the
    exception when a call throws. *)
Definition generate (sv : Services) (s : State)
  : option Thrown * option GeneratedVideoAssets * list Action :=
  let scripted :=
    if nonempty (topic s) then
      let a1 := [GenerateTextWithGrounding
                   ("Find the latest news and market data about " ++ topic s)] in
      match groundingText sv with
      | inl e => (inl (ErrorObject e), a1)
      | inr text =>
          let a2 := a1 ++ [GenerateScriptAndMetadata (topic s) text] in
          match scriptAndMetadata sv with
          | inl e => (inl (ErrorObject e), a2)
          | inr d => (inr d, a2)
          end
      end
    else (inr imageOnlyScript, []) in
  match scripted with
  | (inl e, acts) => (Some e, None, acts)
  | (inr d, acts) =>
      let acts := acts ++ [GenerateImage (thumbnailPrompt d)] in
      match thumbnail sv with
      | inl e => (Some (ErrorObject e), None, acts)
      | inr url =>
          let shown := Some {| scriptData := d; thumbnailUrl := url; videoUrl := None |} in
          let payload :=
            match imageFile s with
            | Some f =>
                match fileBase64 sv with
                | None => (inl ReaderEvent, [ReadFile f])
                | Some b => (inr (Some {| imageBytes := b; mimeType := type f |}), [ReadFile f])
                end
            | None => (inr None, [])
            end in
          match payload with
          | (inl e, acts') => (Some e, shown, acts ++ acts')
          | (inr image, acts') =>
              let acts := acts ++ acts' ++ [GenerateVideo (script d) (aspectRatio s) image] in
              match video sv with
              | inl e => (Some (ErrorObject e), shown, acts)
              | inr v =>
                  (None,
                   Some {| scriptData := d; thumbnailUrl := url; videoUrl := Some v |},
                   acts)
              end
          end
      end
  end.

Definition handleGenerate (sv : Services) (s : State) : State * list Action :=
  if (negb (nonempty (topic s)) && match imageFile s with None => true | _ => false end)%bool
  then (s, [Alerted "Please provide a topic or an image."])
  else if negb (apiKeySelected s)
  then (s, [Alerted "Please select your API key first."])
  else
    match generate sv s with
    | (None, a, acts) => (set_loading false "" a s, acts)
    | (Some e, a, acts) =>
        let acts := acts ++ [Logged; Alerted ("An error occurred: " ++ message_of e)] in
        if entity_not_found e
        then (set_apiKeySelected false (set_loading false "" a s),
              acts ++ [Alerted "API Key not found. Please select your key again."])
        else (set_loading false "" a s, acts)
    end.

Definition service_call (a : Action) : bool :=
  match a with
  | Alerted _ | Logged => false
  | _ => true
  end.

(** The services, the reader of the file among them. *)
Inductive Service : Type := Grounding | Script | Thumbnail | Reader | Video.

Definition service_of (a : Action) : list Service :=
  match a with
  | GenerateTextWithGrounding _ => [Grounding]
  | GenerateScriptAndMetadata _ _ => [Script]
  | GenerateImage _ => [Thumbnail]
  | ReadFile _ => [Reader]
  | GenerateVideo _ _ _ => [Video]
  | Alerted _ | Logged => []
  end.

(** The calls of a run in which nothing fails. *)
Definition plan (s : State) : list Service :=
  (if nonempty (topic s) then [Grounding; Script] else [])
  ++ [Thumbnail]
  ++ (match imageFile s with Some _ => [Reader] | None => [] end)
  ++ [Video].

(** The guards of [handleGenerate] let the run proceed. *)
Definition ready (s : State) : bool :=
  ((nonempty (topic s) || match imageFile s with Some _ => true | None => false end)
   && apiKeySelected s)%bool.

Definition alerted (a : Action) : bool :=
  match a with Alerted _ => true | _ => false end.

(** The assets are there, video included. *)
Definition complete (a : option GeneratedVideoAssets) : bool :=
  match a with
  | Some {| videoUrl := Some _ |} => true
  | _ => false
  end.

End VideoCreator.

(** * Vocabulary of the properties *)

(** Bounds on the two kinds of digits. *)
Definition octet (n : N) : Prop := (n < 256)%N.

Definition sextet (n : N) : Prop := (n < 64)%N.

(** The truncated product, before it is reduced to 16 bits. *)
Definition scaled (x : Q) : Z := truncate (x * 32768)%Q.

(** What [stopConversation] does to the outside world from a given
    component. *)
Definition option_effect (f : nat -> Effect) (r : option nat) : list Effect :=
  match r with Some id => [f id] | None => [] end.

Definition close_effect (r : option AudioContext) : list Effect :=
  match r with
  | Some ctx => if is_closed (state ctx) then [] else [ContextClose (ctx_id ctx)]
  | None => []
  end.

Definition stop_effects (c : Component) : list Effect :=
  option_effect SessionClose (sessionRef c)
  ++ option_effect NodeDisconnect (processorRef c)
  ++ option_effect NodeDisconnect (mediaStreamSourceRef c)
  ++ option_effect TracksStop (streamRef c)
  ++ close_effect (audioContextRef c)
  ++ close_effect (outputAudioContextRef c).

Definition stop_sources (l : list AudioBufferSourceNode) : list Effect :=
  List.map (fun n => SourceStop (node_id n)) l.

(** The order in which [startConversation] acquires. *)
Definition startup_order : list Step :=
  [InputContext; OutputContext; MicStream; TransportSession].



Definition acquisitions (tr : list Effect) : list (Step * nat) :=
  List.flat_map (fun e => match e with Acquire s id => [(s, id)] | _ => [] end) tr.

Definition releases (tr : list Effect) : list nat :=
  List.flat_map
    (fun e => match e with
              | SessionClose id | TracksStop id | ContextClose id => [id]
              | _ => []
              end) tr.

Definition alerts (tr : list Effect) : list string :=
  List.flat_map (fun e => match e with Alert msg => [msg] | _ => [] end) tr.

(** The effects of a handler run from [c] to [c']. *)
Definition new_effects (c c' : Component) : list Effect :=
  List.skipn (List.length (trace c)) (trace c').

(** No session is under way and nothing is held: the refs are as the
    first render leaves them, or as a [stopConversation] does once the
    contexts it closed read ['closed']. *)
Definition quiescent (c : Component) : bool :=
  (negb (isLive c) && negb (isConnecting c)
   && match sessionRef c with None => true | _ => false end
   && match processorRef c with None => true | _ => false end
   && match mediaStreamSourceRef c with None => true | _ => false end
   && match streamRef c with None => true | _ => false end
   && match close_effect (audioContextRef c) with [] => true | _ => false end
   && match close_effect (outputAudioContextRef c) with [] => true | _ => false end
   && match sourcesRef c with [] => true | _ => false end)%bool.

(** A transcription buffer after the fragment of a message, if it has one. *)
Definition heard (f : LiveServerContent -> option Transcription)
  (message : LiveServerMessage) (s : string) : string :=
  match serverContent_get f message with
  | Some t => append_text s t
  | None => s
  end.

(** The playback buffer a message gives rise to, when its audio is present
    and well formed. *)
Definition inbound_audio (message : LiveServerMessage) : option AudioBuffer :=
  match base64Audio_of message with
  | inr (Some b) =>
      if nonempty b then
        match decode b with
        | Some bytes =>
            match decodeAudioData bytes 24000 1 with
            | inr audioBuffer => Some audioBuffer
            | inl _ => None
            end
        | None => None
        end
      else None
  | _ => None
  end.

(** What the transcript holds. *)
Definition transcript (c : Component) : list Turn * string * string :=
  (transcriptions c, currentInputTranscription c, currentOutputTranscription c).

(** The lifecycle flags and the capture and transport refs. *)
Definition lifecycle (c : Component) :=
  (isConnecting c, isLive c, sessionRef c, audioContextRef c, outputAudioContextRef c,
   processorRef c, streamRef c, mediaStreamSourceRef c).

(** The playback scheduler: clock, active handles, and the effects. *)
Definition playback (c : Component) :=
  (nextStartTimeRef c, sourcesRef c, fresh c, trace c).

(** The component after a buffer is scheduled at device time [t]. *)
Definition enqueued (t : Z) (audioBuffer : AudioBuffer) (c : Component) : Component :=
  let startAt := Z.max (nextStartTimeRef c) t in
  set_sourcesRef
    (Set_add {| node_id := fresh c; buffer := audioBuffer; when := startAt |}
       (sourcesRef c))
    (set_nextStartTimeRef (startAt + duration audioBuffer)
       (set_trace (trace c ++ [SourceStart (fresh c) startAt (duration audioBuffer)])
          (set_fresh (S (fresh c)) c))).

(** The buffers started, with start time and duration, in order. *)
Definition starts (tr : list Effect) : list (Z * Z) :=
  List.flat_map (fun e => match e with SourceStart _ s d => [(s, d)] | _ => [] end) tr.

Definition total (l : list Z) : Z := List.fold_right Z.add 0 l.

(** A message enqueues a chunk and does not flush. *)
Definition is_chunk (m : LiveServerMessage) : bool :=
  match inbound_audio m with
  | Some _ => negb (truthy (serverContent_get interrupted m))
  | None => false
  end.

Definition chunk_duration (m : LiveServerMessage) : Z :=
  match inbound_audio m with
  | Some audioBuffer => duration audioBuffer
  | None => 0
  end.

(** Arrival time and duration of each message of a stream. *)
Definition arrivals (l : list (Z * LiveServerMessage)) : list (Z * Z) :=
  List.map (fun tm => (fst tm, chunk_duration (snd tm))) l.

Definition durations (l : list (Z * LiveServerMessage)) : list Z :=
  List.map snd (arrivals l).

(** The schedule the clock rule produces from a clock value. *)
Fixpoint timeline (clock : Z) (arr : list (Z * Z)) : list (Z * Z) :=
  match arr with
  | [] => []
  | (t, d) :: r => let startAt := Z.max clock t in (startAt, d) :: timeline (startAt + d) r
  end.

Definition first_start (sched : list (Z * Z)) : Z :=
  match sched with
  | (s, _) :: _ => s
  | [] => 0
  end.

Definition all_succeed : Env := fun _ => true.

(** A session that has started and whose transport has opened. *)
Definition live : Component :=
  run onopen (run (startConversation all_succeed) initial).

Definition inline_audio (b : string) : Content :=
  {| parts := Some [{| inlineData := Some {| data := Some b |} |}] |}.

(** A message that carries audio only. *)
Definition audio_message (b : string) : LiveServerMessage :=
  {| serverContent :=
       Some {| outputTranscription := None; inputTranscription := None;
               turnComplete := None; modelTurn := Some (inline_audio b);
               interrupted := None |} |}.

(** A message that carries the interruption marker only. *)
Definition interruption_message : LiveServerMessage :=
  {| serverContent :=
       Some {| outputTranscription := None; inputTranscription := None;
               turnComplete := None; modelTurn := None; interrupted := Some true |} |}.

Definition turn_complete_message : LiveServerMessage :=
  {| serverContent :=
       Some {| outputTranscription := None; inputTranscription := None;
               turnComplete := Some true; modelTurn := None; interrupted := None |} |}.

Definition output_fragment (s : string) (audio : option Content) : LiveServerMessage :=
  {| serverContent :=
       Some {| outputTranscription := Some {| text := Some s |};
               inputTranscription := None; turnComplete := None;
               modelTurn := audio; interrupted := None |} |}.

Definition input_fragment (s : string) : LiveServerMessage :=
  {| serverContent :=
       Some {| outputTranscription := None;
               inputTranscription := Some {| text := Some s |};
               turnComplete := None; modelTurn := None; interrupted := None |} |}.


(** What a conversion that clamps would store. *)
Definition saturate16 (z : Z) : Z := Z.max (-32768) (Z.min 32767 z).

(** The sample -(1 + 2^-20), a value of single precision. *)
Definition just_below_minus_one : Q := (-(1048577 # 1048576))%Q.

(** A live session with one buffer of two frames scheduled. *)
Definition playing : Component := run (onmessage 0 (audio_message "AAAAAA==")) live.

(** Two chunks of two frames each. *)
Definition back_to_back : list (Z * LiveServerMessage) :=
  [(0, audio_message "AAAAAA=="); (1, audio_message "AAAAAA==")].

(** The second chunk arrives when the first has long finished. *)
Definition after_a_pause : list (Z * LiveServerMessage) :=
  [(0, audio_message "AAAAAA=="); (10, audio_message "AAAAAA==")].


Definition mic_denied : Env := fun s => negb (Step_eqb s MicStream).

(** A fragment of model speech whose audio is not base64. *)
Definition garbled : LiveServerMessage :=
  output_fragment "hi" (Some (inline_audio "!")).


(** A session with one finished turn and the start of a second. *)
Definition chatted : Component :=
  run_messages [(0, input_fragment "hi"); (1, output_fragment "hello" None);
                (2, turn_complete_message); (3, input_fragment "and")] live.

(** ** Vocabulary of the further properties *)

(** The active handles are distinct objects created by the component, and
    none of them plays beyond the clock. *)
Definition handles_ok (c : Component) : Prop :=
  NoDup (List.map node_id (sourcesRef c))
  /\ Forall (fun n => (node_id n < fresh c)%nat
                      /\ when n + duration (buffer n) <= nextStartTimeRef c)
       (sourcesRef c).

(** The effects of the playback scheduler. *)
Definition playback_effect (e : Effect) : bool :=
  match e with
  | SourceStart _ _ _ | SourceStop _ => true
  | _ => false
  end.

(** The text a message adds to a transcription buffer. *)
Definition fragment (f : LiveServerContent -> option Transcription)
  (message : LiveServerMessage) : string :=
  match serverContent_get f message with
  | Some t => match text t with Some x => x | None => "undefined" end
  | None => ""
  end.

(** The fragments of a stream of messages, in arrival order. *)
Definition fragments (f : LiveServerContent -> option Transcription)
  (l : list (Z * LiveServerMessage)) : string :=
  List.fold_right (fun tm acc => (fragment f (snd tm) ++ acc)%string) ""%string l.

Definition open_context (r : option AudioContext) : list nat :=
  match r with
  | Some ctx => if is_closed (state ctx) then [] else [ctx_id ctx]
  | None => []
  end.

Definition option_id (r : option nat) : list nat :=
  match r with Some id => [id] | None => [] end.

(** The resources the refs hold: the session, the microphone stream, and
    the contexts that are not closed. *)
Definition held (c : Component) : list nat :=
  option_id (sessionRef c) ++ option_id (streamRef c)
  ++ open_context (audioContextRef c) ++ open_context (outputAudioContextRef c).

(** The three ways a session is torn down. *)
Inductive Teardown : Type := ByStop | ByClose | ByError.

Definition teardown (how : Teardown) : M unit :=
  match how with
  | ByStop => stopConversation
  | ByClose => onclose
  | ByError => onerror
  end.

Fixpoint occurs (c : ascii) (s : string) : bool :=
  match s with
  | EmptyString => false
  | String d r => Ascii.eqb d c || occurs c r
  end.

(** The log is a sequence of pairs, a message of the user then one of the
    model. *)
Fixpoint alternates (l : list ChatMessage) : bool :=
  match l with
  | [] => true
  | {| role := RoleUser |} :: {| role := RoleModel |} :: r => alternates r
  | _ => false
  end.

Definition exchange (turn : string * (Exn + string)) : list ChatMessage :=
  if blank (fst turn) then []
  else [{| role := RoleUser; message_text := fst turn |};
        {| role := RoleModel;
           message_text := match snd turn with
                           | inr text => text
                           | inl _ => "Sorry, I encountered an error."
                           end |}].

(** * Properties *)

(** [lia] is to reason about division and remainder by constants. *)
Ltac Zify.zify_post_hook ::= Z.to_euclidean_division_equations.

(** ** Base64 *)

Section Base64Facts.

Import Base64.
Local Open Scope N_scope.

Lemma list_ind3 (A : Type) (P : list A -> Prop) :
  P [] -> (forall a, P [a]) -> (forall a b, P [a; b]) ->
  (forall a b c r, P r -> P (a :: b :: c :: r)) ->
  forall l, P l.
Proof.
  intros H0 H1 H2 H3.
  enough (H : forall l, P l /\ (forall a, P (a :: l)) /\ (forall a b, P (a :: b :: l))).
  { intro l. apply H. }
  induction l as [|x l [IH0 [IH1 IH2]]].
  - repeat split; auto.
  - repeat split; auto.
Qed.

Lemma below_64 (P : N -> bool) :
  List.forallb P (List.map N.of_nat (List.seq 0 64)) = true ->
  forall n, n < 64 -> P n = true.
Proof.
  intros H n Hn.
  rewrite List.forallb_forall in H. apply H.
  apply List.in_map_iff. exists (N.to_nat n). split.
  - apply N2Nat.id.
  - apply List.in_seq. lia.
Qed.

Lemma b64val_b64char n : n < 64 -> b64val (b64char n) = Some n.
Proof.
  intro Hn.
  apply (below_64 (fun n => match b64val (b64char n) with
                            | Some m => N.eqb m n
                            | None => false
                            end)) in Hn; [|vm_compute; reflexivity].
  destruct (b64val (b64char n)); [|discriminate].
  apply N.eqb_eq in Hn. now subst.
Qed.

Lemma b64char_not_whitespace n : n < 64 -> is_ascii_whitespace (b64char n) = false.
Proof.
  intro Hn.
  apply (below_64 (fun n => negb (is_ascii_whitespace (b64char n)))) in Hn;
    [|vm_compute; reflexivity].
  now apply negb_true_iff in Hn.
Qed.

Lemma b64char_not_pad n : n < 64 -> Ascii.eqb (b64char n) pad = false.
Proof.
  intro Hn.
  apply (below_64 (fun n => negb (Ascii.eqb (b64char n) pad))) in Hn;
    [|vm_compute; reflexivity].
  now apply negb_true_iff in Hn.
Qed.

Lemma sextets_of_octets_bound l :
  Forall octet l -> Forall sextet (sextets_of_octets l).
Proof.
  unfold octet, sextet.
  induction l as [|a|a b|a b c r IH] using list_ind3; intro H; cbn [sextets_of_octets].
  - constructor.
  - inversion_clear H. repeat apply Forall_cons; try apply Forall_nil; lia.
  - inversion_clear H as [|? ? Ha H']. inversion_clear H'.
    repeat apply Forall_cons; try apply Forall_nil; lia.
  - inversion_clear H as [|? ? Ha H']. inversion_clear H' as [|? ? Hb H''].
    inversion_clear H'' as [|? ? Hc Hr].
    repeat (apply Forall_cons; [lia|]). auto.
Qed.

Lemma octets_of_sextets_of_octets l :
  Forall octet l -> octets_of_sextets (sextets_of_octets l) = l.
Proof.
  unfold octet.
  induction l as [|a|a b|a b c r IH] using list_ind3; intro H;
    cbn [sextets_of_octets octets_of_sextets].
  - reflexivity.
  - inversion_clear H. f_equal. lia.
  - inversion_clear H as [|? ? Ha H']. inversion_clear H'.
    repeat (f_equal; try lia).
  - inversion_clear H as [|? ? Ha H']. inversion_clear H' as [|? ? Hb H''].
    inversion_clear H'' as [|? ? Hc Hr].
    rewrite (IH Hr). repeat (f_equal; try lia).
Qed.

Lemma sextets_b64char l :
  Forall sextet l -> sextets (List.map b64char l) = Some l.
Proof.
  induction 1 as [|x l Hx _ IH]; cbn [List.map sextets].
  - reflexivity.
  - now rewrite (b64val_b64char Hx), IH.
Qed.

Lemma filter_b64char l :
  Forall sextet l ->
  List.filter (fun c => negb (is_ascii_whitespace c)) (List.map b64char l)
  = List.map b64char l.
Proof.
  induction 1 as [|x l Hx _ IH]; cbn [List.map List.filter].
  - reflexivity.
  - now rewrite (b64char_not_whitespace Hx), IH.
Qed.

Lemma filter_padding n :
  List.filter (fun c => negb (is_ascii_whitespace c)) (padding n) = padding n.
Proof. unfold padding. now destruct (Nat.modulo n 3) as [|[|[|?]]]. Qed.

(** The last character of an unpadded encoding is not the padding
    character. *)
Lemma drop_pad_rev_b64char l :
  Forall sextet l -> drop_pad (rev (List.map b64char l)) = None.
Proof.
  intro H.
  destruct (rev (List.map b64char l)) as [|c r] eqn:E; [reflexivity|].
  assert (Hin : In c (List.map b64char l)).
  { apply List.in_rev. rewrite E. now left. }
  apply List.in_map_iff in Hin. destruct Hin as [x [<- Hx]].
  rewrite Forall_forall in H.
  cbn [drop_pad]. now rewrite (b64char_not_pad (H _ Hx)).
Qed.

Lemma strip_padding_encoding l n :
  Forall sextet l ->
  strip_padding (List.map b64char l ++ padding n) = List.map b64char l.
Proof.
  intro H. unfold strip_padding, padding.
  destruct (Nat.modulo n 3) as [|[|[|?]]]; rewrite List.rev_app_distr; cbn [rev List.app].
  - rewrite drop_pad_rev_b64char by assumption. apply List.app_nil_r.
  - cbn [drop_pad]. change (Ascii.eqb pad pad) with true. cbv iota.
    apply List.rev_involutive.
  - cbn [drop_pad]. change (Ascii.eqb pad pad) with true. cbv iota.
    rewrite drop_pad_rev_b64char by assumption. apply List.rev_involutive.
  - rewrite drop_pad_rev_b64char by assumption. apply List.app_nil_r.
Qed.

(** Octets in groups of three, sextets in groups of four. *)
Lemma encoding_length l :
  exists k r : nat,
    List.length l = (3 * k + r)%nat /\ (r < 3)%nat /\
    List.length (sextets_of_octets l)
    = (4 * k + match r with O => 0 | 1 => 2 | _ => 3 end)%nat.
Proof.
  induction l as [|a|a b|a b c t IH] using list_ind3.
  - exists 0%nat, 0%nat. cbn. lia.
  - exists 0%nat, 1%nat. cbn. lia.
  - exists 0%nat, 2%nat. cbn. lia.
  - destruct IH as [k [r [H1 [H2 H3]]]].
    exists (S k), r. cbn [sextets_of_octets List.length]. lia.
Qed.

Lemma padding_of_rest k r :
  (r < 3)%nat ->
  padding (3 * k + r) = match r with O => [] | 1%nat => [pad; pad] | _ => [pad] end.
Proof.
  intro Hr. unfold padding.
  replace (Nat.modulo (3 * k + r) 3) with r.
  - destruct r as [|[|[|?]]]; [reflexivity..|lia].
  - rewrite Nat.add_comm, Nat.mul_comm, Nat.Div0.mod_add.
    symmetry. now apply Nat.mod_small.
Qed.

Lemma mod4_of_groups k r : (r < 4)%nat -> Nat.modulo (4 * k + r) 4 = r.
Proof.
  intro Hr. rewrite Nat.add_comm, Nat.mul_comm, Nat.Div0.mod_add.
  now apply Nat.mod_small.
Qed.

(** [atob] undoes [btoa] on every binary string. *)
Lemma atob_btoa binary : atob (btoa binary) = Some binary.
Proof.
  unfold atob, btoa.
  set (octets := List.map N_of_ascii (list_ascii_of_string binary)).
  assert (Hoct : Forall octet octets).
  { apply Forall_forall. intros x Hx. apply List.in_map_iff in Hx.
    destruct Hx as [c [<- _]]. apply N_ascii_bounded. }
  pose proof (sextets_of_octets_bound Hoct) as Hsex.
  rewrite list_ascii_of_string_of_list_ascii.
  rewrite List.filter_app, filter_b64char, filter_padding by assumption.
  destruct (encoding_length octets) as [k [r [Hlen [Hr Hslen]]]].
  assert (Hfull : Nat.modulo (List.length (List.map b64char (sextets_of_octets octets)
                                             ++ padding (List.length octets))) 4 = 0%nat).
  { rewrite List.length_app, List.length_map, Hslen, Hlen, padding_of_rest by assumption.
    destruct r as [|[|[|?]]]; cbn [List.length]; try lia.
    - replace (4 * k + 0 + 0)%nat with (4 * k + 0)%nat by lia.
      apply mod4_of_groups. lia.
    - replace (4 * k + 2 + 2)%nat with (4 * S k + 0)%nat by lia.
      apply mod4_of_groups. lia.
    - replace (4 * k + 3 + 1)%nat with (4 * S k + 0)%nat by lia.
      apply mod4_of_groups. lia. }
  rewrite Hfull. cbn [Nat.eqb].
  rewrite strip_padding_encoding by assumption.
  rewrite List.length_map, Hslen.
  match goal with
  | |- context [Nat.eqb ?a 1] => replace (Nat.eqb a 1) with false
  end.
  2:{ symmetry. apply Nat.eqb_neq.
      destruct r as [|[|?]]; rewrite mod4_of_groups by lia; lia. }
  rewrite sextets_b64char by assumption.
  rewrite octets_of_sextets_of_octets by assumption.
  unfold octets. rewrite List.map_map.
  rewrite (List.map_ext _ (fun c => c)) by (intro c; apply ascii_N_embedding).
  rewrite List.map_id. now rewrite string_of_list_ascii_of_string.
Qed.

End Base64Facts.

Lemma decode_encode bytes : decode (encode bytes) = Some bytes.
Proof.
  unfold decode, encode. rewrite atob_btoa.
  now rewrite list_byte_of_string_of_list_byte.
Qed.

Example encode_three_bytes : encode ["M"%byte; "a"%byte; "n"%byte] = "TWFu"%string.
Proof. reflexivity. Qed.

Example encode_padded : encode ["255"%byte; "000"%byte; "128"%byte; "001"%byte]
                        = "/wCAAQ=="%string.
Proof. reflexivity. Qed.

Example decode_skips_whitespace : decode " T Q = = " = Some ["M"%byte].
Proof. reflexivity. Qed.

Example decode_rejects_bad_character : decode "T!==" = None.
Proof. reflexivity. Qed.

Example decode_rejects_bad_length : decode "A" = None /\ decode "TQ=" = None.
Proof. split; reflexivity. Qed.

(** ** 16-bit PCM *)

Section PcmFacts.

Local Open Scope Z_scope.

Lemma ToInt16_range v : -32768 <= ToInt16 v <= 32767.
Proof.
  unfold ToInt16. cbv zeta.
  destruct (Z.leb_spec 32768 (truncate v mod 65536)); lia.
Qed.

Lemma ToInt16_congruent v : (ToInt16 v - truncate v) mod 65536 = 0.
Proof.
  unfold ToInt16. cbv zeta.
  destruct (Z.leb_spec 32768 (truncate v mod 65536)); lia.
Qed.

Lemma scaled_eq x : scaled x = (Qnum x * 32768) ÷ Zpos (Qden x).
Proof. unfold scaled, truncate. cbn [Qmult Qnum Qden]. now rewrite Pos.mul_1_r. Qed.

Lemma scaled_remainder x :
  let a := Qnum x * 32768 in
  let r := a - scaled x * Zpos (Qden x) in
  (0 <= a -> 0 <= r < Zpos (Qden x)) /\ (a <= 0 -> - Zpos (Qden x) < r <= 0).
Proof.
  rewrite scaled_eq.
  set (a := Qnum x * 32768). set (D := Zpos (Qden x)). cbv zeta.
  assert (HD : 0 < D) by (unfold D; lia).
  pose proof (Z.quot_rem' a D) as E.
  split; intro Ha.
  - pose proof (Z.rem_bound_pos a D Ha HD). lia.
  - pose proof (Z.rem_bound_neg_pos a D). lia.
Qed.

Ltac scaled_cases x n d t H :=
  pose proof (scaled_remainder x) as H;
  destruct x as [n d]; cbn [Qnum Qden] in H; cbv zeta in H;
  set (t := scaled (n # d)) in *;
  assert (0 < Zpos d) by lia;
  destruct H as [Hpos Hneg];
  destruct (Z.le_ge_cases 0 (n * 32768)) as [Ha|Ha];
  [specialize (Hpos Ha); clear Hneg | specialize (Hneg Ha); clear Hpos].

Lemma scaled_close x : (-1 < inject_Z (scaled x) - 32768 * x < 1)%Q.
Proof.
  scaled_cases x n d t H;
    unfold Qlt, Qminus, Qplus, Qopp, Qmult, inject_Z; cbn [Qnum Qden]; lia.
Qed.

Lemma floatToPcm16_scaled x :
  floatToPcm16 x
  = if 32768 <=? scaled x mod 65536 then scaled x mod 65536 - 65536
    else scaled x mod 65536.
Proof. reflexivity. Qed.

Lemma scaled_in_range x :
  (-(32769 # 32768) < x)%Q -> (x < 1)%Q -> -32768 <= scaled x <= 32767.
Proof.
  intros Hlo Hhi.
  scaled_cases x n d t H;
    unfold Qlt in Hlo, Hhi; cbn [Qnum Qden Qopp] in Hlo, Hhi; nia.
Qed.

Lemma scaled_above x : (1 <= x)%Q -> 32768 <= scaled x.
Proof.
  intro Hx.
  scaled_cases x n d t H; unfold Qle in Hx; cbn [Qnum Qden] in Hx; nia.
Qed.

Lemma scaled_below x : (x <= -(32769 # 32768))%Q -> scaled x <= -32769.
Proof.
  intro Hx.
  scaled_cases x n d t H; unfold Qle in Hx; cbn [Qnum Qden Qopp] in Hx; nia.
Qed.

Lemma floatToPcm16_in_range x :
  -32768 <= scaled x <= 32767 -> floatToPcm16 x = scaled x.
Proof.
  intro H. rewrite floatToPcm16_scaled.
  destruct (Z.leb_spec 32768 (scaled x mod 65536)); lia.
Qed.

Lemma pcm16_round_trip x :
  (-1 <= x)%Q -> (x < 1)%Q ->
  (Qabs (pcm16ToFloat (floatToPcm16 x) - x) < 1 # 32768)%Q.
Proof.
  intros Hlo Hhi.
  rewrite floatToPcm16_in_range by (apply scaled_in_range; [lra|assumption]).
  pose proof (scaled_close x) as [H1 H2].
  set (y := inject_Z (scaled x)) in *.
  unfold pcm16ToFloat, Qdiv. fold y.
  setoid_replace (/ 32768)%Q with (1 # 32768)%Q by reflexivity.
  apply Qabs_Qlt_condition. split; lra.
Qed.

Example floatToPcm16_samples :
  List.map floatToPcm16 [1 # 2; -1; 1; -(3 # 2); 2; -(1 # 65536)]%Q
  = [16384; -32768; -32768; 16384; 0; 0].
Proof. reflexivity. Qed.

Example decodeAudioData_rejects :
  decodeAudioData ["001"%byte] 24000 1 = inl RangeError
  /\ decodeAudioData [] 24000 1 = inl NotSupportedError.
Proof. split; reflexivity. Qed.

(** *** From a capture frame to a playback buffer *)

Lemma Z_of_byte_of_Z z : Z_of_byte (byte_of_Z z) = z mod 256.
Proof.
  unfold Z_of_byte, byte_of_Z.
  destruct (Byte.of_N (Z.to_N (z mod 256))) as [b|] eqn:E.
  - apply Byte.to_of_N in E. rewrite E. lia.
  - apply Byte.of_N_None_iff in E. lia.
Qed.

Lemma int16_of_bytes_of_sample s :
  -32768 <= s <= 32767 ->
  int16_of_bytes (byte_of_Z ((s mod 65536) mod 256)) (byte_of_Z ((s mod 65536) / 256)) = s.
Proof.
  intro Hs. unfold int16_of_bytes. rewrite !Z_of_byte_of_Z. cbv zeta.
  destruct (Z.leb_spec 32768 ((s mod 65536) mod 256 mod 256
                              + 256 * ((s mod 65536) / 256 mod 256))); lia.
Qed.

Lemma Int16Array_of_Uint8Array int16 :
  Forall (fun s => -32768 <= s <= 32767) int16 ->
  Int16Array_of_buffer (Uint8Array_of_Int16Array int16) = inr int16.
Proof.
  induction 1 as [|s l Hs _ IH]; [reflexivity|].
  unfold Uint8Array_of_Int16Array in *. cbn [List.flat_map List.app].
  cbn [Int16Array_of_buffer]. rewrite IH.
  now rewrite int16_of_bytes_of_sample.
Qed.

Lemma nth_seq_self (A : Type) (d : A) (l : list A) :
  List.map (fun i => List.nth i l d) (List.seq 0 (List.length l)) = l.
Proof.
  induction l as [|a l IH]; cbn [List.length List.seq List.map List.nth]; [reflexivity|].
  f_equal. rewrite <- List.seq_shift, List.map_map. exact IH.
Qed.

(** A non-empty capture frame, encoded as [onaudioprocess] sends it and
    decoded as [onmessage] decodes audio, gives a one-channel buffer whose
    samples are the frame's, each converted to 16 bits and back. *)
Lemma capture_frame_decodes inputData rate :
  inputData <> [] ->
  exists bytes,
    decode (pcmBlob_data inputData) = Some bytes
    /\ decodeAudioData bytes rate 1
       = inr {| numberOfChannels := 1;
                length := List.length inputData;
                sampleRate := rate;
                channelData :=
                  [List.map (fun x => pcm16ToFloat (floatToPcm16 x)) inputData] |}.
Proof.
  intro Hne. unfold pcmBlob_data. rewrite decode_encode.
  eexists. split; [reflexivity|].
  unfold decodeAudioData. rewrite Int16Array_of_Uint8Array.
  2:{ apply Forall_forall. intros s Hs. apply List.in_map_iff in Hs.
      destruct Hs as [x [<- _]]. apply ToInt16_range. }
  rewrite List.length_map, Nat.div_1_r.
  replace (Nat.eqb (List.length inputData) 0) with false
    by (destruct inputData; [contradiction|reflexivity]).
  cbn [Nat.eqb orb List.seq List.map]. do 2 f_equal.
  rewrite (List.map_ext
             (fun i => pcm16ToFloat
                         (List.nth (i * 1 + 0) (List.map floatToPcm16 inputData) 0))
             (fun i => pcm16ToFloat (List.nth i (List.map floatToPcm16 inputData) 0)))
    by (intro i; now rewrite Nat.mul_1_r, Nat.add_0_r).
  rewrite <- (List.map_map (fun i => List.nth i (List.map floatToPcm16 inputData) 0)
                           pcm16ToFloat).
  rewrite <- (List.length_map floatToPcm16 inputData).
  rewrite nth_seq_self. now rewrite List.map_map.
Qed.

End PcmFacts.

(** ** Teardown *)

Section Teardown.

Lemma forEach_source_stop l c :
  forEach source_stop l c = (inr tt, set_trace (trace c ++ stop_sources l) c).
Proof.
  revert c. induction l as [|n l IH]; intro c.
  - destruct c. cbn. unfold ret, set_trace. cbn. now rewrite List.app_nil_r.
  - cbn [forEach stop_sources List.map]. unfold bind at 1.
    unfold source_stop, effect, update. rewrite IH.
    destruct c. unfold set_trace. cbn. now rewrite <- List.app_assoc.
Qed.

Lemma flush_spec c :
  flush c
  = (inr tt,
     set_nextStartTimeRef 0
       (set_sourcesRef [] (set_trace (trace c ++ stop_sources (sourcesRef c)) c))).
Proof.
  unfold flush, bind, read. rewrite forEach_source_stop. reflexivity.
Qed.

Lemma stopConversation_spec c :
  stopConversation c
  = (inr tt,
     {| isConnecting := false; isLive := false;
        transcriptions := transcriptions c;
        sessionRef := None;
        audioContextRef := audioContextRef c;
        outputAudioContextRef := outputAudioContextRef c;
        processorRef := None; streamRef := None; mediaStreamSourceRef := None;
        nextStartTimeRef := 0; sourcesRef := [];
        currentInputTranscription := currentInputTranscription c;
        currentOutputTranscription := currentOutputTranscription c;
        fresh := fresh c;
        trace := trace c ++ stop_effects c ++ stop_sources (sourcesRef c) |}).
Proof.
  destruct c as [? ? ? se a o p st m ? srcs ? ? ? tr].
  unfold stopConversation.
  destruct se, p, m, st, a as [[? ? []]|], o as [[? ? []]|];
    cbv -[flush List.app stop_sources];
    rewrite flush_spec;
    cbv -[List.app stop_sources];
    cbn [List.app]; repeat rewrite <- List.app_assoc; cbn [List.app];
    reflexivity.
Qed.

End Teardown.

(** ** Startup *)

Section Startup.

Lemma skipn_length_app (A : Type) (l r : list A) :
  List.skipn (List.length l) (l ++ r) = r.
Proof. induction l; cbn; auto. Qed.

Lemma skipn_length_self (A : Type) (l : list A) : List.skipn (List.length l) l = [].
Proof. induction l; cbn; auto. Qed.

Lemma close_asked_app id a b :
  close_asked id (a ++ b) = (close_asked id a || close_asked id b)%bool.
Proof. unfold close_asked. apply List.existsb_app. Qed.

Lemma close_effect_closed_if_asked tr r :
  incl (close_effect r) tr -> close_effect (closed_if_asked tr r) = [].
Proof.
  destruct r as [[id rate st]|]; [|reflexivity].
  unfold close_effect, closed_if_asked. cbn [state ctx_id ctx_sampleRate].
  destruct (is_closed st) eqn:Es.
  - intros _. destruct (close_asked id tr); cbn [state]; [reflexivity|now rewrite Es].
  - intro H.
    assert (Ha : close_asked id tr = true).
    { unfold close_asked. apply List.existsb_exists.
      exists (ContextClose id). split; [apply H; now left|apply Nat.eqb_refl]. }
    now rewrite Ha.
Qed.

Lemma contexts_closed_spec c :
  contexts_closed c
  = (inr tt,
     set_audioContextRef (closed_if_asked (trace c) (audioContextRef c))
       (set_outputAudioContextRef
          (closed_if_asked (trace c) (outputAudioContextRef c)) c)).
Proof. reflexivity. Qed.

Lemma stop_effects_close c :
  incl (close_effect (audioContextRef c))
    (trace c ++ stop_effects c ++ stop_sources (sourcesRef c))
  /\ incl (close_effect (outputAudioContextRef c))
       (trace c ++ stop_effects c ++ stop_sources (sourcesRef c)).
Proof.
  unfold stop_effects. split; intros e He; rewrite !List.in_app_iff; tauto.
Qed.

(** Once the platform has closed the contexts, a stopped component is at
    rest. *)
Lemma quiescent_stop c :
  quiescent (run contexts_closed (run stopConversation c)) = true.
Proof.
  unfold run. rewrite stopConversation_spec. cbn [snd].
  rewrite contexts_closed_spec. cbn [snd]. unfold quiescent.
  destruct (stop_effects_close c) as [Ha Ho].
  cbn. now rewrite (close_effect_closed_if_asked _ Ha),
    (close_effect_closed_if_asked _ Ho).
Qed.



(** A stop of a component in which the session, node and stream refs are
    empty and no source is scheduled. *)
Lemma stop_stopped c0 :
  sessionRef c0 = None -> processorRef c0 = None ->
  mediaStreamSourceRef c0 = None -> streamRef c0 = None ->
  sourcesRef c0 = [] -> nextStartTimeRef c0 = 0 ->
  isLive c0 = false -> isConnecting c0 = false ->
  stopConversation c0
  = (inr tt,
     set_trace (trace c0 ++ close_effect (audioContextRef c0)
                  ++ close_effect (outputAudioContextRef c0)) c0).
Proof.
  intros E1 E2 E3 E4 E5 E6 E7 E8. rewrite stopConversation_spec.
  unfold stop_effects. rewrite E1, E2, E3, E4, E5.
  destruct c0 as [co li ts se a o p st m clock srcs ci cu fr tr0].
  cbn in *. subst. cbn. now rewrite List.app_nil_r.
Qed.

(** A stop of a component that has just been stopped. *)
Lemma stop_again c :
  let c1 := run stopConversation c in
  stopConversation c1
  = (inr tt,
     set_trace (trace c1 ++ close_effect (audioContextRef c)
                  ++ close_effect (outputAudioContextRef c)) c1).
Proof.
  cbv zeta. rewrite stop_stopped;
    unfold run; rewrite stopConversation_spec; reflexivity.
Qed.

(** A stop of a stopped component whose contexts the platform has closed. *)
Lemma stop_when_closed c :
  let c3 := run contexts_closed (run stopConversation c) in
  stopConversation c3 = (inr tt, c3).
Proof.
  cbv zeta. destruct (stop_effects_close c) as [Ha Ho].
  rewrite stop_stopped;
    try (unfold run; rewrite stopConversation_spec; cbn [snd];
         rewrite contexts_closed_spec; reflexivity).
  f_equal.
  set (c3 := run contexts_closed (run stopConversation c)).
  assert (Ea : close_effect (audioContextRef c3) = []).
  { unfold c3, run. rewrite stopConversation_spec. cbn [snd].
    rewrite contexts_closed_spec. cbn [snd].
    cbn -[close_effect closed_if_asked stop_effects stop_sources].
    apply (close_effect_closed_if_asked _ Ha). }
  assert (Eo : close_effect (outputAudioContextRef c3) = []).
  { unfold c3, run. rewrite stopConversation_spec. cbn [snd].
    rewrite contexts_closed_spec. cbn [snd].
    cbn -[close_effect closed_if_asked stop_effects stop_sources].
    apply (close_effect_closed_if_asked _ Ho). }
  rewrite Ea, Eo. cbn [List.app]. rewrite List.app_nil_r. now destruct c3.
Qed.



End Startup.

(** ** Inbound messages *)

Section Messages.

Lemma accumulate_transcription_spec m c :
  accumulate_transcription m c
  = (inr tt,
     set_currentInputTranscription
       (heard inputTranscription m (currentInputTranscription c))
       (set_currentOutputTranscription
          (heard outputTranscription m (currentOutputTranscription c)) c)).
Proof.
  unfold accumulate_transcription, heard.
  destruct c, (serverContent_get outputTranscription m),
    (serverContent_get inputTranscription m); reflexivity.
Qed.

Lemma complete_turn_spec m c :
  complete_turn m c
  = (inr tt,
     if truthy (serverContent_get turnComplete m) then
       set_currentOutputTranscription ""
         (set_currentInputTranscription ""
            (set_transcriptions
               (transcriptions c ++ [{| user := currentInputTranscription c;
                                        model := currentOutputTranscription c |}]) c))
     else c).
Proof.
  unfold complete_turn.
  destruct c, (truthy (serverContent_get turnComplete m)); reflexivity.
Qed.

Lemma schedule_spec t b c :
  schedule t b c
  = let c1 := set_nextStartTimeRef (Z.max (nextStartTimeRef c) t) c in
    match decode b with
    | None => (inl InvalidCharacterError, c1)
    | Some bytes =>
        match decodeAudioData bytes 24000 1 with
        | inl e => (inl e, c1)
        | inr audioBuffer =>
            let startAt := Z.max (nextStartTimeRef c) t in
            (inr tt,
             set_sourcesRef
               (Set_add {| node_id := fresh c; buffer := audioBuffer; when := startAt |}
                  (sourcesRef c))
               (set_nextStartTimeRef (startAt + duration audioBuffer)
                  (set_trace (trace c ++ [SourceStart (fresh c) startAt
                                            (duration audioBuffer)])
                     (set_fresh (S (fresh c)) c))))
        end
    end.
Proof.
  unfold schedule. destruct c. unfold bind at 1. unfold update at 1.
  cbv zeta.
  destruct (decode b) as [bytes|]; [|reflexivity].
  unfold bind at 1. unfold lift at 1, ret at 1.
  unfold bind at 1.
  destruct (decodeAudioData bytes 24000 1) as [e|audioBuffer]; reflexivity.
Qed.

Lemma interrupt_spec m c :
  interrupt m c
  = if truthy (serverContent_get interrupted m) then flush c else (inr tt, c).
Proof. unfold interrupt, when_. now destruct (truthy _). Qed.

Lemma play_audio_spec t m c :
  play_audio t m c
  = match base64Audio_of m with
    | inl e => (inl e, c)
    | inr (Some b) =>
        match outputAudioContextRef c with
        | Some _ => if nonempty b then schedule t b c else (inr tt, c)
        | None => (inr tt, c)
        end
    | inr None => (inr tt, c)
    end.
Proof.
  unfold play_audio, bind, lift, read, when_, ret, throw.
  destruct (base64Audio_of m) as [e|[b|]]; try reflexivity.
  destruct (outputAudioContextRef c); try reflexivity.
  destruct (nonempty b); reflexivity.
Qed.

Lemma onmessage_spec t m c :
  onmessage t m c
  = let c1 := run (accumulate_transcription m) c in
    let c2 := run (complete_turn m) c1 in
    match play_audio t m c2 with
    | (inr _, c3) => interrupt m c3
    | (inl e, c3) => (inl e, c3)
    end.
Proof.
  unfold onmessage, run, bind.
  rewrite accumulate_transcription_spec. cbn [snd].
  rewrite complete_turn_spec. cbn [snd].
  destruct (play_audio t m _) as [[e|[]] c3]; reflexivity.
Qed.

(** Frames: what each block leaves alone. *)

Lemma accumulate_transcription_frame m c :
  let c' := run (accumulate_transcription m) c in
  lifecycle c' = lifecycle c /\ playback c' = playback c
  /\ transcriptions c' = transcriptions c.
Proof.
  unfold run. rewrite accumulate_transcription_spec. now destruct c.
Qed.

Lemma complete_turn_frame m c :
  let c' := run (complete_turn m) c in
  lifecycle c' = lifecycle c /\ playback c' = playback c.
Proof.
  unfold run. rewrite complete_turn_spec.
  destruct c, (truthy _); now cbn.
Qed.

Lemma schedule_frame t b c :
  let c' := snd (schedule t b c) in
  lifecycle c' = lifecycle c /\ transcript c' = transcript c.
Proof.
  rewrite schedule_spec. cbv zeta.
  destruct (decode b) as [bytes|]; [|now destruct c].
  destruct (decodeAudioData bytes 24000 1); now destruct c.
Qed.

Lemma play_audio_frame t m c :
  let c' := snd (play_audio t m c) in
  lifecycle c' = lifecycle c /\ transcript c' = transcript c.
Proof.
  rewrite play_audio_spec.
  destruct (base64Audio_of m) as [e|[b|]]; try (now split).
  destruct (outputAudioContextRef c); try (now split).
  destruct (nonempty b); try (now split).
  apply schedule_frame.
Qed.

Lemma flush_frame c :
  let c' := snd (flush c) in
  lifecycle c' = lifecycle c /\ transcript c' = transcript c.
Proof. rewrite flush_spec. now destruct c. Qed.

Lemma interrupt_frame m c :
  let c' := snd (interrupt m c) in
  lifecycle c' = lifecycle c /\ transcript c' = transcript c.
Proof.
  rewrite interrupt_spec. destruct (truthy _); [apply flush_frame|now split].
Qed.

(** No message alters the lifecycle flags or the capture and transport
    refs, whether its handler returns or throws. *)
Lemma onmessage_lifecycle t m c :
  lifecycle (run (onmessage t m) c) = lifecycle c.
Proof.
  unfold run at 1. rewrite onmessage_spec. cbv zeta.
  pose proof (accumulate_transcription_frame m c) as [H1 _].
  pose proof (complete_turn_frame m (run (accumulate_transcription m) c)) as [H2 _].
  pose proof (play_audio_frame t m
                (run (complete_turn m) (run (accumulate_transcription m) c))) as [H3 _].
  cbv zeta in H1, H2, H3.
  destruct (play_audio t m _) as [[e|[]] c3]; cbn [snd] in *.
  - congruence.
  - pose proof (interrupt_frame m c3) as [H4 _]. cbv zeta in H4. congruence.
Qed.

Lemma session_state_lifecycle c c' :
  lifecycle c' = lifecycle c -> session_state c' = session_state c.
Proof.
  unfold lifecycle, session_state. intro H. injection H as H1 H2.
  intros. now rewrite H1, H2.
Qed.

End Messages.

(** ** Playback *)

Section Playback.

Lemma play_audio_enqueue t m c audioBuffer ctx :
  inbound_audio m = Some audioBuffer ->
  outputAudioContextRef c = Some ctx ->
  play_audio t m c = (inr tt, enqueued t audioBuffer c).
Proof.
  unfold inbound_audio. intros Hm Hc.
  rewrite play_audio_spec, Hc.
  destruct (base64Audio_of m) as [e|[b|]]; try discriminate Hm.
  destruct (nonempty b); [|discriminate Hm].
  rewrite schedule_spec. cbv zeta.
  destruct (decode b) as [bytes|]; [|discriminate Hm].
  destruct (decodeAudioData bytes 24000 1); [discriminate Hm|].
  now injection Hm as ->.
Qed.

Lemma play_audio_decode_error t m c b ctx :
  base64Audio_of m = inr (Some b) -> nonempty b = true -> decode b = None ->
  outputAudioContextRef c = Some ctx ->
  play_audio t m c
  = (inl InvalidCharacterError,
     set_nextStartTimeRef (Z.max (nextStartTimeRef c) t) c).
Proof.
  intros Hm Hb Hd Hc.
  rewrite play_audio_spec, Hm, Hc, Hb, schedule_spec, Hd. reflexivity.
Qed.



End Playback.

(** ** The playback schedule *)

Section Timeline.

Lemma timeline_durations k arr : List.map snd (timeline k arr) = List.map snd arr.
Proof.
  revert k. induction arr as [|[t d] r IH]; intro k; cbn; [reflexivity|].
  now rewrite IH.
Qed.

Ltac unroll := cbn [timeline List.nth_error List.firstn List.map total
                      List.fold_right snd fst] in *.

Lemma timeline_lower k arr i s d :
  List.nth_error (timeline k arr) i = Some (s, d) ->
  k + total (List.firstn i (List.map snd arr)) <= s.
Proof.
  revert k i. induction arr as [|[t1 d1] r IH]; intros k i H.
  - destruct i; discriminate H.
  - destruct i as [|i]; unroll.
    + injection H as <- <-. lia.
    + apply IH in H. fold (total (List.firstn i (List.map snd r))). lia.
Qed.

Lemma timeline_exact k arr :
  (forall j t d, List.nth_error arr j = Some (t, d) ->
                 t <= k + total (List.firstn j (List.map snd arr))) ->
  forall i s d, List.nth_error (timeline k arr) i = Some (s, d) ->
                s = k + total (List.firstn i (List.map snd arr)).
Proof.
  revert k. induction arr as [|[t1 d1] r IH]; intros k Harr i s d H.
  - destruct i; discriminate H.
  - pose proof (Harr 0%nat t1 d1 eq_refl) as H0.
    destruct i as [|i]; unroll.
    + injection H as <- <-. lia.
    + apply IH in H.
      * fold (total (List.firstn i (List.map snd r))). lia.
      * intros j t d' Hj. pose proof (Harr (S j) t d' Hj) as Hs. unroll.
        fold (total (List.firstn j (List.map snd r))) in Hs. lia.
Qed.

Lemma total_nonneg l : Forall (fun d => 0 <= d) l -> 0 <= total l.
Proof.
  induction 1 as [|x l Hx _ IH]; unroll; [lia|]. fold (total l). lia.
Qed.

Lemma timeline_no_overlap k arr i j si di sj dj :
  Forall (fun d => 0 <= d) (List.map snd arr) ->
  (i < j)%nat ->
  List.nth_error (timeline k arr) i = Some (si, di) ->
  List.nth_error (timeline k arr) j = Some (sj, dj) ->
  si + di <= sj.
Proof.
  revert k i j. induction arr as [|[t1 d1] r IH]; intros k i j Hd Hij Hi Hj.
  - destruct i; discriminate Hi.
  - unroll. inversion_clear Hd as [|? ? Hd1 Hdr].
    destruct j as [|j]; [lia|]. unroll.
    destruct i as [|i]; unroll.
    + injection Hi as <- <-.
      apply timeline_lower in Hj.
      assert (0 <= total (List.firstn j (List.map snd r))).
      { apply total_nonneg. clear -Hdr. revert j.
        induction Hdr; intros [|j]; cbn [List.firstn]; auto. }
      lia.
    + apply (IH (Z.max k t1 + d1) i j); auto. lia.
Qed.

(** The same bounds counted from the first start. *)

Lemma timeline_lower_origin k arr i s d :
  List.nth_error (timeline k arr) i = Some (s, d) ->
  first_start (timeline k arr) + total (List.firstn i (List.map snd arr)) <= s.
Proof.
  destruct arr as [|[t1 d1] r]; intro H; [destruct i; discriminate H|].
  unroll. cbn [first_start].
  destruct i as [|i]; unroll.
  - injection H as <- <-. lia.
  - apply timeline_lower in H.
    fold (total (List.firstn i (List.map snd r))). lia.
Qed.

Lemma timeline_exact_origin k arr :
  (forall j t d, (0 < j)%nat -> List.nth_error arr j = Some (t, d) ->
                 t <= first_start (timeline k arr)
                      + total (List.firstn j (List.map snd arr))) ->
  forall i s d, List.nth_error (timeline k arr) i = Some (s, d) ->
                s = first_start (timeline k arr)
                    + total (List.firstn i (List.map snd arr)).
Proof.
  destruct arr as [|[t1 d1] r]; intros Harr i s d H; [destruct i; discriminate H|].
  unroll. cbn [first_start] in *.
  destruct i as [|i]; unroll.
  - injection H as <- <-. lia.
  - apply timeline_exact in H.
    + fold (total (List.firstn i (List.map snd r))). lia.
    + intros j t d' Hj.
      pose proof (Harr (S j) t d' (Nat.lt_0_succ j) Hj) as Hb. unroll.
      fold (total (List.firstn j (List.map snd r))) in Hb. lia.
Qed.

End Timeline.

(** ** Concrete sessions *)

Section Claims.

Example live_session :
  session_state initial = Idle
  /\ session_state (run (startConversation all_succeed) initial) = Connecting
  /\ session_state live = Live
  /\ trace live = [Acquire InputContext 0; Acquire OutputContext 1;
                   Acquire MicStream 2; Acquire TransportSession 3].
Proof. repeat split. Qed.

Example stop_live_session :
  new_effects live (run stopConversation live)
  = [SessionClose 3; NodeDisconnect 5; NodeDisconnect 4; TracksStop 2;
     ContextClose 0; ContextClose 1].
Proof. reflexivity. Qed.

Example start_without_microphone :
  trace (run (startConversation mic_denied) initial)
  = [Acquire InputContext 0; Acquire OutputContext 1; ConsoleError;
     Alert "Could not start the conversation: Permission denied";
     ContextClose 0; ContextClose 1].
Proof. reflexivity. Qed.

(** C3. After a flush the set of active playback handles is empty and the
    playback clock is 0, whatever handles were active and whatever the
    device time: for the flush itself, for an interruption marker whose
    message is handled to its end, and for [stopConversation]. *)
Theorem flush_postcondition c t m :
  truthy (serverContent_get interrupted m) = true ->
  outcome (onmessage t m) c = inr tt ->
  (sourcesRef (run flush c) = [] /\ nextStartTimeRef (run flush c) = 0)
  /\ (sourcesRef (run (onmessage t m) c) = []
      /\ nextStartTimeRef (run (onmessage t m) c) = 0)
  /\ (sourcesRef (run stopConversation c) = []
      /\ nextStartTimeRef (run stopConversation c) = 0).
Proof.
  intros Hi Ho. split; [|split].
  - unfold run. rewrite flush_spec. now destruct c.
  - unfold run, outcome in *. rewrite onmessage_spec in *. cbv zeta in *.
    destruct (play_audio t m _) as [[e|[]] c3]; [discriminate Ho|].
    rewrite interrupt_spec, Hi, flush_spec. now destruct c3.
  - unfold run. rewrite stopConversation_spec. now split.
Qed.

Lemma flush_postcondition_witness :
  truthy (serverContent_get interrupted interruption_message) = true
  /\ outcome (onmessage 7 interruption_message) playing = inr tt
  /\ nextStartTimeRef playing = 2
  /\ sourcesRef (run (onmessage 7 interruption_message) playing) = []
  /\ nextStartTimeRef (run (onmessage 7 interruption_message) playing) = 0.
Proof.
  split; [reflexivity|]. split; [reflexivity|]. split; [reflexivity|].
  exact (proj1 (proj2 (@flush_postcondition playing 7 interruption_message
                         eq_refl eq_refl))).
Defined.

(** A second [stopConversation] right after a first one throws nothing,
    closes no session, disconnects no node, stops no track and no source,
    and leaves the component as it is, Idle.  It is not a no-op: the two
    context refs are never cleared, so it calls [close()] again on every
    context whose state does not read ['closed'] yet.  Once the platform
    has closed the contexts, a further stop does nothing at all. *)
Lemma second_stop c :
  let c1 := run stopConversation c in
  let c2 := run stopConversation c1 in
  let c3 := run contexts_closed c1 in
  outcome stopConversation c1 = inr tt
  /\ new_effects c1 c2
     = close_effect (audioContextRef c) ++ close_effect (outputAudioContextRef c)
  /\ c2 = set_trace (trace c1 ++ new_effects c1 c2) c1
  /\ session_state c1 = Idle
  /\ session_state c2 = Idle
  /\ outcome stopConversation c3 = inr tt
  /\ new_effects c3 (run stopConversation c3) = []
  /\ run stopConversation c3 = c3.
Proof.
  cbv zeta.
  pose proof (stop_again c) as H1. pose proof (stop_when_closed c) as H3.
  cbv zeta in H1, H3.
  set (c1 := run stopConversation c) in *.
  set (c3 := run contexts_closed c1) in *.
  assert (O2 : outcome stopConversation c1 = inr tt)
    by (unfold outcome; now rewrite H1).
  assert (E2 : run stopConversation c1
               = set_trace (trace c1 ++ close_effect (audioContextRef c)
                              ++ close_effect (outputAudioContextRef c)) c1)
    by (unfold run at 1; now rewrite H1).
  assert (O3 : outcome stopConversation c3 = inr tt)
    by (unfold outcome; now rewrite H3).
  assert (E3 : run stopConversation c3 = c3)
    by (unfold run at 1; now rewrite H3).
  assert (N2 : new_effects c1 (run stopConversation c1)
               = close_effect (audioContextRef c) ++ close_effect (outputAudioContextRef c)).
  { unfold new_effects. rewrite E2.
    replace (trace (set_trace _ c1))
      with (trace c1 ++ close_effect (audioContextRef c)
              ++ close_effect (outputAudioContextRef c))
      by (now destruct c1).
    apply skipn_length_app. }
  rewrite O2, O3, E3, N2.
  assert (I1 : session_state c1 = Idle).
  { unfold c1, run. now rewrite stopConversation_spec. }
  repeat split; try assumption.
  - rewrite E2. now destruct c1.
  - unfold new_effects. apply skipn_length_self.
Qed.

(** C8. Two stops in a row from a live session.  The first closes the
    session, disconnects the two nodes, stops the tracks and calls
    [close()] on the two contexts.  The second throws nothing and leaves
    the component Idle, but it is not a no-op: the context refs still hold
    the contexts, whose state does not read ['closed'] yet, and it calls
    [close()] on both again.  A stop that comes once the platform has
    closed them does nothing. *)
Theorem stop_twice_closes_contexts_again :
  let c1 := run stopConversation live in
  let c2 := run stopConversation c1 in
  let c3 := run contexts_closed c2 in
  new_effects live c1
  = [SessionClose 3; NodeDisconnect 5; NodeDisconnect 4; TracksStop 2;
     ContextClose 0; ContextClose 1]
  /\ session_state c1 = Idle
  /\ outcome stopConversation c1 = inr tt
  /\ session_state c2 = Idle
  /\ new_effects c1 c2 = [ContextClose 0; ContextClose 1]
  /\ releases (new_effects c1 c2) = [0; 1]%nat
  /\ c2 <> c1
  /\ new_effects c3 (run stopConversation c3) = []
  /\ run stopConversation c3 = c3.
Proof.
  cbv zeta.
  repeat (split; [vm_compute; reflexivity|]).
  split; [vm_compute; discriminate|].
  split; vm_compute; reflexivity.
Qed.

Lemma onmessage_transcript t m c :
  transcript (run (onmessage t m) c)
  = transcript (run (complete_turn m) (run (accumulate_transcription m) c)).
Proof.
  unfold run at 1. rewrite onmessage_spec. cbv zeta.
  pose proof (play_audio_frame t m
                (run (complete_turn m) (run (accumulate_transcription m) c))) as [_ H3].
  cbv zeta in H3.
  destruct (play_audio t m _) as [[e|[]] c3]; cbn [snd] in *.
  - assumption.
  - pose proof (interrupt_frame m c3) as [_ H4]. cbv zeta in H4. congruence.
Qed.

(** C5. A message with the turn-completion marker appends exactly one
    turn, made of the two transcription buffers as they stand once the
    fragments of that same message are added, and leaves both buffers
    empty; when the message has no fragment the turn is the two buffers
    as they were, and so a turn of two empty strings when nothing was
    accumulated. *)
Theorem turn_complete_appends_turn t m c :
  truthy (serverContent_get turnComplete m) = true ->
  let c' := run (onmessage t m) c in
  transcriptions c'
  = transcriptions c
      ++ [{| user := heard inputTranscription m (currentInputTranscription c);
             model := heard outputTranscription m (currentOutputTranscription c) |}]
  /\ currentInputTranscription c' = ""%string
  /\ currentOutputTranscription c' = ""%string
  /\ (serverContent_get inputTranscription m = None ->
      serverContent_get outputTranscription m = None ->
      transcriptions c'
      = transcriptions c ++ [{| user := currentInputTranscription c;
                                model := currentOutputTranscription c |}]).
Proof.
  intros Ht. cbv zeta.
  pose proof (onmessage_transcript t m c) as H.
  unfold run at 2 3 in H.
  rewrite accumulate_transcription_spec in H. cbn [snd] in H.
  rewrite complete_turn_spec, Ht in H. cbn [snd] in H.
  unfold transcript in H. destruct c; cbn in H.
  injection H as H1 H2 H3. rewrite H1, H2, H3. cbn.
  repeat split. intros Hi Ho. unfold heard. now rewrite Hi, Ho.
Qed.

Lemma turn_complete_appends_turn_witness :
  truthy (serverContent_get turnComplete turn_complete_message) = true
  /\ transcriptions (run (onmessage 0 turn_complete_message) live)
     = [{| user := ""; model := "" |}]
  /\ transcriptions
       (run_messages [(0, input_fragment "hi"); (1, output_fragment "hello" None);
                      (2, turn_complete_message)] live)
     = [{| user := "hi"; model := "hello" |}].
Proof.
  split; [reflexivity|]. split.
  - exact (proj1 (turn_complete_appends_turn 0 turn_complete_message live eq_refl)).
  - exact (proj1 (turn_complete_appends_turn 2 turn_complete_message
                    (run_messages [(0, input_fragment "hi");
                                   (1, output_fragment "hello" None)] live)
                    eq_refl)).
Defined.

Lemma startConversation_transcript env c :
  let c' := run (startConversation env) c in
  transcriptions c' = []
  /\ (currentInputTranscription c', currentOutputTranscription c')
     = if (env InputContext && env OutputContext && env MicStream)%bool
       then (""%string, ""%string)
       else (currentInputTranscription c, currentOutputTranscription c).
Proof.
  cbv zeta. unfold run, startConversation, new_AudioContext, getUserMedia,
    live_connect, acquire.
  destruct c.
  destruct (env InputContext), (env OutputContext), (env MicStream),
    (env TransportSession);
    cbv -[stopConversation List.app String.append];
    try rewrite stopConversation_spec; now split.
Qed.

(** C10. After a stop the session is not connected, the playback clock is
    0, no playback handle is active and the session, node and stream refs
    are empty.  The stop does not reset the transcript: it leaves the log
    and the two fragment buffers as they are, and the log is emptied when
    the next start begins. *)
Theorem stop_resets_session c env :
  let c1 := run stopConversation c in
  let c2 := run (startConversation env) c1 in
  session_state c1 = Idle
  /\ nextStartTimeRef c1 = 0
  /\ sourcesRef c1 = []
  /\ (sessionRef c1, processorRef c1, mediaStreamSourceRef c1, streamRef c1)
     = (None, None, None, None)
  /\ transcript c1 = transcript c
  /\ transcriptions c2 = [].
Proof.
  cbv zeta.
  destruct (startConversation_transcript env (run stopConversation c)) as [H1 _].
  rewrite H1. unfold run. rewrite stopConversation_spec. cbn.
  repeat split.
Qed.

Lemma text_blocks_playback m c :
  playback (run (complete_turn m) (run (accumulate_transcription m) c)) = playback c.
Proof.
  destruct (complete_turn_frame m (run (accumulate_transcription m) c)) as [_ H2].
  destruct (accumulate_transcription_frame m c) as [_ [H1 _]].
  cbv zeta in *. congruence.
Qed.


Lemma duration_nonneg b : 0 <= duration b.
Proof. unfold duration. lia. Qed.

Lemma chunk_duration_nonneg m : 0 <= chunk_duration m.
Proof.
  unfold chunk_duration. destruct (inbound_audio m); [apply duration_nonneg|lia].
Qed.

Lemma onmessage_chunk t m c ctx :
  is_chunk m = true ->
  outputAudioContextRef c = Some ctx ->
  let c' := run (onmessage t m) c in
  outcome (onmessage t m) c = inr tt
  /\ trace c' = trace c ++ [SourceStart (fresh c) (Z.max (nextStartTimeRef c) t)
                              (chunk_duration m)]
  /\ nextStartTimeRef c' = Z.max (nextStartTimeRef c) t + chunk_duration m
  /\ outputAudioContextRef c' = Some ctx.
Proof.
  unfold is_chunk, chunk_duration. intros Hm Hc. cbv zeta.
  destruct (inbound_audio m) as [b|] eqn:Hb; [|discriminate Hm].
  apply negb_true_iff in Hm.
  pose proof (text_blocks_playback m c) as Hp.
  destruct (complete_turn_frame m (run (accumulate_transcription m) c)) as [H2 _].
  destruct (accumulate_transcription_frame m c) as [H1 _].
  cbv zeta in H1, H2.
  unfold run at 1 2 3, outcome. rewrite onmessage_spec. cbv zeta.
  set (c2 := run (complete_turn m) (run (accumulate_transcription m) c)) in *.
  assert (Hc2 : outputAudioContextRef c2 = Some ctx).
  { rewrite H1 in H2. unfold lifecycle in H2. injection H2 as _ _ _ _ Ho _ _ _.
    now rewrite Ho. }
  rewrite (play_audio_enqueue t m c2 Hb Hc2), interrupt_spec, Hm.
  cbn [fst snd]. unfold playback in Hp. injection Hp as Hk Hs Hf Ht.
  unfold enqueued. destruct c2; cbn in *. subst. repeat split.
Qed.

Lemma starts_app a b : starts (a ++ b) = starts a ++ starts b.
Proof. unfold starts. apply List.flat_map_app. Qed.

Lemma run_messages_schedule l c ctx :
  Forall (fun tm => is_chunk (snd tm) = true) l ->
  outputAudioContextRef c = Some ctx ->
  exists tr,
    trace (run_messages l c) = trace c ++ tr
    /\ starts tr = timeline (nextStartTimeRef c) (arrivals l).
Proof.
  intro Hl. revert c. induction Hl as [|[t m] l Hm _ IH]; intros c Hc.
  - exists []. cbn. now rewrite List.app_nil_r.
  - cbn [snd] in Hm.
    destruct (onmessage_chunk t m c Hm Hc) as (_ & Htr & Hk & Hc').
    cbv zeta in Htr, Hk, Hc'.
    destruct (IH _ Hc') as (tr & E1 & E2).
    eexists. cbn [run_messages]. rewrite E1, Htr, <- List.app_assoc.
    split; [reflexivity|].
    rewrite starts_app, E2, Hk. reflexivity.
Qed.

(** An enqueue never moves the clock backward: without the interruption
    marker, a message leaves the clock where it was or further on. *)
Lemma onmessage_clock_forward t m c :
  truthy (serverContent_get interrupted m) = false ->
  nextStartTimeRef c <= nextStartTimeRef (run (onmessage t m) c).
Proof.
  intro Hi.
  pose proof (text_blocks_playback m c) as Hp.
  unfold run at 1. rewrite onmessage_spec. cbv zeta.
  set (c2 := run (complete_turn m) (run (accumulate_transcription m) c)) in *.
  unfold playback in Hp. injection Hp as Hk _ _ _. rewrite <- Hk. clear Hk.
  assert (H : nextStartTimeRef c2 <= nextStartTimeRef (snd (play_audio t m c2))).
  { rewrite play_audio_spec.
    destruct (base64Audio_of m) as [e|[b|]]; cbn [snd]; try lia.
    destruct (outputAudioContextRef c2); cbn [snd]; try lia.
    destruct (nonempty b); cbn [snd]; try lia.
    rewrite schedule_spec. cbv zeta.
    destruct (decode b) as [bytes|]; [|destruct c2; cbn; lia].
    destruct (decodeAudioData bytes 24000 1) as [e|b']; [destruct c2; cbn; lia|].
    pose proof (duration_nonneg b'). destruct c2; cbn. lia. }
  destruct (play_audio t m c2) as [[e|[]] c3]; cbn [snd] in *; [assumption|].
  now rewrite interrupt_spec, Hi.
Qed.

Lemma durations_nonneg l : Forall (fun d => 0 <= d) (durations l).
Proof.
  unfold durations, arrivals. rewrite List.map_map. apply Forall_forall.
  intros d Hd. apply List.in_map_iff in Hd. destruct Hd as [tm [<- _]].
  apply chunk_duration_nonneg.
Qed.

(** C1. For chunks enqueued with no flush in between: every chunk is
    scheduled, in arrival order; the i-th buffer starts no earlier than
    the first start plus the durations before it, and exactly then when
    no chunk after the first arrives with the device time already past
    the end of the buffers before it (no underrun); a buffer ends before
    or when any later one starts; and a message without the interruption
    marker never moves the clock backward. *)
Theorem playback_schedule_gapless l c ctx :
  outputAudioContextRef c = Some ctx ->
  Forall (fun tm => is_chunk (snd tm) = true) l ->
  let sched := starts (new_effects c (run_messages l c)) in
  let origin := first_start sched in
  List.map snd sched = durations l
  /\ (forall i s d,
        List.nth_error sched i = Some (s, d) ->
        origin + total (List.firstn i (durations l)) <= s)
  /\ ((forall j t m,
         (0 < j)%nat -> List.nth_error l j = Some (t, m) ->
         t <= origin + total (List.firstn j (durations l))) ->
      forall i s d,
        List.nth_error sched i = Some (s, d) ->
        s = origin + total (List.firstn i (durations l)))
  /\ (forall i j si di sj dj,
        (i < j)%nat ->
        List.nth_error sched i = Some (si, di) ->
        List.nth_error sched j = Some (sj, dj) ->
        si + di <= sj)
  /\ (forall t m c0,
        truthy (serverContent_get interrupted m) = false ->
        nextStartTimeRef c0 <= nextStartTimeRef (run (onmessage t m) c0)).
Proof.
  intros Hc Hl. cbv zeta.
  destruct (@run_messages_schedule l c ctx Hl Hc) as (tr & Htr & Hs).
  unfold new_effects. rewrite Htr, skipn_length_app, Hs. clear Htr Hs tr.
  set (k := nextStartTimeRef c). clearbody k.
  pose proof (durations_nonneg l) as Hd.
  unfold durations in *.
  split; [apply timeline_durations|].
  split; [|split; [|split]].
  - intros i s d. apply timeline_lower_origin.
  - intros Harr. apply timeline_exact_origin.
    intros j t d' Hpos Hj. unfold arrivals in Hj.
    rewrite List.nth_error_map in Hj.
    destruct (List.nth_error l j) as [[t' m']|] eqn:Er; [|discriminate Hj].
    cbn in Hj. injection Hj as <- <-.
    exact (Harr j t' m' Hpos Er).
  - intros i j si di sj dj. now apply timeline_no_overlap.
  - intros t m c0. apply onmessage_clock_forward.
Qed.

(** C9. When the audio of a message in a Live session fails to decode
    from base64, the handler stops there with that error: nothing is
    scheduled, stopped or released, the active handles are as before, and
    the session stays Live with the lifecycle flags and refs untouched.
    The blocks that come before the decoding have taken effect: the
    transcript is what the text parts of the message make it, and the
    clock has been raised to the device time if it was behind.  A later
    message with well-formed audio is handled to its end and its buffer
    is scheduled. *)
Theorem decode_failure_isolated t m c b ctx :
  base64Audio_of m = inr (Some b) ->
  nonempty b = true ->
  decode b = None ->
  outputAudioContextRef c = Some ctx ->
  session_state c = Live ->
  let c' := run (onmessage t m) c in
  outcome (onmessage t m) c = inl InvalidCharacterError
  /\ session_state c' = Live
  /\ lifecycle c' = lifecycle c
  /\ sourcesRef c' = sourcesRef c
  /\ new_effects c c' = []
  /\ nextStartTimeRef c' = Z.max (nextStartTimeRef c) t
  /\ transcript c'
     = transcript (run (complete_turn m) (run (accumulate_transcription m) c))
  /\ (forall t2 m2,
        is_chunk m2 = true ->
        outcome (onmessage t2 m2) c' = inr tt
        /\ new_effects c' (run (onmessage t2 m2) c')
           = [SourceStart (fresh c') (Z.max (nextStartTimeRef c') t2)
                (chunk_duration m2)]).
Proof.
  intros Hm Hb Hd Hc Hl. cbv zeta.
  pose proof (onmessage_lifecycle t m c) as Hlife.
  pose proof (onmessage_transcript t m c) as Htext.
  pose proof (text_blocks_playback m c) as Hp.
  destruct (complete_turn_frame m (run (accumulate_transcription m) c)) as [H2 _].
  destruct (accumulate_transcription_frame m c) as [H1 _].
  cbv zeta in H1, H2.
  assert (E : onmessage t m c
              = (inl InvalidCharacterError,
                 set_nextStartTimeRef
                   (Z.max (nextStartTimeRef c) t)
                   (run (complete_turn m) (run (accumulate_transcription m) c)))).
  { rewrite onmessage_spec. cbv zeta.
    set (c2 := run (complete_turn m) (run (accumulate_transcription m) c)) in *.
    assert (Hc2 : outputAudioContextRef c2 = Some ctx).
    { rewrite H1 in H2. unfold lifecycle in H2. injection H2 as _ _ _ _ Ho _ _ _.
      now rewrite Ho. }
    rewrite (play_audio_decode_error t m c2 Hm Hb Hd Hc2).
    unfold playback in Hp. injection Hp as Hk _ _ _. now rewrite Hk. }
  set (c2 := run (complete_turn m) (run (accumulate_transcription m) c)) in *.
  unfold playback in Hp. injection Hp as Hk Hs Hf Ht.
  assert (Hout : outputAudioContextRef (run (onmessage t m) c) = Some ctx).
  { unfold lifecycle in Hlife. injection Hlife as _ _ _ _ Ho _ _ _.
    now rewrite Ho. }
  split; [unfold outcome; now rewrite E|].
  split; [rewrite (session_state_lifecycle Hlife); assumption|].
  split; [assumption|].
  split; [unfold run at 1; rewrite E; destruct c2; cbn in *; assumption|].
  split.
  { unfold new_effects, run at 1. rewrite E.
    replace (trace (snd _)) with (trace c) by (destruct c2; cbn in *; congruence).
    apply skipn_length_self. }
  split; [unfold run at 1; rewrite E; now destruct c2|].
  split; [assumption|].
  intros t2 m2 Hchunk.
  destruct (onmessage_chunk t2 m2 _ Hchunk Hout) as (Ho & Htr & _ & _).
  cbv zeta in Htr. split; [assumption|].
  unfold new_effects. rewrite Htr. apply skipn_length_app.
Qed.

(** *** Codec *)

(** C6. Decoding the base64 encoding of a byte sequence returns the
    sequence; a float sample [x] with [-1 <= x < 1], converted to 16-bit
    PCM and back, is reproduced to less than one quantization step. *)
Theorem codec_round_trips bytes x :
  (-1 <= x)%Q -> (x < 1)%Q ->
  decode (encode bytes) = Some bytes
  /\ (Qabs (pcm16ToFloat (floatToPcm16 x) - x) < 1 # 32768)%Q.
Proof.
  intros Hlo Hhi. split; [apply decode_encode|now apply pcm16_round_trip].
Qed.

Lemma codec_round_trips_witness :
  (-1 <= 1 # 3)%Q /\ (1 # 3 < 1)%Q
  /\ decode (encode ["M"%byte; "a"%byte]) = Some ["M"%byte; "a"%byte]
  /\ (Qabs (pcm16ToFloat (floatToPcm16 (1 # 3)) - (1 # 3)) < 1 # 32768)%Q.
Proof.
  assert (Hlo : (-1 <= 1 # 3)%Q) by (unfold Qle; simpl; lia).
  assert (Hhi : (1 # 3 < 1)%Q) by (unfold Qlt; simpl; lia).
  split; [exact Hlo|]. split; [exact Hhi|].
  exact (codec_round_trips ["M"%byte; "a"%byte] Hlo Hhi).
Defined.

(** The sample 1 is stored as -32768 and read back as -1. *)
Lemma pcm16_round_trip_fails_at_one :
  (-1 <= 1)%Q /\ (1 <= 1)%Q
  /\ floatToPcm16 1 = -32768
  /\ (pcm16ToFloat (floatToPcm16 1) == -1)%Q
  /\ ~ (Qabs (pcm16ToFloat (floatToPcm16 1) - 1) <= 1 # 32768)%Q.
Proof.
  split; [unfold Qle; simpl; lia|]. split; [unfold Qle; simpl; lia|].
  split; [reflexivity|]. split; [reflexivity|].
  intro H. vm_compute in H. apply H. reflexivity.
Qed.

(** C7. The conversion multiplies by 32768, truncates towards zero and
    reduces modulo 2^16 into the signed 16-bit range, with no clamping.
    For [x >= 1] or [x <= -1 - 1/32768] the truncated product is outside
    that range and the stored sample differs from it (by a multiple of
    2^16); the sample 1 is stored as -32768.  For
    [-1 - 1/32768 < x < 1] the truncated product is stored unchanged. *)
Theorem floatToPcm16_wraps x :
  -32768 <= floatToPcm16 x <= 32767
  /\ (floatToPcm16 x - scaled x) mod 65536 = 0
  /\ ((1 <= x)%Q \/ (x <= -(32769 # 32768))%Q -> floatToPcm16 x <> scaled x)
  /\ ((-(32769 # 32768) < x)%Q -> (x < 1)%Q -> floatToPcm16 x = scaled x)
  /\ floatToPcm16 1 = -32768.
Proof.
  pose proof (ToInt16_range (x * 32768)%Q) as Hr.
  split; [exact Hr|].
  split; [apply ToInt16_congruent|].
  split; [|split; [|reflexivity]].
  - fold (floatToPcm16 x) in Hr.
    intros [H|H]; [apply scaled_above in H|apply scaled_below in H]; lia.
  - intros Hlo Hhi. apply floatToPcm16_in_range. now apply scaled_in_range.
Qed.

Lemma floatToPcm16_wraps_witness :
  (1 <= 2)%Q /\ floatToPcm16 2 <> scaled 2
  /\ (-(32769 # 32768) < 1 # 2)%Q /\ (1 # 2 < 1)%Q
  /\ floatToPcm16 (1 # 2) = scaled (1 # 2).
Proof.
  assert (H1 : (1 <= 2)%Q) by (unfold Qle; simpl; lia).
  assert (H2 : (-(32769 # 32768) < 1 # 2)%Q) by (unfold Qlt; simpl; lia).
  assert (H3 : (1 # 2 < 1)%Q) by (unfold Qlt; simpl; lia).
  split; [exact H1|].
  split; [exact (proj1 (proj2 (proj2 (floatToPcm16_wraps 2))) (or_introl H1))|].
  split; [exact H2|]. split; [exact H3|].
  exact (proj1 (proj2 (proj2 (proj2 (floatToPcm16_wraps (1 # 2))))) H2 H3).
Defined.

(** A sample just below -1 is out of range, yet its truncated product
    -32768 fits, is stored unchanged, and is what clamping would store. *)
Lemma floatToPcm16_no_wrap_below_minus_one :
  (1 < Qabs just_below_minus_one)%Q
  /\ scaled just_below_minus_one = -32768
  /\ floatToPcm16 just_below_minus_one = scaled just_below_minus_one
  /\ floatToPcm16 just_below_minus_one = saturate16 (scaled just_below_minus_one).
Proof.
  split; [unfold Qlt; simpl; lia|]. repeat split.
Qed.

(** *** Instances *)

Lemma playback_schedule_gapless_witness :
  outputAudioContextRef live
  = Some {| ctx_id := 1; ctx_sampleRate := 24000; state := running |}
  /\ Forall (fun tm => is_chunk (snd tm) = true) back_to_back
  /\ List.map snd (starts (new_effects live (run_messages back_to_back live)))
     = durations back_to_back
  /\ starts (new_effects live (run_messages back_to_back live)) = [(0, 2); (2, 2)].
Proof.
  assert (Hl : Forall (fun tm => is_chunk (snd tm) = true) back_to_back).
  { repeat constructor. }
  split; [reflexivity|]. split; [exact Hl|].
  split; [|reflexivity].
  exact (proj1 (@playback_schedule_gapless back_to_back live _ eq_refl Hl)).
Defined.

(** After a pause the second buffer starts at the device time, not at
    the end of the first. *)
Lemma playback_schedule_underrun :
  Forall (fun tm => is_chunk (snd tm) = true) after_a_pause
  /\ starts (new_effects live (run_messages after_a_pause live)) = [(0, 2); (10, 2)]
  /\ ~ (forall i s d,
          List.nth_error (starts (new_effects live (run_messages after_a_pause live))) i
          = Some (s, d) ->
          s = first_start (starts (new_effects live (run_messages after_a_pause live)))
              + total (List.firstn i (durations after_a_pause))).
Proof.
  split; [repeat constructor|]. split; [reflexivity|].
  intro H. specialize (H 1%nat 10 2 eq_refl). discriminate H.
Qed.





Lemma decode_failure_isolated_witness :
  base64Audio_of (audio_message "!") = inr (Some "!"%string)
  /\ nonempty "!" = true
  /\ decode "!" = None
  /\ session_state live = Live
  /\ outcome (onmessage 5 (audio_message "!")) live = inl InvalidCharacterError
  /\ session_state (run (onmessage 5 (audio_message "!")) live) = Live.
Proof.
  pose proof (@decode_failure_isolated 5 (audio_message "!") live "!" _
                eq_refl eq_refl eq_refl eq_refl eq_refl) as H.
  cbv zeta in H.
  split; [reflexivity|]. split; [reflexivity|]. split; [reflexivity|].
  split; [reflexivity|].
  split; [exact (proj1 H)|exact (proj1 (proj2 H))].
Defined.

(** The text of a message whose audio fails to decode is kept: the
    message is not dropped as a whole. *)
Lemma decode_failure_keeps_text :
  base64Audio_of garbled = inr (Some "!"%string)
  /\ decode "!" = None
  /\ session_state live = Live
  /\ currentOutputTranscription live = ""%string
  /\ currentOutputTranscription (run (onmessage 0 garbled) live) = "hi"%string
  /\ run (onmessage 0 garbled) live <> live.
Proof.
  repeat (split; [reflexivity|]). discriminate.
Qed.

(** A stop leaves the transcript log and the fragment buffers. *)
Lemma stop_keeps_transcript :
  session_state chatted = Live
  /\ transcriptions (run stopConversation chatted) = [{| user := "hi"; model := "hello" |}]
  /\ currentInputTranscription (run stopConversation chatted) = "and"%string
  /\ transcript (run stopConversation chatted) <> ([], ""%string, ""%string).
Proof.
  repeat (split; [reflexivity|]). discriminate.
Qed.

End Claims.

(** * Further properties of the code *)

(** ** More on the codec *)

Section CodecViews.

Lemma list_ind2 (A : Type) (P : list A -> Prop) :
  P [] -> (forall a, P [a]) -> (forall a b r, P r -> P (a :: b :: r)) ->
  forall l, P l.
Proof.
  intros H0 H1 H2.
  enough (H : forall l, P l /\ (forall a, P (a :: l))) by (intro l; apply H).
  induction l as [|x l [IH0 IH1]]; split; auto.
Qed.

Lemma Int16Array_of_buffer_outcome data :
  (Nat.even (List.length data) = false -> Int16Array_of_buffer data = inl RangeError)
  /\ (Nat.even (List.length data) = true ->
      exists l, Int16Array_of_buffer data = inr l
                /\ List.length l = Nat.div (List.length data) 2
                /\ Uint8Array_of_Int16Array l = data
                /\ Forall (fun s => -32768 <= s <= 32767) l).
Proof.
  induction data as [|a|a b r [IHo IHe]] using list_ind2.
  - split; [discriminate|]. intros _. exists []. repeat split. constructor.
  - split; [reflexivity|discriminate].
  - change (Nat.even (List.length (a :: b :: r))) with (Nat.even (List.length r)).
    split; intro H.
    + cbn [Int16Array_of_buffer]. now rewrite (IHo H).
    + destruct (IHe H) as (l & E & Hl & Hb & Hr).
      exists (int16_of_bytes a b :: l). cbn [Int16Array_of_buffer]. rewrite E.
      split; [reflexivity|].
      split.
      { cbn [List.length]. rewrite Hl.
        change (S (S (List.length r))) with (2 + List.length r)%nat.
        replace (2 + List.length r)%nat with (List.length r + 1 * 2)%nat by lia.
        rewrite Nat.div_add by lia. lia. }
      assert (Ha : 0 <= Z_of_byte a < 256).
      { unfold Z_of_byte. pose proof (Byte.to_N_bounded a). lia. }
      assert (Hbb : 0 <= Z_of_byte b < 256).
      { unfold Z_of_byte. pose proof (Byte.to_N_bounded b). lia. }
      assert (Hback : forall x, byte_of_Z (Z_of_byte x) = x).
      { intro x. unfold byte_of_Z, Z_of_byte.
        pose proof (Byte.to_N_bounded x).
        replace (Z.to_N (Z.of_N (Byte.to_N x) mod 256)) with (Byte.to_N x) by lia.
        now rewrite Byte.of_to_N. }
      split.
      { unfold Uint8Array_of_Int16Array in *. cbn [List.flat_map List.app].
        rewrite Hb. unfold int16_of_bytes. cbv zeta.
        destruct (Z.leb_spec 32768 (Z_of_byte a + 256 * Z_of_byte b)).
        - replace (((Z_of_byte a + 256 * Z_of_byte b - 65536) mod 65536) mod 256)
            with (Z_of_byte a) by lia.
          replace (((Z_of_byte a + 256 * Z_of_byte b - 65536) mod 65536) / 256)
            with (Z_of_byte b) by lia.
          now rewrite !Hback.
        - replace (((Z_of_byte a + 256 * Z_of_byte b) mod 65536) mod 256)
            with (Z_of_byte a) by lia.
          replace (((Z_of_byte a + 256 * Z_of_byte b) mod 65536) / 256)
            with (Z_of_byte b) by lia.
          now rewrite !Hback. }
      constructor; [|assumption].
      unfold int16_of_bytes. cbv zeta.
      destruct (Z.leb_spec 32768 (Z_of_byte a + 256 * Z_of_byte b)); lia.
Qed.

Lemma Int16Array_of_buffer_inv data int16 :
  Int16Array_of_buffer data = inr int16 ->
  Uint8Array_of_Int16Array int16 = data
  /\ List.length data = (2 * List.length int16)%nat
  /\ Forall (fun s => -32768 <= s <= 32767) int16.
Proof.
  intro H.
  destruct (Int16Array_of_buffer_outcome data) as [Ho He].
  destruct (Nat.even (List.length data)) eqn:E.
  - destruct (He eq_refl) as (l & El & Hl & Hb & Hr).
    rewrite El in H. injection H as <-. split; [assumption|]. split; [|assumption].
    rewrite Hl. apply Nat.even_spec in E. destruct E as [k Ek]. rewrite Ek.
    rewrite Nat.mul_comm, Nat.div_mul by lia. lia.
  - rewrite (Ho eq_refl) in H. discriminate H.
Qed.

(** X1. A buffer that reads as 16-bit integers holds two bytes for each of
    them, the integers are in the 16-bit range, and written back they give
    the same bytes, which read again give the same integers. *)
Theorem buffer_views_round_trip data int16 :
  Int16Array_of_buffer data = inr int16 ->
  Uint8Array_of_Int16Array int16 = data
  /\ List.length data = (2 * List.length int16)%nat
  /\ Forall (fun s => -32768 <= s <= 32767) int16
  /\ Int16Array_of_buffer (Uint8Array_of_Int16Array int16) = inr int16.
Proof.
  intro H. destruct (@Int16Array_of_buffer_inv data int16 H) as (H1 & H2 & H3).
  repeat split; try assumption. now rewrite H1.
Qed.

Lemma buffer_views_round_trip_witness :
  Int16Array_of_buffer [x01; x80; xff; x7f] = inr [-32767; 32767]
  /\ Uint8Array_of_Int16Array [-32767; 32767] = [x01; x80; xff; x7f].
Proof.
  assert (H : Int16Array_of_buffer [x01; x80; xff; x7f] = inr [-32767; 32767])
    by reflexivity.
  split; [exact H|]. exact (proj1 (@buffer_views_round_trip _ _ H)).
Defined.

Lemma decodeAudioData_cases data rate numChannels :
  (Nat.even (List.length data) = false ->
   decodeAudioData data rate numChannels = inl RangeError)
  /\ (Nat.even (List.length data) = true ->
      (numChannels = 0 \/ Nat.div (List.length data) 2 < numChannels)%nat ->
      decodeAudioData data rate numChannels = inl NotSupportedError)
  /\ (Nat.even (List.length data) = true ->
      (0 < numChannels <= Nat.div (List.length data) 2)%nat ->
      exists audioBuffer dataInt16,
        decodeAudioData data rate numChannels = inr audioBuffer
        /\ Int16Array_of_buffer data = inr dataInt16
        /\ numberOfChannels audioBuffer = numChannels
        /\ length audioBuffer = Nat.div (Nat.div (List.length data) 2) numChannels
        /\ (0 < length audioBuffer)%nat
        /\ sampleRate audioBuffer = rate
        /\ List.length (channelData audioBuffer) = numChannels
        /\ forall channel i,
             (channel < numChannels)%nat -> (i < length audioBuffer)%nat ->
             List.nth i (List.nth channel (channelData audioBuffer) []) 0%Q
             = pcm16ToFloat (List.nth (i * numChannels + channel) dataInt16 0)).
Proof.
  destruct (Int16Array_of_buffer_outcome data) as [Ho He].
  unfold decodeAudioData.
  split; [|split].
  - intro H. now rewrite (Ho H).
  - intros H Hn. destruct (He H) as (l & El & Hl & _). rewrite El, Hl.
    destruct Hn as [->|Hn]; [reflexivity|].
    rewrite (Nat.div_small _ _ Hn).
    cbn [Nat.eqb]. now rewrite orb_true_r.
  - intros H [Hn1 Hn2]. destruct (He H) as (l & El & Hl & _). rewrite El, Hl.
    set (frames := Nat.div (Nat.div (List.length data) 2) numChannels).
    assert (Hf : (0 < frames)%nat).
    { unfold frames. apply Nat.div_str_pos. lia. }
    replace (Nat.eqb numChannels 0) with false by (symmetry; apply Nat.eqb_neq; lia).
    replace (Nat.eqb frames 0) with false by (symmetry; apply Nat.eqb_neq; lia).
    cbn [orb]. eexists. exists l. split; [reflexivity|].
    cbn [numberOfChannels length sampleRate channelData].
    repeat split; try assumption.
    + now rewrite List.length_map, List.length_seq.
    + intros channel i Hc Hi.
      rewrite (List.nth_indep _ []
                 (List.map (fun i0 => pcm16ToFloat
                                        (List.nth (i0 * numChannels + 0) l 0))
                    (List.seq 0 frames)))
        by (now rewrite List.length_map, List.length_seq).
      rewrite (List.map_nth (fun channel =>
                 List.map (fun i0 => pcm16ToFloat
                                       (List.nth (i0 * numChannels + channel) l 0))
                   (List.seq 0 frames)) (List.seq 0 numChannels) 0%nat channel).
      rewrite List.seq_nth by assumption. cbn [Nat.add].
      rewrite (List.nth_indep _ 0%Q (pcm16ToFloat (List.nth (0 * numChannels + channel) l 0)))
        by (now rewrite List.length_map, List.length_seq).
      rewrite (List.map_nth (fun i0 => pcm16ToFloat
                                         (List.nth (i0 * numChannels + channel) l 0))
                 (List.seq 0 frames) 0%nat i).
      now rewrite List.seq_nth by assumption.
Qed.

(** X2. What [decodeAudioData] returns for a rate and a number of
    channels that every implementation supports: a [RangeError] for data
    of odd length, a [NotSupportedError] when there is not one frame for
    each channel, and otherwise a buffer of the channels asked for, at the
    rate given, whose channels hold the samples de-interleaved and
    scaled. *)
Theorem decodeAudioData_outcome data rate numChannels :
  8000 <= rate <= 96000 ->
  (1 <= numChannels <= 32)%nat ->
  let samples := Nat.div (List.length data) 2 in
  match decodeAudioData data rate numChannels with
  | inl e =>
      (e = RangeError /\ Nat.even (List.length data) = false)
      \/ (e = NotSupportedError /\ Nat.even (List.length data) = true
          /\ (samples < numChannels)%nat)
  | inr audioBuffer =>
      Nat.even (List.length data) = true
      /\ (numChannels <= samples)%nat
      /\ numberOfChannels audioBuffer = numChannels
      /\ length audioBuffer = Nat.div samples numChannels
      /\ (0 < length audioBuffer)%nat
      /\ sampleRate audioBuffer = rate
      /\ List.length (channelData audioBuffer) = numChannels
      /\ exists dataInt16,
           Int16Array_of_buffer data = inr dataInt16
           /\ forall channel i,
                (channel < numChannels)%nat -> (i < length audioBuffer)%nat ->
                List.nth i (List.nth channel (channelData audioBuffer) []) 0%Q
                = pcm16ToFloat (List.nth (i * numChannels + channel) dataInt16 0)
  end.
Proof.
  intros _ Hch. cbv zeta.
  destruct (decodeAudioData_cases data rate numChannels) as (Hodd & Hnone & Hsome).
  destruct (Nat.even (List.length data)) eqn:E.
  - destruct (Nat.lt_ge_cases (Nat.div (List.length data) 2) numChannels) as [Hlt|Hge].
    { rewrite (Hnone eq_refl (or_intror Hlt)). right. now repeat split. }
    assert (Hn : (0 < numChannels <= Nat.div (List.length data) 2)%nat) by lia.
    destruct (Hsome eq_refl Hn) as (b & l & -> & El & H1 & H2 & H3 & H4 & H5 & H6).
    repeat split; try assumption; try lia. exists l. now split.
  - rewrite (Hodd eq_refl). left. now split.
Qed.

Lemma decodeAudioData_outcome_witness :
  8000 <= 24000 <= 96000
  /\ (1 <= 1 <= 32)%nat
  /\ match decodeAudioData [x01; x80; xff; x7f] 24000 1 with
     | inr audioBuffer => length audioBuffer = 2%nat
     | inl _ => False
     end.
Proof.
  assert (Hr : 8000 <= 24000 <= 96000) by lia.
  assert (Hc : (1 <= 1 <= 32)%nat) by lia.
  split; [exact Hr|]. split; [exact Hc|].
  pose proof (@decodeAudioData_outcome [x01; x80; xff; x7f] 24000 1 Hr Hc) as H.
  cbv zeta in H.
  destruct (decodeAudioData [x01; x80; xff; x7f] 24000 1) as [e|audioBuffer].
  - destruct H as [[_ H]|(_ & _ & H)]; [discriminate H|cbn in H; lia].
  - destruct H as (_ & _ & _ & H & _). exact H.
Defined.

(** X3. A 16-bit sample converted to float and back is the same sample. *)
Theorem pcm16_float_pcm16 s :
  -32768 <= s <= 32767 -> floatToPcm16 (pcm16ToFloat s) = s.
Proof.
  intro Hs. rewrite floatToPcm16_in_range.
  - rewrite scaled_eq. unfold pcm16ToFloat, Qdiv, inject_Z.
    cbn [Qinv Qnum Qden Qmult]. rewrite Z.mul_1_r.
    change (Z.pos (1 * 32768)) with 32768. now rewrite Z.quot_mul by lia.
  - rewrite scaled_eq. unfold pcm16ToFloat, Qdiv, inject_Z.
    cbn [Qinv Qnum Qden Qmult]. rewrite Z.mul_1_r.
    change (Z.pos (1 * 32768)) with 32768. now rewrite Z.quot_mul by lia.
Qed.

Lemma pcm16_float_pcm16_witness :
  -32768 <= -32768 <= 32767 /\ floatToPcm16 (pcm16ToFloat (-32768)) = -32768.
Proof.
  assert (H : -32768 <= -32768 <= 32767) by lia.
  split; [exact H|]. exact (@pcm16_float_pcm16 (-32768) H).
Defined.

Lemma quotient_order B D p q r s :
  0 < B -> 0 < D ->
  (B * p + r) * D <= (D * q + s) * B ->
  s * B - r * D < B * D ->
  p <= q.
Proof.
  intros HB HD H Hrs.
  destruct (Z.le_gt_cases p q) as [Hle|Hgt]; [assumption|exfalso].
  assert (H1 : B * D * 1 <= B * D * (p - q)).
  { apply Z.mul_le_mono_nonneg_l; nia. }
  nia.
Qed.

Lemma truncate_monotone x y : (x <= y)%Q -> truncate x <= truncate y.
Proof.
  unfold Qle, truncate. destruct x as [a b], y as [c d]. cbn [Qnum Qden].
  intro H.
  pose proof (Z.quot_rem' a (Zpos b)) as Ea.
  pose proof (Z.quot_rem' c (Zpos d)) as Ec.
  set (p := a ÷ Zpos b) in *. set (q := c ÷ Zpos d) in *.
  set (r := Z.rem a (Zpos b)) in *. set (s := Z.rem c (Zpos d)) in *.
  assert (Hb : 0 < Zpos b) by lia. assert (Hd : 0 < Zpos d) by lia.
  assert (Hra : (0 <= a -> 0 <= r < Zpos b) /\ (a <= 0 -> - Zpos b < r <= 0)).
  { split; intro; [apply Z.rem_bound_pos|apply Z.rem_bound_pos_neg]; lia. }
  assert (Hsc : (0 <= c -> 0 <= s < Zpos d) /\ (c <= 0 -> - Zpos d < s <= 0)).
  { split; intro; [apply Z.rem_bound_pos|apply Z.rem_bound_pos_neg]; lia. }
  clearbody p q r s.
  destruct Hra as [Hra1 Hra2], Hsc as [Hsc1 Hsc2].
  destruct (Z.le_ge_cases 0 a) as [Ha|Ha], (Z.le_ge_cases 0 c) as [Hc|Hc].
  - specialize (Hra1 Ha). specialize (Hsc1 Hc).
    apply (@quotient_order (Zpos b) (Zpos d) p q r s); try lia; nia.
  - specialize (Hra1 Ha). specialize (Hsc2 Hc).
    assert (a = 0) by nia. assert (c = 0) by nia.
    assert (p = 0) by nia. assert (q = 0) by nia. lia.
  - specialize (Hra2 Ha). specialize (Hsc1 Hc).
    assert (p <= 0) by nia. assert (0 <= q) by nia. lia.
  - specialize (Hra2 Ha). specialize (Hsc2 Hc).
    apply (@quotient_order (Zpos b) (Zpos d) p q r s); try lia; nia.
Qed.


(** X4. Within the range that does not wrap, a louder sample is never stored
    as a smaller integer. *)
Theorem floatToPcm16_monotone x y :
  (-(32769 # 32768) < x)%Q -> (x <= y)%Q -> (y < 1)%Q ->
  floatToPcm16 x <= floatToPcm16 y.
Proof.
  intros Hx Hxy Hy.
  rewrite !floatToPcm16_in_range.
  - unfold scaled. apply truncate_monotone.
    unfold Qle in *. cbn [Qmult Qnum Qden]. nia.
  - apply scaled_in_range; [|assumption]. eapply Qlt_le_trans; eauto.
  - apply scaled_in_range; [assumption|]. eapply Qle_lt_trans; eauto.
Qed.

Lemma floatToPcm16_monotone_witness :
  (-(32769 # 32768) < -(1 # 2))%Q /\ (-(1 # 2) <= 1 # 4)%Q /\ (1 # 4 < 1)%Q
  /\ floatToPcm16 (-(1 # 2)) <= floatToPcm16 (1 # 4).
Proof.
  assert (H1 : (-(32769 # 32768) < -(1 # 2))%Q) by (unfold Qlt; simpl; lia).
  assert (H2 : (-(1 # 2) <= 1 # 4)%Q) by (unfold Qle; simpl; lia).
  assert (H3 : (1 # 4 < 1)%Q) by (unfold Qlt; simpl; lia).
  split; [exact H1|]. split; [exact H2|]. split; [exact H3|].
  exact (floatToPcm16_monotone H1 H2 H3).
Defined.

Lemma length_string_of_list_ascii l :
  String.length (string_of_list_ascii l) = List.length l.
Proof. induction l; cbn; auto. Qed.

Lemma length_list_ascii_of_string s :
  List.length (list_ascii_of_string s) = String.length s.
Proof. induction s; cbn; auto. Qed.

Lemma length_string_of_list_byte l :
  String.length (string_of_list_byte l) = List.length l.
Proof. induction l; cbn; auto. Qed.

Lemma padding_not_whitespace n :
  Forall (fun c => c = Base64.pad) (Base64.padding n).
Proof.
  unfold Base64.padding. destruct (Nat.modulo n 3) as [|[|[|?]]]; repeat constructor.
Qed.

Lemma encode_octets bytes :
  let octets := List.map N_of_ascii (list_ascii_of_string (string_of_list_byte bytes)) in
  List.length octets = List.length bytes /\ Forall octet octets.
Proof.
  cbv zeta. split.
  - now rewrite List.length_map, length_list_ascii_of_string, length_string_of_list_byte.
  - apply Forall_forall. intros x Hx. apply List.in_map_iff in Hx.
    destruct Hx as [c [<- _]]. apply N_ascii_bounded.
Qed.

Lemma encode_length bytes :
  String.length (encode bytes) = (4 * Nat.div (List.length bytes + 2) 3)%nat.
Proof.
  unfold encode, Base64.btoa.
  destruct (encode_octets bytes) as [Hlen Hoct]. cbv zeta in Hlen, Hoct.
  set (octets := List.map N_of_ascii (list_ascii_of_string (string_of_list_byte bytes))) in *.
  rewrite length_string_of_list_ascii, List.length_app, List.length_map.
  destruct (encoding_length octets) as (k & r & H1 & H2 & H3).
  rewrite <- Hlen, H3, H1, (padding_of_rest k H2).
  destruct r as [|[|[|?]]]; cbn [List.length]; try lia.
  + replace (3 * k + 0 + 2)%nat with (2 + k * 3)%nat by lia.
    rewrite Nat.div_add by lia. cbn. lia.
  + replace (3 * k + 1 + 2)%nat with (0 + (k + 1) * 3)%nat by lia.
    rewrite Nat.div_add by lia. cbn. lia.
  + replace (3 * k + 2 + 2)%nat with (1 + (k + 1) * 3)%nat by lia.
    rewrite Nat.div_add by lia. cbn. lia.
Qed.

Lemma encode_characters bytes :
  exists digits padding,
    list_ascii_of_string (encode bytes) = digits ++ padding
    /\ Forall (fun c => Base64.b64val c <> None) digits
    /\ Forall (fun c => c = Base64.pad) padding
    /\ (List.length padding
        = match Nat.modulo (List.length bytes) 3 with
          | 1 => 2 | 2 => 1 | _ => 0
          end)%nat.
Proof.
  unfold encode, Base64.btoa.
  destruct (encode_octets bytes) as [Hlen Hoct]. cbv zeta in Hlen, Hoct.
  set (octets := List.map N_of_ascii (list_ascii_of_string (string_of_list_byte bytes))) in *.
  pose proof (sextets_of_octets_bound Hoct) as Hsex.
  exists (List.map Base64.b64char (Base64.sextets_of_octets octets)),
    (Base64.padding (List.length octets)).
  split; [apply list_ascii_of_string_of_list_ascii|].
  split.
  { apply Forall_forall. intros c Hc. apply List.in_map_iff in Hc.
    destruct Hc as [x [<- Hx]]. rewrite Forall_forall in Hsex.
    rewrite (b64val_b64char (Hsex _ Hx)). discriminate. }
  split; [apply padding_not_whitespace|].
  rewrite Hlen. unfold Base64.padding.
  destruct (Nat.modulo (List.length bytes) 3) as [|[|[|?]]]; reflexivity.
Qed.

(** X5. The text [encode] produces: four characters for every three bytes,
    rounded up, each one a digit of the base64 alphabet or the padding
    character, which only ends the text. *)
Theorem encode_shape bytes :
  String.length (encode bytes) = (4 * Nat.div (List.length bytes + 2) 3)%nat
  /\ exists digits padding,
       list_ascii_of_string (encode bytes) = digits ++ padding
       /\ Forall (fun c => Base64.b64val c <> None) digits
       /\ Forall (fun c => c = Base64.pad) padding
       /\ (List.length padding
           = match Nat.modulo (List.length bytes) 3 with
             | 1 => 2 | 2 => 1 | _ => 0
             end)%nat.
Proof.
  split; [apply encode_length|apply encode_characters].
Qed.

(** X6. The payload of a capture frame of [n] samples: it decodes to [2 n]
    bytes, which read as 16-bit integers are the samples converted, in
    order; it is [4 * ceil (2 n / 3)] characters long. *)
Theorem pcmBlob_data_payload inputData :
  exists bytes,
    decode (pcmBlob_data inputData) = Some bytes
    /\ List.length bytes = (2 * List.length inputData)%nat
    /\ Int16Array_of_buffer bytes = inr (List.map floatToPcm16 inputData)
    /\ String.length (pcmBlob_data inputData)
       = (4 * Nat.div (2 * List.length inputData + 2) 3)%nat.
Proof.
  unfold pcmBlob_data. rewrite decode_encode. eexists. split; [reflexivity|].
  assert (Hr : Forall (fun s => -32768 <= s <= 32767) (List.map floatToPcm16 inputData)).
  { apply Forall_forall. intros s Hs. apply List.in_map_iff in Hs.
    destruct Hs as [x [<- _]]. apply ToInt16_range. }
  pose proof (Int16Array_of_Uint8Array Hr) as E.
  destruct (@Int16Array_of_buffer_inv _ _ E) as (_ & Hl & _). rewrite List.length_map in Hl.
  split; [assumption|]. split; [assumption|].
  now rewrite encode_length, Hl.
Qed.

(** X7. A capture frame with every sample in [-1, 1), sent as [onaudioprocess]
    sends it and decoded as inbound audio is, comes back as a one-channel
    buffer of as many frames, each sample less than one quantization step
    from the original. *)
Theorem capture_to_playback_within_a_step inputData rate :
  inputData <> [] ->
  Forall (fun x => (-1 <= x)%Q /\ (x < 1)%Q) inputData ->
  exists bytes audioBuffer samples,
    decode (pcmBlob_data inputData) = Some bytes
    /\ decodeAudioData bytes rate 1 = inr audioBuffer
    /\ length audioBuffer = List.length inputData
    /\ channelData audioBuffer = [samples]
    /\ Forall2 (fun x y => (Qabs (y - x) < 1 # 32768)%Q) inputData samples.
Proof.
  intros Hne Hr.
  destruct (capture_frame_decodes rate Hne) as (bytes & Hd & Hb).
  exists bytes. eexists. eexists. split; [exact Hd|]. split; [exact Hb|].
  cbn [length channelData]. split; [reflexivity|]. split; [reflexivity|].
  clear Hne Hd Hb. induction Hr as [|x l [Hlo Hhi] _ IH]; cbn [List.map].
  - constructor.
  - constructor; [now apply pcm16_round_trip|assumption].
Qed.

Lemma capture_to_playback_within_a_step_witness :
  exists bytes audioBuffer samples,
    decode (pcmBlob_data [1 # 2; -(1 # 3)]%Q) = Some bytes
    /\ decodeAudioData bytes 16000 1 = inr audioBuffer
    /\ length audioBuffer = 2%nat
    /\ channelData audioBuffer = [samples]
    /\ Forall2 (fun x y => (Qabs (y - x) < 1 # 32768)%Q) [1 # 2; -(1 # 3)]%Q samples.
Proof.
  assert (Hne : [1 # 2; -(1 # 3)]%Q <> []) by discriminate.
  assert (Hr : Forall (fun x => (-1 <= x)%Q /\ (x < 1)%Q) [1 # 2; -(1 # 3)]%Q).
  { repeat constructor; unfold Qle, Qlt; simpl; lia. }
  exact (@capture_to_playback_within_a_step _ 16000 Hne Hr).
Defined.

End CodecViews.

(** ** The set of playback handles *)

Section ActiveHandles.

Lemma Set_has_fresh id s :
  Forall (fun n => (node_id n < id)%nat) s -> Set_has id s = false.
Proof.
  unfold Set_has. induction 1 as [|n s Hn _ IH]; [reflexivity|].
  cbn [List.existsb]. rewrite IH.
  replace (Nat.eqb (node_id n) id) with false by (symmetry; apply Nat.eqb_neq; lia).
  reflexivity.
Qed.

Lemma handles_ok_weaken c c' :
  sourcesRef c' = sourcesRef c ->
  (fresh c <= fresh c')%nat ->
  nextStartTimeRef c <= nextStartTimeRef c' ->
  handles_ok c -> handles_ok c'.
Proof.
  unfold handles_ok. intros Hs Hf Hk [Hd Ha]. rewrite Hs. split; [assumption|].
  eapply Forall_impl; [|exact Ha]. cbv beta. intros n [H1 H2]. split; lia.
Qed.

Lemma handles_ok_empty c : sourcesRef c = [] -> handles_ok c.
Proof. unfold handles_ok. intros ->. split; constructor. Qed.

Lemma handles_ok_enqueued t b c : handles_ok c -> handles_ok (enqueued t b c).
Proof.
  unfold handles_ok. intros [Hd Ha].
  assert (Hfresh : Set_has (fresh c) (sourcesRef c) = false).
  { apply Set_has_fresh. eapply Forall_impl; [|exact Ha]. now intros n [H _]. }
  pose proof (duration_nonneg b) as Hb.
  unfold enqueued. destruct c; cbn -[Z.max Z.add Set_add Set_has duration] in *.
  unfold Set_add. cbn [node_id]. rewrite Hfresh. split.
  - rewrite List.map_app. cbn [List.map node_id].
    apply NoDup_app; [assumption|repeat constructor; intros []|].
    intros x Hx [<-|[]]. apply List.in_map_iff in Hx. destruct Hx as [n [E Hn]].
    rewrite Forall_forall in Ha. destruct (Ha n Hn). lia.
  - apply Forall_app. split.
    + eapply Forall_impl; [|exact Ha]. cbv beta. intros n [H1 H2]. split; lia.
    + repeat constructor; cbn [node_id when buffer]; lia.
Qed.

Lemma handles_ok_play_audio t m c :
  handles_ok c -> handles_ok (snd (play_audio t m c)).
Proof.
  intro H. rewrite play_audio_spec.
  destruct (base64Audio_of m) as [e|[b|]]; try exact H.
  destruct (outputAudioContextRef c); try exact H.
  destruct (nonempty b); try exact H.
  rewrite schedule_spec. cbv zeta.
  destruct (decode b) as [bytes|].
  - destruct (decodeAudioData bytes 24000 1) as [e|audioBuffer].
    + apply (handles_ok_weaken (c := c)); try assumption;
      destruct c; cbn -[Z.max]; first [reflexivity | lia].
    + apply (handles_ok_enqueued t audioBuffer H).
  - apply (handles_ok_weaken (c := c)); try assumption;
      destruct c; cbn -[Z.max]; first [reflexivity | lia].
Qed.

Lemma handles_ok_onmessage t m c :
  handles_ok c -> handles_ok (run (onmessage t m) c).
Proof.
  intro H. unfold run. rewrite onmessage_spec. cbv zeta.
  pose proof (text_blocks_playback m c) as Hp.
  set (c2 := run (complete_turn m) (run (accumulate_transcription m) c)) in *.
  unfold playback in Hp. injection Hp as Hk Hs Hf Ht.
  assert (H2 : handles_ok c2).
  { apply (handles_ok_weaken (c := c)); try assumption; lia. }
  pose proof (handles_ok_play_audio t m H2) as H3.
  destruct (play_audio t m c2) as [[e|[]] c3]; cbn [snd] in *; [assumption|].
  rewrite interrupt_spec. destruct (truthy _); [|assumption].
  rewrite flush_spec. apply handles_ok_empty. now destruct c3.
Qed.

Lemma handles_ok_onended id c : handles_ok c -> handles_ok (run (onended id) c).
Proof.
  unfold handles_ok, run, onended, update. cbn [snd]. intros [Hd Ha].
  destruct c as [co li ts se a o p st mm clock srcs ci cu fr tr0]; cbn in *.
  unfold Set_delete. split.
  - clear Ha. induction srcs as [|n s IH]; [constructor|].
    cbn [List.map List.filter] in *. inversion_clear Hd as [|? ? Hn Hs].
    destruct (negb (Nat.eqb (node_id n) id)); [|auto].
    cbn [List.map]. constructor; [|auto].
    intro Hin. apply Hn. apply List.in_map_iff in Hin. destruct Hin as [x [E Hx]].
    apply List.filter_In in Hx. apply List.in_map_iff. exists x. tauto.
  - apply Forall_forall. intros n Hn. apply List.filter_In in Hn.
    rewrite Forall_forall in Ha. apply Ha. tauto.
Qed.

Lemma handles_ok_stop c : handles_ok (run stopConversation c).
Proof. unfold run. rewrite stopConversation_spec. now apply handles_ok_empty. Qed.

Lemma startConversation_playback env c :
  let c' := run (startConversation env) c in
  sourcesRef c' = []
  \/ (sourcesRef c' = sourcesRef c /\ nextStartTimeRef c' = nextStartTimeRef c
      /\ (fresh c <= fresh c')%nat).
Proof.
  cbv zeta. unfold run, startConversation, new_AudioContext, getUserMedia,
    live_connect, acquire.
  destruct c as [co li ts se a o p st m clock srcs ci cu fr tr0].
  destruct (env InputContext), (env OutputContext), (env MicStream),
    (env TransportSession);
    cbv -[stopConversation List.app String.append Nat.le];
    try rewrite stopConversation_spec; cbn [sourcesRef snd];
    first [left; reflexivity | right; repeat split; lia].
Qed.

Lemma handles_ok_start env c :
  handles_ok c -> handles_ok (run (startConversation env) c).
Proof.
  intro H. destruct (startConversation_playback env c) as [He|(Hs & Hk & Hf)].
  - now apply handles_ok_empty.
  - apply (handles_ok_weaken (c := c)); try assumption. lia.
Qed.

Lemma handles_ok_onopen c : handles_ok c -> handles_ok (run onopen c).
Proof.
  intro H. unfold run, onopen, bind, read.
  destruct (audioContextRef c) eqn:Ea; [|exact H].
  destruct (streamRef c) eqn:Es; [|exact H].
  apply (handles_ok_weaken (c := c)); try assumption;
      destruct c; cbn -[Z.max]; first [reflexivity | lia].
Qed.

Lemma handler_keeps_handles_ok e c :
  handles_ok c -> handles_ok (run (handler e) c).
Proof.
  intro H. destruct e as [env| | |t m|id|inputData| | |]; cbn [handler].
  - now apply handles_ok_start.
  - apply handles_ok_stop.
  - now apply handles_ok_onopen.
  - now apply handles_ok_onmessage.
  - now apply handles_ok_onended.
  - apply (handles_ok_weaken (c := c)); try assumption;
      destruct c; cbn -[Z.max]; first [reflexivity | lia].
  - unfold run, onerror, bind, effect, update. cbn [snd].
    rewrite stopConversation_spec. now apply handles_ok_empty.
  - apply handles_ok_stop.
  - apply (handles_ok_weaken (c := c)); try assumption;
      destruct c; cbn -[Z.max]; first [reflexivity | lia].
Qed.

(** X8. Whatever happens to the component, in whatever order, the active
    handles stay distinct objects that it created, and none of them plays
    beyond the clock. *)
Theorem handles_stay_well_formed l c :
  handles_ok c -> handles_ok (run_events l c).
Proof.
  revert c. induction l as [|e l IH]; intros c Hc; [assumption|].
  cbn [run_events]. apply IH. now apply handler_keeps_handles_ok.
Qed.

Lemma handles_stay_well_formed_witness :
  handles_ok initial
  /\ handles_ok
       (run_events [Start all_succeed; Open; Message 0 (audio_message "AAAAAA==");
                    Message 1 garbled; Ended 6; AudioProcess [1 # 2]%Q;
                    Message 2 interruption_message; Error; Start mic_denied; Close; Stop]
          initial).
Proof.
  assert (H : handles_ok initial) by (split; constructor).
  split; [exact H|]. exact (@handles_stay_well_formed _ initial H).
Defined.

Lemma onmessage_chunk_state t m c ctx :
  is_chunk m = true ->
  outputAudioContextRef c = Some ctx ->
  exists audioBuffer,
    inbound_audio m = Some audioBuffer
    /\ playback (run (onmessage t m) c)
       = playback (enqueued t audioBuffer c).
Proof.
  unfold is_chunk. intros Hm Hc.
  destruct (inbound_audio m) as [b|] eqn:Hb; [|discriminate Hm].
  apply negb_true_iff in Hm. exists b. split; [reflexivity|].
  pose proof (text_blocks_playback m c) as Hp.
  destruct (complete_turn_frame m (run (accumulate_transcription m) c)) as [H2 _].
  destruct (accumulate_transcription_frame m c) as [H1 _].
  cbv zeta in H1, H2.
  unfold run at 1. rewrite onmessage_spec. cbv zeta.
  set (c2 := run (complete_turn m) (run (accumulate_transcription m) c)) in *.
  assert (Hc2 : outputAudioContextRef c2 = Some ctx).
  { rewrite H1 in H2. unfold lifecycle in H2. injection H2 as _ _ _ _ Ho _ _ _.
    now rewrite Ho. }
  rewrite (play_audio_enqueue t m c2 Hb Hc2), interrupt_spec, Hm. cbn [snd].
  unfold playback in Hp. injection Hp as Hk Hs Hf Ht.
  unfold enqueued, playback. destruct c2, c; cbn -[Z.max] in *. now subst.
Qed.

(** X9. A chunk that arrives while the output context is there adds exactly
    one handle, a new one, which starts at the clock or at the current
    time, whichever is later, hence after every active handle has
    finished; the clock moves to its end; and when it ends the set of
    handles is as before. *)
Theorem chunk_follows_active_handles t m c ctx :
  handles_ok c ->
  is_chunk m = true ->
  outputAudioContextRef c = Some ctx ->
  exists node,
    sourcesRef (run (onmessage t m) c) = sourcesRef c ++ [node]
    /\ node_id node = fresh c
    /\ when node = Z.max (nextStartTimeRef c) t
    /\ t <= when node
    /\ duration (buffer node) = chunk_duration m
    /\ (forall n, In n (sourcesRef c) -> when n + duration (buffer n) <= when node)
    /\ nextStartTimeRef (run (onmessage t m) c) = when node + duration (buffer node)
    /\ sourcesRef (run (onended (node_id node)) (run (onmessage t m) c)) = sourcesRef c.
Proof.
  intros [Hd Ha] Hm Hc.
  destruct (@onmessage_chunk_state t m c ctx Hm Hc) as (b & Hb & Hp).
  assert (Hfresh : Set_has (fresh c) (sourcesRef c) = false).
  { apply Set_has_fresh. eapply Forall_impl; [|exact Ha]. now intros n [H _]. }
  unfold playback in Hp. injection Hp as Hk Hs _ _.
  exists {| node_id := fresh c; buffer := b; when := Z.max (nextStartTimeRef c) t |}.
  assert (Hs' : sourcesRef (run (onmessage t m) c)
                = sourcesRef c
                    ++ [{| node_id := fresh c; buffer := b;
                           when := Z.max (nextStartTimeRef c) t |}]).
  { rewrite Hs. unfold enqueued.
    destruct c as [co li ts se a o p st mm clock srcs ci cu fr tr0].
    cbn -[Z.max Set_add Set_has] in *. unfold Set_add. cbn [node_id].
    now rewrite Hfresh. }
  assert (Hk' : nextStartTimeRef (run (onmessage t m) c)
                = Z.max (nextStartTimeRef c) t + duration b).
  { rewrite Hk. unfold enqueued. now destruct c. }
  split; [exact Hs'|]. cbn [node_id when buffer].
  unfold chunk_duration. rewrite Hb.
  split; [reflexivity|]. split; [reflexivity|]. split; [lia|]. split; [reflexivity|].
  split.
  { intros n Hn. rewrite Forall_forall in Ha. destruct (Ha n Hn). lia. }
  split; [exact Hk'|].
  unfold run at 1, onended, update. cbn [snd].
  set (c1 := run (onmessage t m) c) in *.
  replace (sourcesRef (set_sourcesRef _ c1))
    with (Set_delete (fresh c) (sourcesRef c1)) by (now destruct c1).
  rewrite Hs'. unfold Set_delete. rewrite List.filter_app. cbn [List.filter node_id].
  rewrite Nat.eqb_refl. cbn [negb]. rewrite List.app_nil_r.
  clear -Ha.
  induction Ha as [|n s [Hn _] _ IH]; [reflexivity|].
  cbn [List.filter].
  replace (Nat.eqb (node_id n) (fresh c)) with false
    by (symmetry; apply Nat.eqb_neq; lia).
  cbn [negb]. now rewrite IH.
Qed.

Lemma chunk_follows_active_handles_witness :
  handles_ok playing
  /\ is_chunk (audio_message "AAAAAA==") = true
  /\ exists node,
       sourcesRef (run (onmessage 1 (audio_message "AAAAAA==")) playing)
       = sourcesRef playing ++ [node]
       /\ when node = 2
       /\ sourcesRef (run (onended (node_id node))
                        (run (onmessage 1 (audio_message "AAAAAA==")) playing))
          = sourcesRef playing.
Proof.
  assert (H1 : handles_ok playing).
  { unfold handles_ok. vm_compute. split; [repeat constructor; intros []|].
    repeat constructor. discriminate. }
  assert (H2 : is_chunk (audio_message "AAAAAA==") = true) by (vm_compute; reflexivity).
  assert (H3 : outputAudioContextRef playing
               = Some {| ctx_id := 1; ctx_sampleRate := 24000; state := running |})
    by (vm_compute; reflexivity).
  split; [exact H1|]. split; [exact H2|].
  destruct (@chunk_follows_active_handles 1 _ _ _ H1 H2 H3)
    as (node & Hs & _ & Hw & _ & _ & _ & _ & He).
  exists node. split; [exact Hs|]. split; [exact Hw|exact He].
Defined.

(** X10. The ['ended'] listener of a source removes that source from the set of
    handles and touches nothing else: the other handles, the clock, the
    session, the transcript and the effects stay as they are. *)
Theorem onended_removes_handle id c :
  (forall n, In n (sourcesRef (run (onended id) c))
             <-> In n (sourcesRef c) /\ node_id n <> id)
  /\ outcome (onended id) c = inr tt
  /\ lifecycle (run (onended id) c) = lifecycle c
  /\ transcript (run (onended id) c) = transcript c
  /\ nextStartTimeRef (run (onended id) c) = nextStartTimeRef c
  /\ fresh (run (onended id) c) = fresh c
  /\ trace (run (onended id) c) = trace c.
Proof.
  split.
  - intro n. unfold run, onended, update. cbn [snd].
    destruct c as [co li ts se a o p st mm clock srcs ci cu fr tr0]. cbn.
    unfold Set_delete. rewrite List.filter_In.
    split; intros [H1 H2]; split; try assumption.
    + apply negb_true_iff, Nat.eqb_neq in H2. assumption.
    + apply negb_true_iff, Nat.eqb_neq. assumption.
  - unfold run, outcome, onended, update. cbn [fst snd]. now destruct c.
Qed.

End ActiveHandles.

(** ** More on inbound messages *)

Section InboundMessages.

Lemma play_audio_outcome t m c :
  match play_audio t m c with
  | (inr _, c') =>
      (c' = c
       /\ match base64Audio_of m with
          | inr (Some b) => nonempty b = false \/ outputAudioContextRef c = None
          | inr None => True
          | inl _ => False
          end)
      \/ (exists audioBuffer ctx,
            inbound_audio m = Some audioBuffer
            /\ outputAudioContextRef c = Some ctx
            /\ c' = enqueued t audioBuffer c)
  | (inl e, c') =>
      (c' = c /\ e = TypeError /\ base64Audio_of m = inl TypeError)
      \/ (c' = set_nextStartTimeRef (Z.max (nextStartTimeRef c) t) c
          /\ (e = InvalidCharacterError \/ e = RangeError \/ e = NotSupportedError)
          /\ inbound_audio m = None
          /\ exists b ctx, base64Audio_of m = inr (Some b) /\ nonempty b = true
                           /\ outputAudioContextRef c = Some ctx)
  end.
Proof.
  rewrite play_audio_spec. unfold inbound_audio, base64Audio_of.
  destruct (serverContent_get modelTurn m) as [turn|]; [|left; split; [reflexivity|exact I]].
  destruct (parts turn) as [ps|]; [|left; repeat split].
  destruct (List.nth_error ps 0) as [p|]; [|left; split; [reflexivity|exact I]].
  destruct (inlineData p) as [bl|]; [|left; split; [reflexivity|exact I]].
  destruct (data bl) as [b|]; [|left; split; [reflexivity|exact I]].
  destruct (outputAudioContextRef c) as [ctx|] eqn:Ec; [|left; split; [reflexivity|now right]].
  destruct (nonempty b) eqn:Eb; [|left; split; [reflexivity|now left]].
  rewrite schedule_spec. cbv zeta.
  destruct (decode b) as [bytes|].
  - destruct (decodeAudioData bytes 24000 1) as [e|audioBuffer] eqn:Ed.
    + right. split; [reflexivity|]. split.
      * destruct (Int16Array_of_buffer_outcome bytes) as [Ho He].
        unfold decodeAudioData in Ed.
        destruct (Int16Array_of_buffer bytes) as [e'|l] eqn:El.
        -- injection Ed as <-.
           destruct (Nat.even (List.length bytes)).
           ++ destruct (He eq_refl) as (l & E & _). discriminate E.
           ++ specialize (Ho eq_refl). injection Ho as ->. now right; left.
        -- destruct (_ || _)%bool; [|discriminate Ed].
           injection Ed as <-. now right; right.
      * split; [reflexivity|]. exists b, ctx. now repeat split.
    + right. exists audioBuffer, ctx. now repeat split.
  - right. split; [reflexivity|]. split; [now left|].
    split; [reflexivity|]. exists b, ctx. now repeat split.
Qed.

(** X11. When the handler of a message throws, it is the reading or the
    decoding of the audio that failed: the text of the message has been
    taken into the
    transcript, nothing has been started or stopped, the handles and the
    session are as before, and the clock has moved at most to the current
    time. *)
Theorem onmessage_failure t m c e :
  outcome (onmessage t m) c = inl e ->
  let c' := run (onmessage t m) c in
  new_effects c c' = []
  /\ sourcesRef c' = sourcesRef c
  /\ fresh c' = fresh c
  /\ lifecycle c' = lifecycle c
  /\ transcript c'
     = transcript (run (complete_turn m) (run (accumulate_transcription m) c))
  /\ ((e = TypeError /\ nextStartTimeRef c' = nextStartTimeRef c)
      \/ ((e = InvalidCharacterError \/ e = RangeError \/ e = NotSupportedError)
          /\ nextStartTimeRef c' = Z.max (nextStartTimeRef c) t)).
Proof.
  intro Ho. cbv zeta.
  pose proof (onmessage_lifecycle t m c) as Hlife.
  pose proof (onmessage_transcript t m c) as Htext.
  pose proof (text_blocks_playback m c) as Hp.
  unfold new_effects, outcome in *.
  change (run (onmessage t m) c) with (snd (onmessage t m c)) in *.
  rewrite onmessage_spec in *. cbv zeta in *.
  set (c2 := run (complete_turn m) (run (accumulate_transcription m) c)) in *.
  unfold playback in Hp. injection Hp as Hk Hs Hf Ht.
  pose proof (play_audio_outcome t m c2) as H.
  destruct (play_audio t m c2) as [[e'|[]] c3]; cbn [fst snd] in *.
  - injection Ho as ->.
    destruct H as [(-> & -> & _)|(-> & He & _)].
    + rewrite Ht, Hs, Hf, Hk. rewrite skipn_length_self. repeat split; try assumption.
      now left.
    + replace (trace (set_nextStartTimeRef _ c2)) with (trace c) by (now destruct c2).
      replace (sourcesRef (set_nextStartTimeRef _ c2)) with (sourcesRef c)
        by (now destruct c2).
      replace (fresh (set_nextStartTimeRef _ c2)) with (fresh c) by (now destruct c2).
      rewrite skipn_length_self. repeat split; try assumption.
      right. split; [assumption|]. rewrite <- Hk. now destruct c2.
  - rewrite interrupt_spec in Ho. destruct (truthy _); [|discriminate Ho].
    rewrite flush_spec in Ho. discriminate Ho.
Qed.

Lemma onmessage_failure_witness :
  outcome (onmessage 3 garbled) playing = inl InvalidCharacterError
  /\ new_effects playing (run (onmessage 3 garbled) playing) = []
  /\ sourcesRef (run (onmessage 3 garbled) playing) = sourcesRef playing
  /\ nextStartTimeRef (run (onmessage 3 garbled) playing) = 3.
Proof.
  assert (H : outcome (onmessage 3 garbled) playing = inl InvalidCharacterError)
    by (vm_compute; reflexivity).
  split; [exact H|].
  destruct (@onmessage_failure 3 garbled playing _ H) as (H1 & H2 & _ & _ & _ & H6).
  split; [exact H1|]. split; [exact H2|].
  destruct H6 as [[E _]|[_ E]]; [discriminate E|exact E].
Defined.

(** X12. The handler of a message returns without an exception exactly when
    the message carries no audio, or empty audio, or there is no output
    context, or the audio decodes. *)
Theorem onmessage_returns_iff t m c :
  outcome (onmessage t m) c = inr tt
  <-> match base64Audio_of m with
      | inl _ => False
      | inr None => True
      | inr (Some b) =>
          nonempty b = false \/ outputAudioContextRef c = None
          \/ inbound_audio m <> None
      end.
Proof.
  pose proof (text_blocks_playback m c) as Hp.
  destruct (complete_turn_frame m (run (accumulate_transcription m) c)) as [H2 _].
  destruct (accumulate_transcription_frame m c) as [H1 _].
  cbv zeta in H1, H2.
  unfold outcome. rewrite onmessage_spec. cbv zeta.
  set (c2 := run (complete_turn m) (run (accumulate_transcription m) c)) in *.
  assert (Hc2 : outputAudioContextRef c2 = outputAudioContextRef c).
  { rewrite H1 in H2. unfold lifecycle in H2. now injection H2 as _ _ _ _ Ho _ _ _. }
  pose proof (play_audio_outcome t m c2) as H. rewrite Hc2 in H.
  destruct (play_audio t m c2) as [[e|[]] c3]; cbn [fst].
  - split; [discriminate|]. intro Hb.
    destruct H as [(_ & _ & E)|(_ & _ & Hn & b & ctx & E & Hne & Hc)];
      rewrite E in Hb; [contradiction|].
    rewrite Hne, Hc in Hb. destruct Hb as [Hb|[Hb|Hb]]; congruence.
  - assert (Hr : fst (interrupt m c3) = inr tt).
    { rewrite interrupt_spec. destruct (truthy _); [now rewrite flush_spec|reflexivity]. }
    split; [intros _|intros _; exact Hr].
    destruct H as [[_ H]|(b & ctx & Hb & _)].
    + destruct (base64Audio_of m) as [e|[b|]]; [contradiction|tauto|exact I].
    + assert (Hn : inbound_audio m <> None) by (rewrite Hb; discriminate).
      assert (Hbase : exists b', base64Audio_of m = inr (Some b')).
      { unfold inbound_audio in Hb.
        destruct (base64Audio_of m) as [e|[b'|]]; try discriminate Hb. eauto. }
      destruct Hbase as [b' E]. rewrite E. tauto.
Qed.

Lemma onmessage_effects t m c :
  exists tr,
    trace (run (onmessage t m) c) = trace c ++ tr
    /\ List.forallb playback_effect tr = true.
Proof.
  pose proof (text_blocks_playback m c) as Hp.
  change (run (onmessage t m) c) with (snd (onmessage t m c)).
  rewrite onmessage_spec. cbv zeta.
  set (c2 := run (complete_turn m) (run (accumulate_transcription m) c)) in *.
  unfold playback in Hp. injection Hp as _ _ _ Ht. rewrite <- Ht.
  assert (H3 : exists tr, trace (snd (play_audio t m c2)) = trace c2 ++ tr
                          /\ List.forallb playback_effect tr = true).
  { pose proof (play_audio_outcome t m c2) as H.
    destruct (play_audio t m c2) as [[e|[]] c3]; cbn [snd].
    - destruct H as [(-> & _)|(-> & _)].
      + exists []. now rewrite List.app_nil_r.
      + exists []. rewrite List.app_nil_r. now destruct c2.
    - destruct H as [(-> & _)|(b & ctx & _ & _ & ->)].
      + exists []. now rewrite List.app_nil_r.
      + exists [SourceStart (fresh c2) (Z.max (nextStartTimeRef c2) t) (duration b)].
        unfold enqueued. destruct c2; cbn -[Z.max]. split; reflexivity. }
  destruct H3 as (tr & E & Hf).
  destruct (play_audio t m c2) as [[e|[]] c3]; cbn [snd] in *.
  - exists tr. now split.
  - rewrite interrupt_spec. destruct (truthy _).
    + rewrite flush_spec. exists (tr ++ stop_sources (sourcesRef c3)).
      split.
      * destruct c3; cbn in *. rewrite E. now rewrite List.app_assoc.
      * rewrite List.forallb_app, Hf. unfold stop_sources.
        clear. induction (sourcesRef c3); cbn; auto.
    + exists tr. now split.
Qed.

Lemma filtered_playback_effects tr :
  List.forallb playback_effect tr = true ->
  acquisitions tr = [] /\ releases tr = [] /\ alerts tr = []
  /\ Forall (fun e => exists id, e = SourceStop id
                      \/ exists s d, e = SourceStart id s d) tr.
Proof.
  induction tr as [|e tr IH]; [repeat split; constructor|].
  cbn [List.forallb]. intro H. apply andb_prop in H. destruct H as [He Ht].
  destruct (IH Ht) as (H1 & H2 & H3 & H4).
  unfold acquisitions, releases, alerts in *. cbn [List.flat_map].
  rewrite H1, H2, H3.
  destruct e; try discriminate He; repeat split; constructor; eauto.
Qed.

Lemma run_messages_effects l c :
  lifecycle (run_messages l c) = lifecycle c
  /\ exists tr, trace (run_messages l c) = trace c ++ tr
                /\ List.forallb playback_effect tr = true.
Proof.
  revert c. induction l as [|[t m] l IH]; intro c.
  - split; [reflexivity|]. exists []. now rewrite List.app_nil_r.
  - cbn [run_messages].
    destruct (IH (run (onmessage t m) c)) as (Hl & tr & E & Hf).
    destruct (onmessage_effects t m c) as (tr1 & E1 & Hf1).
    split; [rewrite Hl; apply onmessage_lifecycle|].
    exists (tr1 ++ tr). rewrite E, E1, <- List.app_assoc. split; [reflexivity|].
    now rewrite List.forallb_app, Hf1, Hf.
Qed.

Lemma run_messages_summary l c :
  let tr := new_effects c (run_messages l c) in
  lifecycle (run_messages l c) = lifecycle c
  /\ trace (run_messages l c) = trace c ++ tr
  /\ acquisitions tr = [] /\ releases tr = [] /\ alerts tr = []
  /\ Forall (fun e => exists id, e = SourceStop id
                      \/ exists s d, e = SourceStart id s d) tr.
Proof.
  cbv zeta. destruct (run_messages_effects l c) as (Hl & tr & E & Hf).
  unfold new_effects. rewrite E, skipn_length_app.
  destruct (filtered_playback_effects tr Hf) as (H1 & H2 & H3 & H4).
  repeat split; assumption.
Qed.

(** X13. No stream of inbound messages starts, ends or changes the session,
    acquires or releases anything, or alerts: all it does to the outside
    world is to start and stop playback sources. *)
Theorem messages_leave_session l c :
  let c' := run_messages l c in
  lifecycle c' = lifecycle c
  /\ session_state c' = session_state c
  /\ trace c' = trace c ++ new_effects c c'
  /\ acquisitions (new_effects c c') = []
  /\ releases (new_effects c c') = []
  /\ alerts (new_effects c c') = []
  /\ Forall (fun e => exists id, e = SourceStop id
                      \/ exists s d, e = SourceStart id s d) (new_effects c c').
Proof.
  cbv zeta. destruct (run_messages_summary l c) as (H0 & H1 & H2 & H3 & H4 & H5).
  repeat split; try assumption.
  now apply session_state_lifecycle.
Qed.

Lemma string_app_nil_r (s : string) : (s ++ "")%string = s.
Proof. induction s; cbn; congruence. Qed.

Lemma string_app_assoc (a b c : string) : ((a ++ b) ++ c)%string = (a ++ (b ++ c))%string.
Proof. induction a; cbn; congruence. Qed.

Lemma heard_fragment f m s : heard f m s = (s ++ fragment f m)%string.
Proof.
  unfold heard, fragment, append_text.
  destruct (serverContent_get f m); [reflexivity|now rewrite string_app_nil_r].
Qed.

Lemma run_messages_app l1 l2 c :
  run_messages (l1 ++ l2) c = run_messages l2 (run_messages l1 c).
Proof.
  revert c. induction l1 as [|[t m] l1 IH]; intro c; [reflexivity|].
  cbn [List.app run_messages]. apply IH.
Qed.

Lemma fragments_app f l1 l2 :
  fragments f (l1 ++ l2) = (fragments f l1 ++ fragments f l2)%string.
Proof.
  induction l1 as [|x l1 IH]; [reflexivity|].
  cbn [List.app fragments List.fold_right]. fold (fragments f (l1 ++ l2)).
  fold (fragments f l1). now rewrite IH, string_app_assoc.
Qed.

Lemma onmessage_transcript_open t m c :
  truthy (serverContent_get turnComplete m) = false ->
  transcript (run (onmessage t m) c)
  = (transcriptions c,
     (currentInputTranscription c ++ fragment inputTranscription m)%string,
     (currentOutputTranscription c ++ fragment outputTranscription m)%string).
Proof.
  intro H. rewrite onmessage_transcript. unfold run.
  rewrite accumulate_transcription_spec. cbn [snd].
  rewrite complete_turn_spec, H. cbn [snd].
  rewrite !heard_fragment. now destruct c.
Qed.

(** X14. Between two turn completions the buffers hold the fragments
    received, in arrival order, and the turn appended at the completion is
    made of them. *)
Theorem turn_is_the_fragments_received l t m c :
  Forall (fun tm => truthy (serverContent_get turnComplete (snd tm)) = false) l ->
  truthy (serverContent_get turnComplete m) = true ->
  transcript (run_messages l c)
  = (transcriptions c,
     (currentInputTranscription c ++ fragments inputTranscription l)%string,
     (currentOutputTranscription c ++ fragments outputTranscription l)%string)
  /\ transcript (run_messages (l ++ [(t, m)]) c)
     = (transcriptions c
          ++ [{| user := (currentInputTranscription c
                          ++ fragments inputTranscription (l ++ [(t, m)]))%string;
                 model := (currentOutputTranscription c
                           ++ fragments outputTranscription (l ++ [(t, m)]))%string |}],
        ""%string, ""%string).
Proof.
  intros Hl Hm.
  assert (H1 : transcript (run_messages l c)
               = (transcriptions c,
                  (currentInputTranscription c ++ fragments inputTranscription l)%string,
                  (currentOutputTranscription c ++ fragments outputTranscription l)%string)).
  { clear Hm. revert c. induction Hl as [|[t' m'] l Hx _ IH]; intro c.
    - cbn. now rewrite !string_app_nil_r.
    - cbn [run_messages]. rewrite IH.
      pose proof (@onmessage_transcript_open t' m' c Hx) as E.
      unfold transcript in E. injection E as E1 E2 E3. rewrite E1, E2, E3.
      cbn [fragments List.fold_right snd].
      now rewrite !string_app_assoc. }
  split; [exact H1|].
  rewrite run_messages_app. cbn [run_messages].
  rewrite onmessage_transcript. unfold run at 1 2.
  rewrite accumulate_transcription_spec. cbn [snd].
  rewrite complete_turn_spec, Hm. cbn [snd].
  unfold transcript in *. injection H1 as H1 H2 H3.
  destruct (run_messages l c) as [co li ts se a o p st mm clock srcs ci cu fr tr0].
  cbn in *. subst.
  rewrite !heard_fragment, !fragments_app.
  cbn [fragments List.fold_right snd].
  now rewrite !string_app_nil_r, !string_app_assoc.
Qed.

Lemma turn_is_the_fragments_received_witness :
  transcript (run_messages [(0, input_fragment "a"); (1, output_fragment "b" None);
                            (2, input_fragment "c"); (3, turn_complete_message)] live)
  = ([{| user := "ac"; model := "b" |}], ""%string, ""%string).
Proof.
  assert (Hl : Forall (fun tm => truthy (serverContent_get turnComplete (snd tm)) = false)
                 [(0, input_fragment "a"); (1, output_fragment "b" None);
                  (2, input_fragment "c")])
    by (repeat constructor).
  assert (Hm : truthy (serverContent_get turnComplete turn_complete_message) = true)
    by reflexivity.
  exact (proj2 (@turn_is_the_fragments_received _ 3 _ live Hl Hm)).
Defined.

End InboundMessages.

(** ** The lifetime of a session *)

Section SessionLifetime.

Lemma releases_app a b : releases (a ++ b) = releases a ++ releases b.
Proof. unfold releases. apply List.flat_map_app. Qed.

Lemma acquisitions_app a b : acquisitions (a ++ b) = acquisitions a ++ acquisitions b.
Proof. unfold acquisitions. apply List.flat_map_app. Qed.

Lemma alerts_app a b : alerts (a ++ b) = alerts a ++ alerts b.
Proof. unfold alerts. apply List.flat_map_app. Qed.

Lemma releases_stop_sources l : releases (stop_sources l) = [].
Proof. induction l; cbn; auto. Qed.

Lemma alerts_stop_sources l : alerts (stop_sources l) = [].
Proof. induction l; cbn; auto. Qed.

Lemma acquisitions_stop_sources l : acquisitions (stop_sources l) = [].
Proof. induction l; cbn; auto. Qed.

Lemma stop_effects_summary c :
  releases (stop_effects c) = held c
  /\ alerts (stop_effects c) = []
  /\ acquisitions (stop_effects c) = [].
Proof.
  unfold stop_effects, held.
  destruct c as [co li ts se a o p st mm clock srcs ci cu fr tr0]. cbn.
  destruct se, p, mm, st, a as [[? ? []]|], o as [[? ? []]|]; repeat split.
Qed.

Lemma open_context_close_effect r : open_context r = releases (close_effect r).
Proof.
  destruct r as [[id rate st]|]; [|reflexivity].
  unfold open_context, close_effect. cbn [state ctx_id]. now destruct (is_closed st).
Qed.

Lemma held_after_stop c :
  held (run contexts_closed (run stopConversation c)) = [].
Proof.
  destruct (stop_effects_close c) as [Ha Ho].
  unfold run. rewrite stopConversation_spec. cbn [snd].
  rewrite contexts_closed_spec. cbn [snd]. unfold held. cbn.
  now rewrite !open_context_close_effect, (close_effect_closed_if_asked _ Ha),
    (close_effect_closed_if_asked _ Ho).
Qed.

Lemma onerror_spec c :
  onerror c
  = stopConversation
      (set_trace (trace c ++ [ConsoleError; Alert "A connection error occurred."]) c).
Proof.
  unfold onerror, bind, effect, update.
  destruct c as [co li ts se a o p st mm clock srcs ci cu fr tr0]. cbn.
  now rewrite <- List.app_assoc.
Qed.

(** X15. However a session is torn down, by the stop, by the close of the
    transport or by its error, the handler returns; the session is closed,
    the tracks of the stream are stopped and [close()] is called on each
    context whose state does not read ['closed'], each once; every active
    source is stopped; nothing is acquired; the only alert is that of the
    error; the transcript is kept.  A close of the transport that follows
    at once calls [close()] again on those contexts and does nothing else.
    Once the platform has closed them nothing is held, the component is at
    rest, and a close that follows does nothing. *)
Theorem teardown_releases_what_is_held how c :
  let c' := run (teardown how) c in
  let c'' := run contexts_closed c' in
  outcome (teardown how) c = inr tt
  /\ releases (new_effects c c') = held c
  /\ acquisitions (new_effects c c') = []
  /\ alerts (new_effects c c')
     = match how with ByError => ["A connection error occurred."%string] | _ => [] end
  /\ incl (stop_sources (sourcesRef c)) (new_effects c c')
  /\ transcript c' = transcript c
  /\ new_effects c' (run (teardown ByClose) c')
     = close_effect (audioContextRef c) ++ close_effect (outputAudioContextRef c)
  /\ held c'' = []
  /\ quiescent c'' = true
  /\ new_effects c'' (run (teardown ByClose) c'') = [].
Proof.
  cbv zeta.
  assert (Hstop : forall c0,
             outcome stopConversation c0 = inr tt
             /\ new_effects c0 (run stopConversation c0)
                = stop_effects c0 ++ stop_sources (sourcesRef c0)
             /\ releases (stop_effects c0 ++ stop_sources (sourcesRef c0)) = held c0
             /\ acquisitions (stop_effects c0 ++ stop_sources (sourcesRef c0)) = []
             /\ alerts (stop_effects c0 ++ stop_sources (sourcesRef c0)) = []
             /\ transcript (run stopConversation c0) = transcript c0
             /\ new_effects (run stopConversation c0)
                  (run stopConversation (run stopConversation c0))
                = close_effect (audioContextRef c0) ++ close_effect (outputAudioContextRef c0)
             /\ new_effects (run contexts_closed (run stopConversation c0))
                  (run stopConversation (run contexts_closed (run stopConversation c0)))
                = []).
  { intro c0. destruct (stop_effects_summary c0) as (H1 & H2 & H3).
    split; [unfold outcome; now rewrite stopConversation_spec|].
    split.
    { unfold new_effects, run. rewrite stopConversation_spec. cbn [snd trace].
      apply skipn_length_app. }
    rewrite releases_app, acquisitions_app, alerts_app, H1, H2, H3.
    rewrite releases_stop_sources, acquisitions_stop_sources, alerts_stop_sources,
      List.app_nil_r.
    repeat split.
    - unfold run. now rewrite stopConversation_spec.
    - pose proof (stop_again c0) as E. cbv zeta in E.
      unfold new_effects. unfold run at 2. rewrite E. cbn [snd].
      set (c1 := run stopConversation c0).
      replace (trace (set_trace _ c1))
        with (trace c1 ++ close_effect (audioContextRef c0)
                ++ close_effect (outputAudioContextRef c0))
        by (now destruct c1).
      apply skipn_length_app.
    - pose proof (stop_when_closed c0) as E. cbv zeta in E.
      unfold new_effects. unfold run at 3. rewrite E. apply skipn_length_self. }
  destruct how; cbn [teardown]; unfold onclose.
  - destruct (Hstop c) as (H0 & H1 & H2 & H3 & H4 & H5 & H6 & H7).
    rewrite H1. repeat split; try assumption.
    + intros e He. apply List.in_or_app. now right.
    + apply held_after_stop.
    + apply quiescent_stop.
  - destruct (Hstop c) as (H0 & H1 & H2 & H3 & H4 & H5 & H6 & H7).
    rewrite H1. repeat split; try assumption.
    + intros e He. apply List.in_or_app. now right.
    + apply held_after_stop.
    + apply quiescent_stop.
  - set (c0 := set_trace (trace c ++ [ConsoleError; Alert "A connection error occurred."]) c).
    assert (E : run onerror c = run stopConversation c0).
    { unfold run. now rewrite onerror_spec. }
    assert (Htr0 : trace c0
                   = trace c ++ [ConsoleError; Alert "A connection error occurred."])
      by (unfold c0; now destruct c).
    assert (Hrefs : audioContextRef c0 = audioContextRef c
                    /\ outputAudioContextRef c0 = outputAudioContextRef c
                    /\ sourcesRef c0 = sourcesRef c /\ held c0 = held c
                    /\ transcript c0 = transcript c)
      by (unfold c0; now destruct c).
    destruct Hrefs as (Ra & Ro & Rs & Rh & Rt).
    destruct (Hstop c0) as (H0 & H1 & H2 & H3 & H4 & H5 & H6 & H7).
    split; [unfold outcome in *; now rewrite onerror_spec|].
    rewrite E.
    replace (new_effects c (run stopConversation c0))
      with ([ConsoleError; Alert "A connection error occurred."]
              ++ stop_effects c0 ++ stop_sources (sourcesRef c0)).
    2:{ unfold new_effects, run. rewrite stopConversation_spec. cbn [snd trace].
        rewrite Htr0, <- List.app_assoc. now rewrite skipn_length_app. }
    rewrite releases_app, acquisitions_app, alerts_app, H2, H3, H4, H5, H6, H7.
    rewrite Ra, Ro, Rh, Rt.
    repeat split.
    + intros e He. apply List.in_or_app. right. apply List.in_or_app. right.
      rewrite Rs. exact He.
    + apply held_after_stop.
    + apply quiescent_stop.
Qed.

(** X16. The open event of a transport that arrives after a teardown throws
    on the missing stream and leaves the component idle and unchanged. *)
Theorem onopen_after_teardown how c :
  let c' := run (teardown how) c in
  outcome onopen c' = inl TypeError
  /\ run onopen c' = c'
  /\ session_state (run onopen c') = Idle.
Proof.
  cbv zeta.
  assert (H : forall c0, outcome onopen (run stopConversation c0) = inl TypeError
                         /\ run onopen (run stopConversation c0) = run stopConversation c0
                         /\ session_state (run onopen (run stopConversation c0)) = Idle).
  { intro c0. unfold run, outcome. rewrite stopConversation_spec. cbn [snd].
    unfold onopen, bind, read. cbn.
    destruct (audioContextRef c0); repeat split. }
  destruct how; cbn [teardown]; unfold onclose.
  - apply H.
  - apply H.
  - replace (run onerror c) with
      (run stopConversation
         (set_trace (trace c ++ [ConsoleError; Alert "A connection error occurred."]) c))
      by (unfold run; now rewrite onerror_spec).
    apply H.
Qed.

Ltac evaluate_start E env c :=
  eassert (E : startConversation env c = _);
  [ unfold startConversation, new_AudioContext, getUserMedia, live_connect, acquire;
    repeat match goal with H : env _ = _ |- _ => rewrite H end;
    cbv -[List.app String.append];
    repeat rewrite <- List.app_assoc; cbn [List.app];
    reflexivity
  | ].

Lemma quiescent_inv c :
  quiescent c = true ->
  isLive c = false /\ isConnecting c = false /\ sessionRef c = None
  /\ processorRef c = None /\ mediaStreamSourceRef c = None /\ streamRef c = None
  /\ open_context (audioContextRef c) = [] /\ open_context (outputAudioContextRef c) = []
  /\ sourcesRef c = [].
Proof.
  unfold quiescent. intro H.
  destruct c as [co li ts se a o p st mm clock srcs ci cu fr tr0]. cbn in *.
  destruct li; [discriminate H|]. destruct co; [discriminate H|].
  destruct se; [discriminate H|]. destruct p; [discriminate H|].
  destruct mm; [discriminate H|]. destruct st; [discriminate H|].
  destruct srcs; [|now rewrite andb_false_r in H].
  destruct a as [[? ? []]|], o as [[? ? []]|]; try discriminate H; repeat split.
Qed.

(** X17. A start from rest in which every acquisition succeeds acquires the
    two contexts, the microphone and the session, in that order and
    nothing else, clears the transcript and leaves the component
    connecting; the open event that follows makes it live, with the
    capture nodes in place. *)
Theorem start_succeeds c env :
  quiescent c = true ->
  (forall s, env s = true) ->
  let c' := run (startConversation env) c in
  outcome (startConversation env) c = inr tt
  /\ session_state c' = Connecting
  /\ new_effects c c'
     = [Acquire InputContext (fresh c); Acquire OutputContext (S (fresh c));
        Acquire MicStream (S (S (fresh c)));
        Acquire TransportSession (S (S (S (fresh c))))]
  /\ audioContextRef c'
     = Some {| ctx_id := fresh c; ctx_sampleRate := 16000; state := running |}
  /\ outputAudioContextRef c'
     = Some {| ctx_id := S (fresh c); ctx_sampleRate := 24000; state := running |}
  /\ streamRef c' = Some (S (S (fresh c)))
  /\ sessionRef c' = Some (S (S (S (fresh c))))
  /\ transcript c' = ([], ""%string, ""%string)
  /\ playback c' = (nextStartTimeRef c, [], (4 + fresh c)%nat, trace c')
  /\ outcome onopen c' = inr tt
  /\ session_state (run onopen c') = Live
  /\ lifecycle (run onopen c')
     = (false, true, sessionRef c', audioContextRef c', outputAudioContextRef c',
        Some (S (4 + fresh c)), streamRef c', Some (4 + fresh c)%nat).
Proof.
  intros Hq Henv. cbv zeta.
  pose proof (Henv InputContext) as H1. pose proof (Henv OutputContext) as H2.
  pose proof (Henv MicStream) as H3. pose proof (Henv TransportSession) as H4.
  destruct (quiescent_inv c Hq) as (Q1 & Q2 & Q3 & Q4 & Q5 & Q6 & _ & _ & Q9).
  destruct c as [co li ts se a o p st mm clock srcs ci cu fr tr0]. cbn in *. subst.
  match goal with
  | |- context [run (startConversation env) ?c] => evaluate_start E env c
  end.
  unfold new_effects, outcome, run. rewrite E. cbn [fst snd trace].
  rewrite skipn_length_app. cbn. repeat split.
Qed.

Lemma start_succeeds_witness :
  quiescent initial = true
  /\ session_state (run (startConversation all_succeed) initial) = Connecting
  /\ session_state (run onopen (run (startConversation all_succeed) initial)) = Live.
Proof.
  assert (Hq : quiescent initial = true) by reflexivity.
  assert (He : forall s, all_succeed s = true) by reflexivity.
  split; [exact Hq|].
  destruct (@start_succeeds initial all_succeed Hq He)
    as (_ & H1 & _ & _ & _ & _ & _ & _ & _ & _ & H2 & _).
  split; [exact H1|exact H2].
Defined.

(** X18. A whole session from rest, from a start in which every acquisition
    succeeds, through the open event and any stream of messages, to the
    stop: what is released is what was acquired, each resource once; the
    two capture nodes are disconnected; nothing is alerted; and once the
    platform has closed the two contexts nothing is held and the component
    is at rest. *)
Theorem session_releases_all_it_acquired c env l :
  quiescent c = true ->
  (forall s, env s = true) ->
  let c' := run stopConversation
              (run_messages l (run onopen (run (startConversation env) c))) in
  Permutation (releases (new_effects c c'))
              (List.map snd (acquisitions (new_effects c c')))
  /\ NoDup (releases (new_effects c c'))
  /\ List.map fst (acquisitions (new_effects c c')) = startup_order
  /\ In (NodeDisconnect (4 + fresh c)) (new_effects c c')
  /\ In (NodeDisconnect (5 + fresh c)) (new_effects c c')
  /\ alerts (new_effects c c') = []
  /\ held (run contexts_closed c') = []
  /\ quiescent (run contexts_closed c') = true.
Proof.
  intros Hq Henv. cbv zeta.
  pose proof (Henv InputContext) as H1. pose proof (Henv OutputContext) as H2.
  pose proof (Henv MicStream) as H3. pose proof (Henv TransportSession) as H4.
  destruct (quiescent_inv c Hq) as (Q1 & Q2 & Q3 & Q4 & Q5 & Q6 & _ & _ & Q9).
  destruct c as [co li ts se a o p st mm clock srcs ci cu fr tr0]. cbn in *. subst.
  match goal with
  | |- context [run (startConversation env) ?c] => evaluate_start E env c
  end.
  apply (f_equal snd) in E. cbn [snd] in E.
  match type of E with
  | snd (startConversation env ?c0) = _ =>
      change (snd (startConversation env c0)) with (run (startConversation env) c0) in E
  end.
  rewrite E. clear E.
  match goal with
  | |- context [run onopen ?c1] =>
      let c2 := eval cbv -[List.app String.append] in (run onopen c1) in
      change (run onopen c1) with c2
  end.
  match goal with
  | |- context [run_messages l ?c2] =>
      pose proof (run_messages_summary l c2) as Hm; cbv zeta in Hm;
      set (c3 := run_messages l c2) in *
  end.
  destruct Hm as (Hlife & Htr & Hacq & Hrel & Hal & _).
  unfold lifecycle in Hlife. cbn in Hlife.
  injection Hlife as L1 L2 L3 L4 L5 L6 L7 L8.
  cbn [trace] in Htr.
  set (tr3 := new_effects _ c3) in *. clearbody tr3.
  split; [|split; [|split; [|split; [|split; [|split; [|split]]]]]];
    try (apply held_after_stop); try (apply quiescent_stop).
  all: unfold new_effects, run; rewrite stopConversation_spec; cbn [snd trace];
    unfold stop_effects;
    rewrite Htr, L3, L4, L5, L6, L7, L8; cbn [option_effect close_effect is_closed state ctx_id];
    rewrite <- !List.app_assoc; rewrite skipn_length_app;
    repeat rewrite ?releases_app, ?acquisitions_app, ?alerts_app;
    rewrite ?Hrel, ?Hacq, ?Hal, ?releases_stop_sources, ?acquisitions_stop_sources,
      ?alerts_stop_sources.
  - cbn. eapply perm_trans; [apply (Permutation_cons_append [_; _; _])|].
    cbn [List.app].
    apply (Permutation_app_tail [_] (l := [_; _; _]) (l' := [_; _; _])).
    apply (Permutation_cons_append [_; _]).
  - cbn. repeat constructor; cbn; intuition lia.
  - reflexivity.
  - apply List.in_or_app. right. apply List.in_or_app. right. cbn. tauto.
  - apply List.in_or_app. right. apply List.in_or_app. right. cbn. tauto.
  - reflexivity.
Qed.

Lemma session_releases_all_it_acquired_witness :
  quiescent initial = true
  /\ Permutation
       (releases (new_effects initial
                    (run stopConversation
                       (run_messages back_to_back
                          (run onopen (run (startConversation all_succeed) initial))))))
       [0; 1; 2; 3]%nat.
Proof.
  assert (Hq : quiescent initial = true) by reflexivity.
  assert (He : forall s, all_succeed s = true) by reflexivity.
  split; [exact Hq|].
  exact (proj1 (@session_releases_all_it_acquired initial all_succeed back_to_back Hq He)).
Defined.

End SessionLifetime.

(** ** Data URLs *)

Section DataUrls.

Lemma split_on_nonempty sep s : split_on sep s <> [].
Proof.
  destruct s as [|c r]; cbn; [discriminate|].
  destruct (Ascii.eqb c sep); [discriminate|].
  destruct (split_on sep r); discriminate.
Qed.

Lemma split_on_absent sep s : occurs sep s = false -> split_on sep s = [s].
Proof.
  induction s as [|c r IH]; [reflexivity|].
  cbn [occurs split_on]. intro H. apply orb_false_iff in H. destruct H as [H1 H2].
  now rewrite H1, (IH H2).
Qed.

Lemma split_on_app sep a b :
  occurs sep a = false ->
  split_on sep (a ++ String sep b) = a :: split_on sep b.
Proof.
  induction a as [|c r IH]; cbn [occurs String.append split_on].
  - intros _. now rewrite Ascii.eqb_refl.
  - intro H. apply orb_false_iff in H. destruct H as [H1 H2].
    now rewrite H1, (IH H2).
Qed.

Lemma occurs_list c s :
  occurs c s = true <-> In c (list_ascii_of_string s).
Proof.
  induction s as [|d r IH]; cbn [occurs list_ascii_of_string]; [split; [discriminate|intros []]|].
  rewrite orb_true_iff, IH, Ascii.eqb_eq. cbn. tauto.
Qed.

Lemma encode_no_comma bytes : occurs "," (encode bytes) = false.
Proof.
  destruct (occurs "," (encode bytes)) eqn:E; [|reflexivity].
  apply occurs_list in E.
  destruct (encode_characters bytes) as (digits & padding & Hs & Hd & Hp & _).
  rewrite Hs in E. apply List.in_app_or in E. destruct E as [E|E].
  - rewrite Forall_forall in Hd. now apply Hd in E.
  - rewrite Forall_forall in Hp. apply Hp in E. discriminate E.
Qed.

(** X19. [fileToBase64] returns what lies between the first comma and the
    next: nothing for a text without a comma, and for the data URL that
    [handleEditImage] builds from a type and a payload, the payload; what
    [encode] produces is such a payload, whatever the bytes. *)
Theorem fileToBase64_payload type payload :
  occurs "," type = false ->
  occurs "," payload = false ->
  fileToBase64 type = None
  /\ fileToBase64 (originalImageUrl type payload) = Some payload
  /\ (forall more,
        fileToBase64 (originalImageUrl type (payload ++ String "," more)) = Some payload)
  /\ (forall bytes,
        exists base64,
          fileToBase64 (originalImageUrl type (encode bytes)) = Some base64
          /\ decode base64 = Some bytes).
Proof.
  intros Ht Hp. unfold fileToBase64.
  assert (Hh : occurs "," ("data:" ++ type ++ ";base64") = false).
  { cbn. clear Hp. induction type as [|c r IH]; [reflexivity|].
    cbn [occurs String.append] in *. apply orb_false_iff in Ht. destruct Ht as [H1 H2].
    now rewrite H1, (IH H2). }
  assert (Hu : forall b, originalImageUrl type b
                         = (("data:" ++ type ++ ";base64") ++ String "," b)%string).
  { intro b. unfold originalImageUrl. now rewrite !string_app_assoc. }
  split; [now rewrite (split_on_absent _ _ Ht)|].
  split; [|split].
  - rewrite Hu, (split_on_app _ _ payload Hh). cbn [List.nth_error].
    now rewrite (split_on_absent _ _ Hp).
  - intro more. rewrite Hu, (split_on_app _ _ _ Hh). cbn [List.nth_error].
    now rewrite (split_on_app _ _ more Hp).
  - intro bytes. exists (encode bytes).
    rewrite Hu, (split_on_app _ _ _ Hh). cbn [List.nth_error].
    rewrite (split_on_absent _ _ (encode_no_comma bytes)).
    split; [reflexivity|apply decode_encode].
Qed.

Lemma fileToBase64_payload_witness :
  fileToBase64 "data:image/png;base64,iVBORw0KGgo=" = Some "iVBORw0KGgo="%string.
Proof.
  assert (Ht : occurs "," "image/png" = false) by reflexivity.
  assert (Hp : occurs "," "iVBORw0KGgo=" = false) by reflexivity.
  exact (proj1 (proj2 (@fileToBase64_payload "image/png" "iVBORw0KGgo=" Ht Hp))).
Defined.

End DataUrls.

(** ** Results of the services *)

Section ServiceResults.

(** X20. [editImage] and [textToSpeech] read the first part of the first
    candidate only: the image comes back exactly when that part has inline
    data, as a PNG data URL of it, and the speech exactly when that inline
    data is a text that is not empty; otherwise each throws its own
    failure. *)
Theorem results_come_from_the_first_part response :
  match editImage_result response with
  | inr url =>
      exists part blob,
        first_part response = Some part /\ inlineData part = Some blob
        /\ url = ("data:image/png;base64," ++ interpolate (data blob))%string
  | inl e =>
      e = Rejected "Image editing failed."
      /\ match first_part response with
         | Some part => inlineData part = None
         | None => True
         end
  end
  /\ match textToSpeech_result response with
     | inr audio =>
         exists part,
           first_part response = Some part
           /\ inlineData part = Some {| data := Some audio |}
           /\ audio <> ""%string
     | inl e =>
         e = Rejected "Text-to-speech conversion failed."
         /\ match first_part response with
            | Some {| inlineData := Some {| data := Some audio |} |} => audio = ""%string
            | _ => True
            end
     end.
Proof.
  unfold editImage_result, textToSpeech_result. split.
  - destruct (first_part response) as [part|]; [|now split].
    destruct (inlineData part) as [blob|] eqn:E; [|now split].
    now exists part, blob.
  - destruct (first_part response) as [[[[[d|]]|]]|]; try (now split).
    destruct (nonempty d) eqn:E.
    + eexists. repeat split. intros ->. discriminate E.
    + split; [reflexivity|]. destruct d; [reflexivity|discriminate E].
Qed.

Lemma await_done_spec operation polls final waits :
  await_done operation polls = Some (final, waits) ->
  List.nth_error (operation :: polls) waits = Some final
  /\ truthy (done final) = true
  /\ (forall i op, (i < waits)%nat -> List.nth_error (operation :: polls) i = Some op ->
                   truthy (done op) = false).
Proof.
  revert operation final waits.
  induction polls as [|next later IH]; intros operation final waits;
    cbn [await_done]; destruct (truthy (done operation)) eqn:E; intro H;
    try discriminate H.
  - injection H as <- <-. repeat split; [assumption|lia].
  - injection H as <- <-. repeat split; [assumption|lia].
  - destruct (await_done next later) as [[f w]|] eqn:Er; [|discriminate H].
    injection H as <- <-. destruct (IH _ _ _ Er) as (H1 & H2 & H3).
    repeat split; try assumption.
    intros [|i] op Hi Hop.
    + cbn in Hop. now injection Hop as <-.
    + apply (H3 i); [lia|assumption].
Qed.

Lemma await_done_none operation polls :
  await_done operation polls = None
  <-> List.existsb (fun op => truthy (done op)) (operation :: polls) = false.
Proof.
  revert operation. induction polls as [|next later IH]; intro operation;
    cbn [List.existsb await_done] in *.
  - rewrite orb_false_r. destruct (truthy (done operation)); split; congruence.
  - destruct (truthy (done operation)); cbn [orb]; [split; discriminate|].
    rewrite <- IH. destruct (await_done next later) as [[f w]|]; split; congruence.
Qed.

(** X21. The polling of [generateVideo] ends on the first operation that is
    done, after one wait for each operation before it; the link of that
    operation, when there is one that is not empty, is fetched with the
    key appended, and otherwise the failure is reported.  It does not end
    while no operation is done. *)
Theorem generateVideo_polls_until_done apiKey operation polls :
  match generateVideo_fetch apiKey operation polls with
  | Some (result, waits) =>
      exists final,
        List.nth_error (operation :: polls) waits = Some final
        /\ truthy (done final) = true
        /\ (forall i op, (i < waits)%nat ->
                         List.nth_error (operation :: polls) i = Some op ->
                         truthy (done op) = false)
        /\ match result with
           | inr url =>
               exists downloadLink,
                 uri final = Some downloadLink /\ downloadLink <> ""%string
                 /\ url = (downloadLink ++ "&key=" ++ interpolate apiKey)%string
           | inl e =>
               e = Rejected "Video generation failed to produce a download link."
               /\ (uri final = None \/ uri final = Some ""%string)
           end
  | None => List.existsb (fun op => truthy (done op)) (operation :: polls) = false
  end.
Proof.
  unfold generateVideo_fetch.
  destruct (await_done operation polls) as [[final waits]|] eqn:E.
  - destruct (await_done_spec _ _ E) as (H1 & H2 & H3).
    exists final. repeat split; try assumption.
    unfold download_url. destruct (uri final) as [link|]; [|split; [reflexivity|now left]].
    destruct (nonempty link) eqn:En.
    + exists link. repeat split. intros ->. discriminate En.
    + split; [reflexivity|]. right. destruct link; [reflexivity|discriminate En].
  - now apply await_done_none.
Qed.

End ServiceResults.

(** ** The chat log *)

Section ResearchChat.

Lemma alternates_app a b : alternates a = true -> alternates (a ++ b) = alternates b.
Proof.
  revert b. induction a as [|x|x y r IH] using list_ind2; intros b H.
  - reflexivity.
  - destruct x as [[] ?]; discriminate H.
  - destruct x as [[] ?], y as [[] ?]; try discriminate H.
    cbn [List.app alternates] in *. now apply IH.
Qed.

Lemma type_and_send_log h turn :
  chatRef h = true ->
  chatRef (type_and_send h turn) = true
  /\ chatMessages (type_and_send h turn) = chatMessages h ++ exchange turn.
Proof.
  intro Hc. unfold type_and_send, handleChatSend, handleChatSend_begin, exchange.
  cbn [chatInput chatRef chatMessages]. rewrite Hc. cbn [negb]. rewrite orb_false_r.
  destruct (blank (fst turn)); cbn.
  - now rewrite List.app_nil_r.
  - now rewrite <- List.app_assoc.
Qed.

(** X22. Whatever is typed and sent to an open chat, and whatever the model
    answers or throws, the log grows by one message of the user followed
    by one of the model for each text that is not blank and by nothing for
    a blank one, so it keeps alternating; the input is cleared when the
    text was sent and kept when it was blank. *)
Theorem chat_log_alternates turns h :
  chatRef h = true ->
  alternates (chatMessages h) = true ->
  let h' := chat turns h in
  chatMessages h' = chatMessages h ++ List.flat_map exchange turns
  /\ alternates (chatMessages h') = true
  /\ List.length (chatMessages h')
     = (List.length (chatMessages h)
        + 2 * List.length (List.filter (fun turn => negb (blank (fst turn))) turns))%nat
  /\ (forall turn,
        chatInput (type_and_send h turn)
        = if blank (fst turn) then fst turn else ""%string)
  /\ (forall turn,
        isLoading (type_and_send h turn) = (isLoading h && blank (fst turn))%bool).
Proof.
  intros Hc Ha. cbv zeta.
  assert (H : forall turns h, chatRef h = true ->
                chatMessages (chat turns h)
                = chatMessages h ++ List.flat_map exchange turns).
  { clear. induction turns as [|turn turns IH]; intros h Hc.
    - cbn. now rewrite List.app_nil_r.
    - unfold chat in *. cbn [List.fold_left List.flat_map].
      destruct (type_and_send_log h turn Hc) as [Hc' Hm].
      now rewrite (IH _ Hc'), Hm, <- List.app_assoc. }
  rewrite (H turns h Hc). split; [reflexivity|]. split; [|split; [|split]].
  - rewrite (@alternates_app _ _ Ha). clear. induction turns as [|turn turns IH]; [reflexivity|].
    cbn [List.flat_map]. unfold exchange at 1.
    destruct (blank (fst turn)); [exact IH|]. cbn [List.app alternates]. exact IH.
  - rewrite List.length_app. f_equal. clear. induction turns as [|turn turns IH]; [reflexivity|].
    cbn [List.flat_map List.filter]. rewrite List.length_app. unfold exchange at 1.
    destruct (blank (fst turn)); cbn [negb List.length] in *; lia.
  - intro turn. unfold type_and_send, handleChatSend, handleChatSend_begin.
    cbn [chatInput chatRef]. rewrite Hc. destruct (blank (fst turn)); reflexivity.
  - intro turn. unfold type_and_send, handleChatSend, handleChatSend_begin.
    cbn [chatInput chatRef]. rewrite Hc.
    destruct (blank (fst turn)); cbn; [now rewrite andb_true_r|now rewrite andb_false_r].
Qed.

Lemma chat_log_alternates_witness :
  chatMessages
    (chat [("hi"%string, inr "hello"%string); ("  "%string, inr "?"%string);
           ("why"%string, inl TypeError)]
       {| chatRef := true; chatMessages := []; chatInput := ""; isLoading := false |})
  = [{| role := RoleUser; message_text := "hi" |};
     {| role := RoleModel; message_text := "hello" |};
     {| role := RoleUser; message_text := "why" |};
     {| role := RoleModel; message_text := "Sorry, I encountered an error." |}].
Proof.
  exact (proj1 (@chat_log_alternates
                  [("hi"%string, inr "hello"%string); ("  "%string, inr "?"%string);
                   ("why"%string, inl TypeError)]
                  {| chatRef := true; chatMessages := []; chatInput := "";
                     isLoading := false |}
                  eq_refl eq_refl)).
Defined.

End ResearchChat.

(** ** The video creator *)

Section VideoCreatorFacts.
Import VideoCreator.

Lemma in_app_snoc (A : Type) (x y : A) (l : list A) :
  In x (l ++ [y]) <-> In x l \/ x = y.
Proof.
  rewrite List.in_app_iff. cbn. intuition congruence.
Qed.

(** X23. [handleGenerate] always settles: when a guard stops it the state is
    untouched and there is one alert and no call of a service; otherwise
    the loading flag and message are cleared at the end, whatever failed,
    there are at most two alerts, none exactly when the assets are
    complete.  It never changes the topic, the ratio or the file, and never
    selects a key. *)
Theorem handleGenerate_settles sv s :
  let s' := fst (handleGenerate sv s) in
  let acts := snd (handleGenerate sv s) in
  (topic s', aspectRatio s', imageFile s') = (topic s, aspectRatio s, imageFile s)
  /\ Bool.le (apiKeySelected s') (apiKeySelected s)
  /\ isLoading s' = (isLoading s && negb (ready s))%bool
  /\ if ready s
     then loadingMessage s' = ""%string
          /\ (List.length (List.filter alerted acts) <= 2)%nat
          /\ (complete (assets s') = true <-> List.filter alerted acts = [])
          /\ Bool.le (complete (assets s')) (apiKeySelected s')
     else s' = s /\ List.filter service_call acts = []
          /\ List.length (List.filter alerted acts) = 1%nat.
Proof.
  cbv zeta. unfold handleGenerate, ready.
  destruct s as [tp ar img ld lm ast key]. cbn [topic imageFile apiKeySelected].
  destruct (nonempty tp) eqn:Et, img as [f|], key; cbn [negb andb orb];
    try (cbn; rewrite ?andb_true_r, ?andb_false_r;
         repeat split; try discriminate; auto; destruct key; reflexivity; fail).
  all: unfold generate; cbn [topic imageFile aspectRatio]; rewrite ?Et;
    destruct sv as [g sm th fb v]; cbn [groundingText scriptAndMetadata thumbnail
                                          fileBase64 video].
  all: destruct th as [eth|url]; try destruct g as [eg|text]; try destruct sm as [es|d];
    try destruct fb as [b|]; try destruct v as [ev|vurl];
    cbv zeta; cbn -[includes String.append];
    repeat match goal with
           | |- context [includes ?a ?b] => destruct (includes a b)
           end;
    cbn -[String.append];
    rewrite ?List.filter_app, ?andb_false_r; cbn -[String.append];
    repeat split; intros; try discriminate; try reflexivity; try lia; auto.
Qed.

(** X24. A run of [handleGenerate] that passes the guards calls the services
    in the order of the plan and stops at the first that fails; the run of
    an image alone starts with the thumbnail of the fixed script; the
    assets shown hold what the services returned; the video is asked with
    the ratio chosen and with an image exactly when a file is there; the
    key is deselected exactly when an [Error] was thrown whose message
    includes the phrase of the missing entity, so never by a file that
    cannot be read. *)
Theorem handleGenerate_requests sv s :
  ready s = true ->
  let s' := fst (handleGenerate sv s) in
  let acts := snd (handleGenerate sv s) in
  let calls := List.flat_map service_of acts in
  calls = List.firstn (List.length calls) (plan s)
  /\ acts = List.filter service_call acts
            ++ List.filter (fun a => negb (service_call a)) acts
  /\ (complete (assets s') = true -> calls = plan s)
  /\ (nonempty (topic s) = false ->
      exists rest, acts = GenerateImage (thumbnailPrompt imageOnlyScript) :: rest)
  /\ (forall a, assets s' = Some a ->
      thumbnail sv = inr (thumbnailUrl a)
      /\ (nonempty (topic s) = false -> scriptData a = imageOnlyScript)
      /\ (nonempty (topic s) = true -> scriptAndMetadata sv = inr (scriptData a))
      /\ (forall v, videoUrl a = Some v -> video sv = inr v))
  /\ (forall p r i, In (GenerateVideo p r i) acts ->
      r = aspectRatio s
      /\ (i = None <-> imageFile s = None)
      /\ (forall a, assets s' = Some a -> p = script (scriptData a)))
  /\ (apiKeySelected s' = false <->
      exists e, fst (fst (generate sv s)) = Some (ErrorObject e)
                /\ includes "Requested entity was not found." (error_message e) = true).
Proof.
  cbv zeta. unfold handleGenerate, ready.
  destruct s as [tp ar img ld lm ast key]. cbn [topic imageFile apiKeySelected].
  destruct (nonempty tp) eqn:Et, img as [f|], key; cbn [negb andb orb];
    try discriminate; intros _.
  all: unfold generate, plan; cbn [topic imageFile aspectRatio]; rewrite ?Et;
    destruct sv as [g sm th fb v]; cbn [groundingText scriptAndMetadata thumbnail
                                          fileBase64 video].
  all: destruct th as [eth|url]; try destruct g as [eg|text]; try destruct sm as [es|d];
    try destruct fb as [b|]; try destruct v as [ev|vurl];
    cbv zeta; cbn -[includes String.append In];
    repeat match goal with
           | |- context [includes ?a ?b] => destruct (includes a b) eqn:?
           end;
    cbn -[String.append In];
    rewrite ?List.filter_app, ?List.flat_map_app; cbn -[String.append In].
  all: repeat match goal with
              | |- _ /\ _ => split
              | |- _ <-> _ => split
              | |- forall _, _ => intro
              | H : exists _, _ |- _ => destruct H
              | H : _ /\ _ |- _ => destruct H
              | H : Some _ = Some _ |- _ => injection H as H; subst
              | H : inr _ = inr _ |- _ => injection H as H; subst
              | H : ErrorObject _ = ErrorObject _ |- _ => injection H as H; subst
              | H : In _ _ |- _ => cbn in H
              | H : videoUrl _ = _ |- _ => cbn in H
              | H : _ \/ _ |- _ => destruct H
              | H : GenerateVideo _ _ _ = GenerateVideo _ _ _ |- _ =>
                  injection H as ? ? ?; subst
              end;
    try discriminate; try contradiction; try congruence; try reflexivity;
    cbn; try lia; eauto.
Qed.

Lemma handleGenerate_requests_witness :
  let sv := {| groundingText := inr "news"%string;
               scriptAndMetadata := inl (Rejected "Could not generate video script and metadata.");
               thumbnail := inr "data:image/jpeg;base64,AAAA"%string;
               fileBase64 := Some (Some "AAAA"%string);
               video := inl (Rejected "Requested entity was not found.") |} in
  let s := {| topic := ""; aspectRatio := Portrait;
              imageFile := Some {| name := "chart.png"; type := "image/png" |};
              isLoading := false; loadingMessage := ""; assets := None;
              apiKeySelected := true |} in
  ready s = true
  /\ apiKeySelected (fst (handleGenerate sv s)) = false
  /\ List.flat_map service_of (snd (handleGenerate sv s)) = [Thumbnail; Reader; Video].
Proof.
  cbv zeta.
  assert (H : ready {| topic := ""; aspectRatio := Portrait;
                       imageFile := Some {| name := "chart.png"; type := "image/png" |};
                       isLoading := false; loadingMessage := ""; assets := None;
                       apiKeySelected := true |} = true) by reflexivity.
  split; [exact H|].
  destruct (@handleGenerate_requests
              {| groundingText := inr "news"%string;
                 scriptAndMetadata :=
                   inl (Rejected "Could not generate video script and metadata.");
                 thumbnail := inr "data:image/jpeg;base64,AAAA"%string;
                 fileBase64 := Some (Some "AAAA"%string);
                 video := inl (Rejected "Requested entity was not found.") |} _ H)
    as (_ & _ & _ & _ & _ & _ & Hk).
  split; [|reflexivity].
  apply Hk. eexists. split; reflexivity.
Defined.

End VideoCreatorFacts.

